(** * Versioning, reconciliation and graph extraction of the backend workspace

    A shallow embedding of the core of the workspace application:
    - [smartUpdate], [handleCommit], [handleCommitApis], [revertItem],
      [revertApi], [toggleWindow] and [availableWindowsToAdd] of
      [src/App.tsx];
    - [getBaseNameFromEndpoint], the grouping step of [generateApis],
      [generateControllers] and [generateRoutes] of the generation service;
    - the nodes, the edges and the layout of the graph computed by
      [src/components/Visualizer.tsx];
    - the collection and endpoint handlers of
      [src/components/ApisWindow.tsx];
    - the project store of the project service.

    Conventions.  JavaScript strings are modelled by [string], read as a
    sequence of code units.  The conversion to lower case of a name of the
    data is a parameter of the model, as the conversion of the engine
    depends on the Unicode tables; the names of the five methods and the
    verbs of the routes are ASCII texts, converted by the model itself.
    [Date.now()] is a read of an external clock: the clock is a sequence of
    readings and every call consumes the next one, the call made by
    [addToast] for the id of the toast included; [Math.random()] is read
    from a second sequence at the same counter.  React state setters are
    modelled by returning the next state: an updater runs when the setter
    is called.  The items of a batch given to [smartUpdate] are objects
    that may carry an id of their own, as the artifacts of a generation do.
    A regular expression built from a text of the data is a parameter of
    the model: the engine gives the test of the expression, or nothing when
    the constructor throws.  A write to [localStorage] may fail: whether it
    does is a parameter of the model.  The answers of the language model
    are inputs. *)

From Stdlib Require Import String Ascii ZArith List Bool Arith Lia.
From Stdlib Require Import DecimalString Sorted Permutation.
Import ListNotations.
Open Scope string_scope.
Open Scope list_scope.

(** ** JavaScript string primitives *)

Module JsString.

Definition is_upper (c : ascii) : bool :=
  (65 <=? nat_of_ascii c)%nat && (nat_of_ascii c <=? 90)%nat.

Definition is_lower (c : ascii) : bool :=
  (97 <=? nat_of_ascii c)%nat && (nat_of_ascii c <=? 122)%nat.

Definition lower_char (c : ascii) : ascii :=
  if is_upper c then ascii_of_nat (nat_of_ascii c + 32) else c.

Definition upper_char (c : ascii) : ascii :=
  if is_lower c then ascii_of_nat (nat_of_ascii c - 32) else c.

Fixpoint map_chars (f : ascii -> ascii) (s : string) : string :=
  match s with
  | EmptyString => EmptyString
  | String c s' => String (f c) (map_chars f s')
  end.

(** The conversions of the letters A to Z and a to z: what
    [s.toLowerCase()] and [s.toUpperCase()] do to a text of ASCII
    characters.  The model applies them to the names of the methods and to
    the verbs matched by the pattern of the routes, which are such texts;
    the conversion of the names of the data is a parameter (see
    [Grouping]). *)
Definition lower_ascii : string -> string := map_chars lower_char.
Definition toUpperCase : string -> string := map_chars upper_char.

(** [s.startsWith(p)] *)
Definition startsWith (s p : string) : bool := prefix p s.

(** [s.endsWith(suf)] *)
Definition endsWith (s suf : string) : bool :=
  let n := String.length s in
  let m := String.length suf in
  if (m <=? n)%nat then String.eqb (substring (n - m) m s) suf else false.

(** [s.slice(0, -k)] for a positive [k] *)
Definition slice_to_minus (s : string) (k : nat) : string :=
  substring 0 (String.length s - k) s.

(** [s.slice(k)] *)
Definition slice_from (s : string) (k : nat) : string :=
  substring k (String.length s - k) s.

(** [s.charAt(0)] *)
Definition charAt0 (s : string) : string := substring 0 1 s.

(** [s.includes(sub)] *)
Fixpoint includes (s sub : string) : bool :=
  prefix sub s ||
  match s with
  | EmptyString => false
  | String _ s' => includes s' sub
  end.

(** [s.split(sep)] for a one-character separator *)
Fixpoint split (sep : ascii) (s : string) : list string :=
  match s with
  | EmptyString => [EmptyString]
  | String c s' =>
      if Ascii.eqb c sep then EmptyString :: split sep s'
      else match split sep s' with
           | h :: t => String c h :: t
           | [] => [String c EmptyString]
           end
  end.

(** Template-literal rendering of an integer and of a length *)
Definition of_Z (z : Z) : string := NilZero.string_of_int (Z.to_int z).
Definition of_nat (n : nat) : string := NilZero.string_of_uint (Nat.to_uint n).

(** A string without the character [c]: a segment of a path. *)
Fixpoint no_char (c : ascii) (s : string) : bool :=
  match s with
  | EmptyString => true
  | String x s' => negb (Ascii.eqb x c) && no_char c s'
  end.

End JsString.

(** ** JavaScript [Map] with string keys

    A [Map] iterates in insertion order; [set] on a key that is present
    replaces the value where it stands; [delete] removes the entry. *)

Module JsMap.
Section JsMap.
Context {V : Type}.

Definition t := list (string * V).

Definition empty : t := [].

Fixpoint set (k : string) (v : V) (m : t) : t :=
match m with
| [] => [(k, v)]
| (k', v') :: m' =>
    if String.eqb k' k then (k', v) :: m' else (k', v') :: set k v m'
end.

Fixpoint get (k : string) (m : t) : option V :=
match m with
| [] => None
| (k', v') :: m' => if String.eqb k' k then Some v' else get k m'
end.

Fixpoint delete (k : string) (m : t) : t :=
match m with
| [] => []
| (k', v') :: m' =>
    if String.eqb k' k then m' else (k', v') :: delete k m'
end.

(** [new Map(entries)] *)
Definition of_entries (entries : list (string * V)) : t :=
fold_left (fun m kv => set (fst kv) (snd kv) m) entries empty.

Definition keys (m : t) : list string := map fst m.

End JsMap.
Arguments t : clear implicits.
End JsMap.

(** ** The clock

    [Clocked A] is a computation that may read the clock; the state is the
    number of readings consumed so far. *)

Definition Clocked (A : Type) : Type := nat -> A * nat.

Definition ret {A} (a : A) : Clocked A := fun n => (a, n).

Definition bind {A B} (c : Clocked A) (k : A -> Clocked B) : Clocked B :=
  fun n => let (a, n') := c n in k a n'.

Notation "x <- c ;; k" := (bind c (fun x => k))
  (at level 61, c at next level, right associativity).

Fixpoint mapM {A B} (f : A -> Clocked B) (l : list A) : Clocked (list B) :=
  match l with
  | [] => ret []
  | a :: l' => b <- f a ;; bs <- mapM f l' ;; ret (b :: bs)
  end.

(** ** Data model ([types.ts]) *)

(** [HistoryEntry<T>] *)
Record HistoryEntry (D : Type) : Type := mkEntry {
  timestamp : Z;
  data : D;
  message : option string
}.
Arguments mkEntry {D}.
Arguments timestamp {D}.
Arguments data {D}.
Arguments message {D}.

(** An artifact: [id], [history] and the remaining fields ([rest] of the
    destructuring [{ id, history, ...rest }]). *)
Record Item (D : Type) : Type := mkItem {
  item_id : string;
  item_rest : D;
  item_history : list (HistoryEntry D)
}.
Arguments mkItem {D}.
Arguments item_id {D}.
Arguments item_rest {D}.
Arguments item_history {D}.

(** An item of the batch of [smartUpdate].  The declared type of the
    items is [Omit<T, 'id' | 'history'>], which an object with more
    properties has too: the callers pass the generated artifacts, so an
    item may carry an [id] of its own, which the spread of the update
    copies.  (It may carry a [history] as well, which every branch
    overwrites.) *)
Record NewItem (D : Type) : Type := mkNewItem {
  new_id : option string;
  new_data : D
}.
Arguments mkNewItem {D}.
Arguments new_id {D}.
Arguments new_data {D}.

(** The bound [T extends { id; name; code; history }] of [smartUpdate]:
    the fields other than [id] and [history] expose a name and a code.
    [same_json a b] is [JSON.stringify(a) === JSON.stringify(b)]. *)
Class Content (D : Type) : Type := {
  name : D -> string;
  code : D -> string;
  same_json : D -> D -> bool
}.

(** Two values of [D] have the same JSON text exactly when they are equal:
    the objects compared by the program are built by spreading one
    artifact, so their keys come in the same order. *)
Class ContentLaws (D : Type) `{Content D} : Prop := {
  same_json_spec : forall a b : D, same_json a b = true <-> a = b
}.

(** [Omit<Controller, 'id' | 'history'>], the same for [Route] and
    [Middleware]. *)
Record CodeFile : Type := mkCodeFile {
  file_name : string;
  file_code : string
}.

Definition CodeFile_eqb (a b : CodeFile) : bool :=
  String.eqb (file_name a) (file_name b) && String.eqb (file_code a) (file_code b).

#[export] Instance CodeFile_Content : Content CodeFile := {
  name := file_name;
  code := file_code;
  same_json := CodeFile_eqb
}.

Definition Controller := Item CodeFile.
Definition Route := Item CodeFile.
Definition Middleware := Item CodeFile.

(** [ToastMessage]: the toasts raised by [addToast]. *)
Inductive ToastType : Type := success | error.

Record Toast : Type := mkToast {
  toast_id : Z;
  toast_message : string;
  toast_type : ToastType
}.

(** ** Versioning ([App.tsx]) *)

Section Versioning.
Variable clock : nat -> Z.
Context {D : Type} `{Content D}.

(** [Date.now()] *)
Definition Date_now : Clocked Z := fun n => (clock n, S n).

(** [addToast] of [useToast]: the toast that it appends to the toasts
    shown; its id is a reading of the clock.  The timer that removes the
    toast after three seconds is not modelled. *)
Definition addToast (message : string) (type : ToastType) : Clocked Toast :=
  id <- Date_now ;;
  ret (mkToast id message type).

(** The body of [existingItems.forEach] in [smartUpdate], with the two
    objects it mutates, [newItemsMap] and [finalItems]. *)
Fixpoint forEach_existing (existingItems : list (Item D))
    (newItemsMap : JsMap.t (NewItem D)) (finalItems : list (Item D))
    : Clocked (JsMap.t (NewItem D) * list (Item D)) :=
  match existingItems with
  | [] => ret (newItemsMap, finalItems)
  | existingItem :: rest =>
      match JsMap.get (name (item_rest existingItem)) newItemsMap with
      | Some newItemData =>
          finalItems' <-
            (if negb (String.eqb (code (item_rest existingItem))
                                 (code (new_data newItemData)))
             then
               now <- Date_now ;;
               let newHistoryEntry :=
                 mkEntry now (item_rest existingItem)
                         (Some "Auto-saved on generation") in
               (* { ...existingItem, ...newItemData, history: [...] } *)
               ret (finalItems ++
                    [mkItem (match new_id newItemData with
                             | Some id => id
                             | None => item_id existingItem
                             end)
                            (new_data newItemData)
                            (newHistoryEntry :: item_history existingItem)])
             else ret (finalItems ++ [existingItem])) ;;
          forEach_existing rest
            (JsMap.delete (name (item_rest existingItem)) newItemsMap)
            finalItems'
      | None => forEach_existing rest newItemsMap finalItems
      end
  end.

(** The body of [newItemsMap.forEach] in [smartUpdate]. *)
Fixpoint forEach_new (entries : list (string * NewItem D))
    (finalItems : list (Item D)) : Clocked (list (Item D)) :=
  match entries with
  | [] => ret finalItems
  | (_, newItemData) :: rest =>
      now <- Date_now ;;
      (* { ...newItemData, id: `${newItemData.name}-${Date.now()}`, history: [] } *)
      forEach_new rest
        (finalItems ++
         [mkItem (name (new_data newItemData) ++ "-" ++ JsString.of_Z now)%string
                 (new_data newItemData) []])
  end.

(** [smartUpdate].  [existingItemsMap] is built by the program and never
    read. *)
Definition smartUpdate (existingItems : list (Item D)) (newItems : list (NewItem D))
    : Clocked (list (Item D)) :=
  let newItemsMap :=
    JsMap.of_entries (map (fun item => (name (new_data item), item)) newItems) in
  r <- forEach_existing existingItems newItemsMap [] ;;
  forEach_new (fst r) (snd r).

(** The array of generated artifacts that [handleGenerateControllers],
    [handleGenerateRoutes] and [handleGenerateMiddlewares] pass as
    [newItems], in [setControllers(prev => smartUpdate(prev,
    newControllersData))] and the like: every item carries the id that the
    generation gave it. *)
Definition generated_batch (newData : list (Item D)) : list (NewItem D) :=
  map (fun artifact => mkNewItem (Some (item_id artifact)) (item_rest artifact))
      newData.

(** [handleCommit]: the next collection (the argument of [setter], or
    the collection as it was when [setter] is not called) and the toast
    raised. *)
Definition handleCommit (message : string) (items : list (Item D))
    : Clocked (list (Item D) * Toast) :=
  if (List.length items =? 0)%nat then
    toast <- addToast "Nothing to commit." error ;;
    ret (items, toast)
  else
    now <- Date_now ;;
    let updatedItems :=
      map (fun item =>
             let rest := item_rest item in
             match item_history item with
             | h0 :: _ =>
                 if same_json (data h0) rest then item
                 else
                   mkItem (item_id item) rest
                     (mkEntry now rest
                        (if String.eqb message EmptyString then None else Some message)
                      :: item_history item)
             | [] =>
                 mkItem (item_id item) rest
                   (mkEntry now rest
                      (if String.eqb message EmptyString then None else Some message)
                    :: item_history item)
             end) items in
    toast <-
      addToast ("Committed " ++ JsString.of_nat (List.length items) ++ " item(s).")
               success ;;
    ret (updatedItems, toast).

(** The function mapped over the collection by [revertItem]; [target]
    is its [timestamp] argument. *)
Definition revertOne (id : string) (target : Z) (item : Item D)
    : Clocked (Item D) :=
  if String.eqb (item_id item) id then
    match find (fun h => Z.eqb (timestamp h) target)
               (item_history item) with
    | None => ret item
    | Some historyEntry =>
        now <- Date_now ;;
        let currentData := item_rest item in
        let newHistoryEntry := mkEntry now currentData (Some "Reverted") in
        let newHistory :=
          filter (fun h => negb (Z.eqb (timestamp h) target))
                 (item_history item) in
        ret (mkItem (item_id item) (data historyEntry)
                    (newHistoryEntry :: newHistory))
    end
  else ret item.

(** [revertItem]: the collection that the updater passed to [setter]
    returns, and the toast raised after the call of [setter]. *)
Definition revertItem (id : string) (target : Z) (prevItems : list (Item D))
    : Clocked (list (Item D) * Toast) :=
  items <- mapM (revertOne id target) prevItems ;;
  toast <- addToast "Item reverted successfully!" success ;;
  ret (items, toast).

End Versioning.

(** ** Endpoints and schemas ([types.ts]) *)

Inductive Method : Type := GET | POST | PUT | DELETE | PATCH.

Definition Method_text (m : Method) : string :=
  match m with
  | GET => "GET" | POST => "POST" | PUT => "PUT"
  | DELETE => "DELETE" | PATCH => "PATCH"
  end.

Record ModelField : Type := mkField {
  field_name : string;
  field_type : string
}.

(** [Omit<Model, 'id' | 'history'>] *)
Record ModelData : Type := mkModelData {
  model_name : string;
  model_fields : list ModelField;
  model_code : string
}.

(** [Omit<Api, 'id' | 'history'>] *)
Record ApiData : Type := mkApiData {
  api_name : string;
  api_endpoint : string;
  api_method : Method;
  api_description : string;
  api_code : string;
  api_requestBodyExample : option string;
  api_responseBodyExample : option string
}.

Definition Model := Item ModelData.
Definition Api := Item ApiData.

Record ApiCollection : Type := mkCollection {
  coll_id : string;
  coll_name : string;
  coll_apis : list Api
}.

(** ** Naming and grouping ([generateControllers]) *)

Module Grouping.
Import JsString.

(** A string is truthy when it is not empty. *)
Definition truthy (s : string) : bool := negb (String.eqb s EmptyString).

(** The block "De-pluralize (simple version)". *)
Definition dePluralize (name : string) : string :=
  if endsWith name "ies" then (slice_to_minus name 3 ++ "y")%string
  else if endsWith name "s" then slice_to_minus name 1
  else name.

(** The segments kept by the filter on the parts of the endpoint. *)
Definition kept (p : string) : bool :=
  truthy p && negb (String.eqb p "api") && negb (startsWith p ":").

Definition getBaseNameFromEndpoint (endpoint : string) : option string :=
  let parts := filter kept (split "/"%char endpoint) in
  match parts with
  | name :: _ => Some (dePluralize name)
  | [] => None
  end.

Section Casing.

(** [s.toLowerCase()] on the names of the schemas and of the endpoints,
    which may hold any character.  The case conversion of Unicode is not
    embedded: it is a parameter of the model, and what is proved holds
    whatever the conversion is. *)
Variable toLowerCase : string -> string.

(** [s.charAt(0).toLowerCase() + s.slice(1)] *)
Definition lowerFirst (s : string) : string :=
  (toLowerCase (charAt0 s) ++ slice_from s 1)%string.

(** Strategy 1: the schema named by the endpoint. *)
Definition fromEndpoint (models : list Model) (api : Api) : option string :=
  match getBaseNameFromEndpoint (api_endpoint (item_rest api)) with
  | Some baseName =>
      if truthy baseName then
        match find (fun m => String.eqb (toLowerCase (model_name (item_rest m)))
                                        baseName) models with
        | Some modelMatch => Some (lowerFirst (model_name (item_rest modelMatch)))
        | None => None
        end
      else None
  | None => None
  end.

(** Strategy 2: the first schema whose name occurs in the name of the
    endpoint. *)
Definition fromApiName (models : list Model) (api : Api) : option string :=
  match find (fun model =>
                includes (toLowerCase (api_name (item_rest api)))
                         (toLowerCase (model_name (item_rest model)))) models with
  | Some model => Some (lowerFirst (model_name (item_rest model)))
  | None => None
  end.

(** [!controllerFileBaseName] *)
Definition unset (v : option string) : bool :=
  match v with
  | Some s => negb (truthy s)
  | None => true
  end.

Definition controllerFileBaseName (models : list Model) (api : Api) : string :=
  let v1 := fromEndpoint models api in
  let v2 := if unset v1 then fromApiName models api else v1 in
  let v3 := if unset v2 then Some "general" else v2 in
  match v3 with
  | Some s => s
  | None => "general"
  end.

Definition controllerName (models : list Model) (api : Api) : string :=
  (controllerFileBaseName models api ++ "Controller.js")%string.


End Casing.

End Grouping.

(** ** Dependency graph: routes to endpoints ([Visualizer.tsx]) *)

Module Visualizer.
Import JsString.

Inductive NodeType : Type := model | controller | route | middleware | api.

(** A node as created in step 1 ([x] and [y] are 0 until the layout
    step; the [data] back-reference plays no part in the edges). *)
Record GraphNode : Type := mkNode {
  node_id : string;
  node_type : NodeType;
  node_label : string;
  node_x : Z;
  node_y : Z
}.

Record GraphEdge : Type := mkEdge {
  edge_id : string;
  edge_source : string;
  edge_target : string
}.

(** The pattern [/router\.(get|post|put|delete|patch)\(['"`](.*?)['"`]/g]. *)

Definition verbs : list string := ["get"; "post"; "put"; "delete"; "patch"].

(** The class of the three quote characters. *)
Definition is_quote (c : ascii) : bool :=
  Ascii.eqb c "'"%char || Ascii.eqb c "034"%char || Ascii.eqb c "`"%char.

(** [.] matches any character but a line terminator. *)
Definition is_line_terminator (c : ascii) : bool :=
  Ascii.eqb c "010"%char || Ascii.eqb c "013"%char.

(** The text left after a literal prefix. *)
Fixpoint after (lit s : string) : option string :=
  match lit, s with
  | EmptyString, _ => Some s
  | String a lit', String b s' => if Ascii.eqb a b then after lit' s' else None
  | String _ _, EmptyString => None
  end.

(** [(.*?)] followed by a quote: the shortest run of characters, none a
    line terminator, that is followed by a quote. *)
Fixpoint lazy_to_quote (s : string) : option string :=
  match s with
  | EmptyString => None
  | String c s' =>
      if is_quote c then Some EmptyString
      else if is_line_terminator c then None
      else match lazy_to_quote s' with
           | Some p => Some (String c p)
           | None => None
           end
  end.

(** The rest of the pattern after the verb: the parenthesis, a quote,
    the lazy group and a quote. *)
Definition match_args (s : string) : option string :=
  match s with
  | String p (String q s') =>
      if Ascii.eqb p "("%char && is_quote q then lazy_to_quote s' else None
  | _ => None
  end.

(** The alternatives are tried in order. *)
Fixpoint match_verbs (vs : list string) (s : string) : option (string * string) :=
  match vs with
  | [] => None
  | v :: vs' =>
      match after v s with
      | Some s' =>
          match match_args s' with
          | Some path => Some (v, path)
          | None => match_verbs vs' s
          end
      | None => match_verbs vs' s
      end
  end.

(** A match of the pattern at the start of [s]: the two groups. *)
Definition match_here (s : string) : option (string * string) :=
  match after "router." s with
  | Some s' => match_verbs verbs s'
  | None => None
  end.

(** The length of the match with groups [verb] and [path]. *)
Definition match_length (verb path : string) : nat :=
  String.length "router." + String.length verb + 2 + String.length path + 1.

(** [matchAll]: the matches from left to right, each search resuming
    where the previous match ended; [skip] counts the characters of the
    previous match still to be passed. *)
Fixpoint matchAll_from (skip : nat) (s : string) : list (string * string) :=
  match s with
  | EmptyString => []
  | String _ s' =>
      match skip with
      | S k => matchAll_from k s'
      | O =>
          match match_here s with
          | Some (verb, path) =>
              (verb, path) :: matchAll_from (match_length verb path - 1) s'
          | None => matchAll_from 0 s'
          end
      end
  end.

Definition routeDefinitions (code : string) : list (string * string) :=
  matchAll_from 0 code.

(** Step 1: the nodes of the routers and of the endpoints. *)
Definition routeNodes (routes : list Route) : list GraphNode :=
  map (fun r => mkNode (item_id r) route (file_name (item_rest r)) 0 0) routes.

Definition apiNodes (allApis : list Api) : list GraphNode :=
  map (fun a => mkNode (item_id a) api
                  (Method_text (api_method (item_rest a)) ++ " "
                   ++ api_endpoint (item_rest a))%string 0 0)
      allApis.

Definition allApis (apiCollections : list ApiCollection) : list Api :=
  flat_map coll_apis apiCollections.

(** The edges pushed by the loop "Routes -> APIs". *)
Definition routeApiEdges (routes : list Route) (apiCollections : list ApiCollection)
    : list GraphEdge :=
  let allApis := allApis apiCollections in
  let routeNodeMapByName :=
    JsMap.of_entries (map (fun n => (node_label n, n)) (routeNodes routes)) in
  let apiNodeMapById :=
    JsMap.of_entries (map (fun n => (node_id n, n)) (apiNodes allApis)) in
  flat_map
    (fun route =>
       match JsMap.get (file_name (item_rest route)) routeNodeMapByName with
       | None => []
       | Some sourceNode =>
           flat_map
             (fun m =>
                let method := toUpperCase (fst m) in
                let endpoint := snd m in
                match find (fun a =>
                              String.eqb (Method_text (api_method (item_rest a))) method
                              && String.eqb (api_endpoint (item_rest a)) endpoint)
                           allApis with
                | Some targetApi =>
                    match JsMap.get (item_id targetApi) apiNodeMapById with
                    | Some targetNode =>
                        [mkEdge (node_id sourceNode ++ "-" ++ node_id targetNode)%string
                                (node_id sourceNode) (node_id targetNode)]
                    | None => []
                    end
                | None => []
                end)
             (routeDefinitions (file_code (item_rest route)))
       end)
    routes.

(** *** Vocabulary of the statements about the edges *)

(** A path that the lazy group can hold: no quote, no line terminator. *)
Fixpoint plain (s : string) : bool :=
  match s with
  | EmptyString => true
  | String c s' => negb (is_quote c) && negb (is_line_terminator c) && plain s'
  end.

(** The text of a route registration up to the quote that closes the
    path. *)
Definition statement (verb : string) (q1 : ascii) (path : string) (q2 : ascii)
    : string :=
  ("router." ++ verb ++ String "("%char (String q1 (path ++ String q2 EmptyString)))%string.

(** The endpoint serves the verb and the path of a registration. *)
Definition serves (verb path : string) (a : Item ApiData) : bool :=
  String.eqb (Method_text (api_method (item_rest a))) (toUpperCase verb)
  && String.eqb (api_endpoint (item_rest a)) path.

Definition edge_between (r : Route) (a : Api) : GraphEdge :=
  mkEdge (item_id r ++ "-" ++ item_id a)%string (item_id r) (item_id a).

(** One edge for each registration that a live endpoint serves, to the
    first such endpoint. *)
Definition edges_of_route (apis : list Api) (r : Route) : list GraphEdge :=
  flat_map (fun m => match find (serves (fst m) (snd m)) apis with
                     | Some a => [edge_between r a]
                     | None => []
                     end)
           (routeDefinitions (file_code (item_rest r))).

End Visualizer.

(** ** Endpoint collections ([ApisWindow.tsx]) *)

Module ApisWindow.

Definition UNCATEGORIZED_COLLECTION_NAME : string := "Uncategorized".

Record ConfirmationState : Type := mkConfirmation {
  isOpen : bool;
  collectionId : option string;
  collectionName : option string
}.

(** The state of the window that the collection handlers read and
    write, and the toasts raised so far (latest last). *)
Record State : Type := mkState {
  apiCollections : list ApiCollection;
  activeCollectionId : option string;
  renamingCollectionId : option string;
  collectionConfirmationState : ConfirmationState;
  toasts : list Toast
}.

Definition is_uncategorized (c : ApiCollection) : bool :=
  String.eqb (coll_name c) UNCATEGORIZED_COLLECTION_NAME.

Definition has_id (id : string) (c : ApiCollection) : bool :=
  String.eqb (coll_id c) id.

(** A string that is [null], [undefined] or empty is falsy. *)
Definition truthy_id (v : option string) : option string :=
  match v with
  | Some s => if String.eqb s EmptyString then None else Some s
  | None => None
  end.

(** The double-click handler of a collection tab. *)
Definition onDoubleClick (collection : ApiCollection) (st : State) : State :=
  if negb (is_uncategorized collection) then
    mkState (apiCollections st) (activeCollectionId st)
            (Some (coll_id collection)) (collectionConfirmationState st) (toasts st)
  else st.

Definition handleRenameCollection (id newName : string) (st : State) : State :=
  mkState
    (map (fun c => if has_id id c
                   then mkCollection (coll_id c)
                          (if String.eqb newName EmptyString then "Untitled" else newName)
                          (coll_apis c)
                   else c)
         (apiCollections st))
    (activeCollectionId st) None (collectionConfirmationState st) (toasts st).

Definition requestDeleteCollection (id : string) (st : State) : State :=
  match find (has_id id) (apiCollections st) with
  | None => st
  | Some collectionToDelete =>
      if is_uncategorized collectionToDelete then st
      else mkState (apiCollections st) (activeCollectionId st)
             (renamingCollectionId st)
             (mkConfirmation true (Some id) (Some (coll_name collectionToDelete)))
             (toasts st)
  end.

Definition handleCancelCollectionDelete (st : State) : State :=
  mkState (apiCollections st) (activeCollectionId st) (renamingCollectionId st)
          (mkConfirmation false None None) (toasts st).

(** A double quote, for the template literals. *)
Definition dquote : string := String "034"%char EmptyString.

Section Delete.
Variable clock : nat -> Z.

(** The updater passed to [setApiCollections] by
    [handleConfirmCollectionDelete]: the next collections, the next
    active collection and the toast, or [None] when it returns [prev]
    (and neither sets the active collection nor raises a toast). *)
Definition deleteUpdater (collectionIdToDelete : string)
    (active : option string) (prev : list ApiCollection)
    : Clocked (option (list ApiCollection * option string * Toast)) :=
  match find (has_id collectionIdToDelete) prev with
  | None => ret None
  | Some collectionToDelete =>
      let apisToMove := coll_apis collectionToDelete in
      let remainingCollections :=
        filter (fun c => negb (has_id collectionIdToDelete c)) prev in
      updatedCollections <-
        (match find is_uncategorized remainingCollections with
         | Some uncategorizedCollection =>
             ret (map (fun c =>
                         if has_id (coll_id uncategorizedCollection) c
                         then mkCollection (coll_id c) (coll_name c)
                                (coll_apis c ++ apisToMove)
                         else c)
                      remainingCollections)
         | None =>
             now <- Date_now clock ;;
             let newUncategorizedCollection :=
               mkCollection ("coll-uncategorized-" ++ JsString.of_Z now)%string
                            UNCATEGORIZED_COLLECTION_NAME apisToMove in
             ret (remainingCollections ++ [newUncategorizedCollection])
         end) ;;
      let active' :=
        match active with
        | Some a =>
            if String.eqb a collectionIdToDelete then
              match truthy_id (option_map coll_id
                                 (find is_uncategorized updatedCollections)) with
              | Some uncategorizedId => Some uncategorizedId
              | None =>
                  match updatedCollections with
                  | c :: _ => Some (coll_id c)
                  | [] => None
                  end
              end
            else active
        | None => active
        end in
      toast <-
        addToast clock
          ("Collection " ++ dquote ++ coll_name collectionToDelete ++ dquote
           ++ " deleted. "
           ++ (if (0 <? List.length apisToMove)%nat
               then "APIs moved to " ++ dquote
                    ++ UNCATEGORIZED_COLLECTION_NAME ++ dquote ++ "."
               else EmptyString))%string
          success ;;
      ret (Some (updatedCollections, active', toast))
  end.

Definition handleConfirmCollectionDelete (st : State) : Clocked State :=
  match truthy_id (collectionId (collectionConfirmationState st)) with
  | None => ret st
  | Some collectionIdToDelete =>
      r <- deleteUpdater collectionIdToDelete (activeCollectionId st)
                         (apiCollections st) ;;
      let st' :=
        match r with
        | Some (updatedCollections, active', toast) =>
            mkState updatedCollections active' (renamingCollectionId st)
                    (collectionConfirmationState st) (toasts st ++ [toast])
        | None => st
        end in
      ret (handleCancelCollectionDelete st')
  end.

(** Deleting through the window: the delete button of the tab, then
    the confirmation. *)
Definition deleteCollection (id : string) (st : State) : Clocked State :=
  handleConfirmCollectionDelete (requestDeleteCollection id st).

End Delete.

(** Renaming through the window: a double click on the tab opens the
    rename input of that collection, and leaving the input calls
    [handleRenameCollection]; no input is shown for a collection that is
    not being renamed. *)
Definition renameCollection (collection : ApiCollection) (newName : string)
    (st : State) : State :=
  let st' := onDoubleClick collection st in
  match renamingCollectionId st' with
  | Some r =>
      if String.eqb r (coll_id collection)
      then handleRenameCollection (coll_id collection) newName st'
      else st'
  | None => st'
  end.

(** *** Handlers of the endpoints and of the generated collections *)

Section Collections.
Variable clock : nat -> Z.

(** [ensureUncategorizedCollection]: the next state and the id that the
    function returns. *)
Definition ensureUncategorizedCollection (st : State)
    : Clocked (State * option string) :=
  let hasUncategorized := existsb is_uncategorized (apiCollections st) in
  if negb hasUncategorized then
    now <- Date_now clock ;;
    let uncategorizedCollection :=
      mkCollection ("coll-uncategorized-" ++ JsString.of_Z now)%string
                   UNCATEGORIZED_COLLECTION_NAME [] in
    ret (mkState (apiCollections st ++ [uncategorizedCollection])
                 (activeCollectionId st) (renamingCollectionId st)
                 (collectionConfirmationState st) (toasts st),
         Some (coll_id uncategorizedCollection))
  else
    ret (st, truthy_id (option_map coll_id
                          (find is_uncategorized (apiCollections st)))).

Definition handleAddCollection (st : State) : Clocked State :=
  let newName :=
    ("Collection " ++ JsString.of_nat (List.length (apiCollections st) + 1))%string in
  now <- Date_now clock ;;
  let newCollection :=
    mkCollection ("coll-" ++ JsString.of_Z now)%string newName [] in
  ret (mkState (apiCollections st ++ [newCollection])
               (Some (coll_id newCollection)) (renamingCollectionId st)
               (collectionConfirmationState st) (toasts st)).

(** [existing.apis.push(...apis)] on the collection object that stands at
    index [i] of [updated]. *)
Fixpoint push_apis (i : nat) (apis : list Api) (updated : list ApiCollection)
    : list ApiCollection :=
  match updated, i with
  | [], _ => []
  | c :: rest, O => mkCollection (coll_id c) (coll_name c) (coll_apis c ++ apis) :: rest
  | c :: rest, S i' => c :: push_apis i' apis rest
  end.

(** The updater passed to [setApiCollections] by [handleSendMessage].
    [collectionMap] maps a name to a collection object of [updated]; the
    object is named by its index in [updated], which no step of the loop
    changes. *)
Definition mergeUpdater (newCollections prev : list ApiCollection)
    : list ApiCollection :=
  let updated := prev in
  let collectionMap :=
    JsMap.of_entries
      (map (fun ic => (coll_name (snd ic), fst ic))
           (combine (seq 0 (List.length updated)) updated)) in
  fold_left
    (fun updated newCollection =>
       match JsMap.get (coll_name newCollection) collectionMap with
       | Some existing => push_apis existing (coll_apis newCollection) updated
       | None => updated ++ [newCollection]
       end)
    newCollections updated.

(** What [await generateApis(message, models)] gives: the collections,
    [null], or an exception. *)
Inductive Generated : Type :=
| Collections (newCollections : list ApiCollection)
| NoCollections
| Thrown.

(** A call of [addToast] in the window: the toast joins the toasts
    raised so far. *)
Definition raise (message : string) (type : ToastType) (st : State)
    : Clocked State :=
  toast <- addToast clock message type ;;
  ret (mkState (apiCollections st) (activeCollectionId st) (renamingCollectionId st)
               (collectionConfirmationState st) (toasts st ++ [toast])).

(** [handleSendMessage], the answer of the generation service being
    given. *)
Definition handleSendMessage (models : list Model) (generated : Generated)
    (st : State) : Clocked State :=
  if (List.length models =? 0)%nat then
    raise "Please create at least one model before generating APIs." error st
  else
    r <- ensureUncategorizedCollection st ;;
    let st' := fst r in
    match generated with
    | Collections newCollections =>
        raise "APIs generated successfully!" success
          (mkState (mergeUpdater newCollections (apiCollections st'))
                   (activeCollectionId st') (renamingCollectionId st')
                   (collectionConfirmationState st') (toasts st'))
    | NoCollections =>
        raise "Failed to generate APIs. Check console for errors." error st'
    | Thrown => raise "An unexpected error occurred." error st'
    end.

(** The updater passed to [setApiCollections] by [handleDeleteApi]. *)
Definition deleteApiUpdater (apiId fromCollectionId : string)
    (prev : list ApiCollection)
    : list ApiCollection :=
  map (fun c =>
         if has_id fromCollectionId c
         then mkCollection (coll_id c) (coll_name c)
                (filter (fun a => negb (String.eqb (item_id a) apiId)) (coll_apis c))
         else c)
      prev.

Definition handleDeleteApi (apiId fromCollectionId : string) (st : State)
    : Clocked State :=
  raise "API deleted." success
    (mkState (deleteApiUpdater apiId fromCollectionId (apiCollections st))
             (activeCollectionId st) (renamingCollectionId st)
             (collectionConfirmationState st) (toasts st)).

End Collections.

(** The first [map] of the updater of [handleMoveApi], "Remove from
    source collection", with the variable [apiToMove] that its callback
    assigns at every collection of id [fromCollectionId]. *)
Fixpoint removeFromSource (apiId fromCollectionId : string)
    (prev : list ApiCollection) (apiToMove : option Api)
    : list ApiCollection * option Api :=
  match prev with
  | [] => ([], apiToMove)
  | c :: rest =>
      if has_id fromCollectionId c then
        let found := find (fun a => String.eqb (item_id a) apiId) (coll_apis c) in
        let r := removeFromSource apiId fromCollectionId rest found in
        (mkCollection (coll_id c) (coll_name c)
           (filter (fun a => negb (String.eqb (item_id a) apiId)) (coll_apis c))
         :: fst r, snd r)
      else
        let r := removeFromSource apiId fromCollectionId rest apiToMove in
        (c :: fst r, snd r)
  end.

(** The updater passed to [setApiCollections] by [handleMoveApi]. *)
Definition moveUpdater (apiId fromCollectionId toCollectionId : string)
    (prev : list ApiCollection) : list ApiCollection :=
  let r := removeFromSource apiId fromCollectionId prev None in
  let updatedCollections := fst r in
  match snd r with
  | Some apiToMove =>
      map (fun c =>
             if has_id toCollectionId c
             then mkCollection (coll_id c) (coll_name c) (coll_apis c ++ [apiToMove])
             else c)
          updatedCollections
  | None => updatedCollections
  end.

(** *** Vocabulary of the statements about deletion *)

(** What the deletion of the collection of id [id] makes of the
    collections when the clock reads [now]. *)
Definition afterDelete (id : string) (now : Z) (moved : list Api)
    (colls : list ApiCollection)
    : list ApiCollection :=
  let remaining := filter (fun c => negb (has_id id c)) colls in
  match find is_uncategorized remaining with
  | Some u =>
      map (fun c => if has_id (coll_id u) c
                    then mkCollection (coll_id c) (coll_name c) (coll_apis c ++ moved)
                    else c) remaining
  | None =>
      remaining ++ [mkCollection ("coll-uncategorized-" ++ JsString.of_Z now)%string
                                 UNCATEGORIZED_COLLECTION_NAME moved]
  end.

End ApisWindow.

(** ** Versioning of the endpoints and the window bar ([App.tsx]) *)

Definition option_eqb (a b : option string) : bool :=
  match a, b with
  | Some x, Some y => String.eqb x y
  | None, None => true
  | _, _ => false
  end.

Definition ApiData_eqb (a b : ApiData) : bool :=
  String.eqb (api_name a) (api_name b)
  && String.eqb (api_endpoint a) (api_endpoint b)
  && String.eqb (Method_text (api_method a)) (Method_text (api_method b))
  && String.eqb (api_description a) (api_description b)
  && String.eqb (api_code a) (api_code b)
  && option_eqb (api_requestBodyExample a) (api_requestBodyExample b)
  && option_eqb (api_responseBodyExample a) (api_responseBodyExample b).

#[export] Instance ApiData_Content : Content ApiData := {
  name := api_name;
  code := api_code;
  same_json := ApiData_eqb
}.

Section ApiVersioning.
Variable clock : nat -> Z.

(** [handleCommitApis]: the next collections (the argument of
    [setApiCollections], or the collections as they were when it is not
    called) and the toast. *)
Definition handleCommitApis (message : string) (apiCollections : list ApiCollection)
    : Clocked (list ApiCollection * Toast) :=
  if (List.length (flat_map coll_apis apiCollections) =? 0)%nat then
    toast <- addToast clock "Nothing to commit." error ;;
    ret (apiCollections, toast)
  else
    now <- Date_now clock ;;
    let updatedCollections :=
      map (fun collection =>
             mkCollection (coll_id collection) (coll_name collection)
               (map (fun api : Api =>
                       let rest := item_rest api in
                       match item_history api with
                       | h0 :: _ =>
                           if same_json (data h0) rest then api
                           else
                             mkItem (item_id api) rest
                               (mkEntry now rest
                                  (if String.eqb message EmptyString
                                   then None else Some message)
                                :: item_history api)
                       | [] =>
                           mkItem (item_id api) rest
                             (mkEntry now rest
                                (if String.eqb message EmptyString
                                 then None else Some message)
                              :: item_history api)
                       end)
                    (coll_apis collection)))
          apiCollections in
    toast <- addToast clock "Committed APIs." success ;;
    ret (updatedCollections, toast).

(** The function mapped over the endpoints of the collection by
    [revertApi]; [target] is its [timestamp] argument. *)
Definition revertApiOne (apiId : string) (target : Z) (api : Api) : Clocked Api :=
  if String.eqb (item_id api) apiId then
    match find (fun h => Z.eqb (timestamp h) target) (item_history api) with
    | None => ret api
    | Some historyEntry =>
        let currentData := item_rest api in
        now <- Date_now clock ;;
        let newHistoryEntry := mkEntry now currentData (Some "Reverted") in
        let newHistory :=
          filter (fun h => negb (Z.eqb (timestamp h) target)) (item_history api) in
        ret (mkItem (item_id api) (data historyEntry)
                    (newHistoryEntry :: newHistory))
    end
  else ret api.

Definition revertApi (collectionId apiId : string) (target : Z)
    (prevCollections : list ApiCollection)
    : Clocked (list ApiCollection * Toast) :=
  collections <-
    mapM (fun collection =>
            if String.eqb (coll_id collection) collectionId then
              updatedApis <- mapM (revertApiOne apiId target) (coll_apis collection) ;;
              ret (mkCollection (coll_id collection) (coll_name collection)
                                updatedApis)
            else ret collection)
         prevCollections ;;
  toast <- addToast clock "API reverted successfully!" success ;;
  ret (collections, toast).

End ApiVersioning.

(** ** JavaScript arrays *)

Module JsArray.
Section Sort.
Context {A : Type}.

(** [l.sort(compare)]: the sort of an array is stable; on a comparator
    that orders the elements by a key it gives the elements by increasing
    key, those of equal key in their former order. *)
Fixpoint insert (compare : A -> A -> Z) (x : A) (l : list A) : list A :=
  match l with
  | [] => [x]
  | y :: l' =>
      if (compare x y <=? 0)%Z then x :: y :: l' else y :: insert compare x l'
  end.

Definition sort (compare : A -> A -> Z) (l : list A) : list A :=
  fold_right (insert compare) [] l.

End Sort.
End JsArray.

Module WindowBar.

(** The enumeration [WindowType] ([types.ts]); its values are the names
    of its members. *)
Inductive WindowType : Type := Models | APIs | Controllers | Routes | Middleware.

Definition value (w : WindowType) : string :=
  match w with
  | Models => "Models" | APIs => "APIs" | Controllers => "Controllers"
  | Routes => "Routes" | Middleware => "Middleware"
  end.

(** [Object.values(WindowType)] *)
Definition values : list WindowType := [Models; APIs; Controllers; Routes; Middleware].

Definition same (a b : WindowType) : bool := String.eqb (value a) (value b).

(** [l.includes(w)] and [l.indexOf(w)] *)
Definition includes (l : list WindowType) (w : WindowType) : bool :=
  existsb (fun x => same x w) l.

Fixpoint indexOf (l : list WindowType) (w : WindowType) : Z :=
  match l with
  | [] => -1
  | x :: l' =>
      if same x w then 0
      else let i := indexOf l' w in if (i <? 0)%Z then -1 else (i + 1)%Z
  end.

(** The updater passed to [setVisibleWindows] by [toggleWindow]. *)
Definition toggleWindow (window : WindowType) (prev : list WindowType)
    : list WindowType :=
  if includes prev window
  then filter (fun w => negb (same w window)) prev
  else JsArray.sort (fun a b => (indexOf values a - indexOf values b)%Z)
                    (prev ++ [window]).

Definition availableWindowsToAdd (visibleWindows : list WindowType)
    : list WindowType :=
  let allWindows := values in
  filter (fun w => negb (includes visibleWindows w)) allWindows.

(** The place of a window in the enumeration. *)
Definition rank (w : WindowType) : Z := indexOf values w.

(** The comparator of [toggleWindow]. *)
Definition compare_rank (a b : WindowType) : Z :=
  (indexOf values a - indexOf values b)%Z.

End WindowBar.

(** ** The patterns of the import statements

    [/require\(['"]\.\.\/models\/(\w+)['"]\)/g], used by
    [generateControllers] and by the graph, and
    [/require\(['"]\.\.\/controllers\/(.*?)['"]\)/], used by the graph. *)

Module Patterns.
Import JsString.

(** A line feed. *)
Definition nl : string := String "010"%char EmptyString.

(** The class of the two quote characters. *)
Definition is_quote2 (c : ascii) : bool :=
  Ascii.eqb c "'"%char || Ascii.eqb c "034"%char.

(** The class of the word characters. *)
Definition is_digit (c : ascii) : bool :=
  (48 <=? nat_of_ascii c)%nat && (nat_of_ascii c <=? 57)%nat.

Definition is_word (c : ascii) : bool :=
  is_upper c || is_lower c || is_digit c || Ascii.eqb c "_"%char.

(** The greedy group of word characters: the longest run of word
    characters and the text after it.  A shorter run is followed by a word
    character, which is no quote, so that the pattern gives up none of the
    run. *)
Fixpoint word_run (s : string) : string * string :=
  match s with
  | EmptyString => (EmptyString, EmptyString)
  | String c s' =>
      if is_word c
      then let (w, r) := word_run s' in (String c w, r)
      else (EmptyString, s)
  end.

(** A match of the pattern of the schema imports at the start of [s]:
    the group and the length of the match. *)
Definition match_model (s : string) : option (string * nat) :=
  match Visualizer.after "require(" s with
  | Some (String q1 s1) =>
      if is_quote2 q1 then
        match Visualizer.after "../models/" s1 with
        | Some s2 =>
            let (w, s3) := word_run s2 in
            match w, s3 with
            | String _ _, String q2 (String p _) =>
                if is_quote2 q2 && Ascii.eqb p ")"%char
                then Some (w, String.length "require(" + 1
                              + String.length "../models/" + String.length w + 2)
                else None
            | _, _ => None
            end
        | None => None
        end
      else None
  | _ => None
  end.

(** [matchAll] of a pattern given by its matches at the start of a
    text: the matches from left to right, each search resuming where the
    previous match ended. *)
Fixpoint matchAll {A} (m : string -> option (A * nat)) (skip : nat) (s : string)
    : list A :=
  match s with
  | EmptyString => []
  | String _ s' =>
      match skip with
      | S k => matchAll m k s'
      | O =>
          match m s with
          | Some (a, len) => a :: matchAll m (len - 1) s'
          | None => matchAll m 0 s'
          end
      end
  end.

Definition modelRequires (code : string) : list string :=
  matchAll match_model 0 code.

(** The text starts with a quote and a closing parenthesis. *)
Definition closes (s : string) : bool :=
  match s with
  | String q (String p _) => is_quote2 q && Ascii.eqb p ")"%char
  | _ => false
  end.

(** The lazy group followed by a quote and a parenthesis: the shortest
    run of characters, none a line terminator, after which the text
    closes. *)
Fixpoint lazy_to_close (s : string) : option string :=
  match s with
  | EmptyString => None
  | String c s' =>
      if closes s then Some EmptyString
      else if Visualizer.is_line_terminator c then None
      else match lazy_to_close s' with
           | Some p => Some (String c p)
           | None => None
           end
  end.

(** A match of the pattern of the controller import at the start of
    [s]: the group. *)
Definition match_controller (s : string) : option string :=
  match Visualizer.after "require(" s with
  | Some (String q1 s1) =>
      if is_quote2 q1 then
        match Visualizer.after "../controllers/" s1 with
        | Some s2 => lazy_to_close s2
        | None => None
        end
      else None
  | _ => None
  end.

(** [s.match(pattern)] for a pattern without the flag [g]: the leftmost
    match. *)
Fixpoint first_match {A} (m : string -> option A) (s : string) : option A :=
  match m s with
  | Some a => Some a
  | None =>
      match s with
      | EmptyString => None
      | String _ s' => first_match m s'
      end
  end.

Definition controllerRequire (code : string) : option string :=
  first_match match_controller code.

(** *** Vocabulary of the statements about the patterns *)

(** A name that the group of word characters can hold. *)
Fixpoint word (s : string) : bool :=
  match s with
  | EmptyString => true
  | String c s' => is_word c && word s'
  end.

End Patterns.

(** ** The generation service ([services/geminiService.ts]) *)

Module Generation.
Import JsString Patterns.

(** [array.forEach(body)] and [for (const a of array) body] on a state
    that the body updates. *)
Fixpoint forEachM {A S} (body : A -> S -> Clocked S) (l : list A) (s : S)
    : Clocked S :=
  match l with
  | [] => ret s
  | a :: l' => s' <- body a s ;; forEachM body l' s'
  end.

(** [array.join(sep)] *)
Fixpoint join (sep : string) (l : list string) : string :=
  match l with
  | [] => EmptyString
  | x :: l' =>
      match l' with
      | [] => x
      | _ :: _ => (x ++ sep ++ join sep l')%string
      end
  end.

(** [s.replace(pat, '')] for a text [pat]: the first occurrence of [pat]
    is removed. *)
Fixpoint remove_first (pat s : string) : string :=
  match Visualizer.after pat s with
  | Some rest => rest
  | None =>
      match s with
      | EmptyString => EmptyString
      | String c s' => String c (remove_first pat s')
      end
  end.

(** An element of the answer of the model to [generateApis]. *)
Record RawApi : Type := mkRawApi {
  collectionName : string;
  apiData : ApiData
}.

(** The value of [controllersMap]: [modelNames] is a [Set], listed in
    insertion order. *)
Record ControllerData : Type := mkControllerData {
  modelNames : list string;
  functions : list (string * string)
}.

(** [set.add(x)] *)
Definition Set_add (x : string) (s : list string) : list string :=
  if existsb (String.eqb x) s then s else s ++ [x].

Section Names.

(** [s.toLowerCase()] on the names of the data (see [Grouping]). *)
Variable toLowerCase : string -> string.

(** The body of the loop "Group APIs into controllers". *)
Definition groupBody (models : list Model) (api : Api)
    (controllersMap : JsMap.t ControllerData) : JsMap.t ControllerData :=
  let controllerName := Grouping.controllerName toLowerCase models api in
  let controllersMap' :=
    match JsMap.get controllerName controllersMap with
    | Some _ => controllersMap
    | None => JsMap.set controllerName (mkControllerData [] []) controllersMap
    end in
  match JsMap.get controllerName controllersMap' with
  | Some controllerData =>
      let codeModelMatches := modelRequires (api_code (item_rest api)) in
      let names :=
        fold_left (fun s m => Set_add m s) codeModelMatches
                  (modelNames controllerData) in
      let handlerName := Grouping.lowerFirst toLowerCase (api_name (item_rest api)) in
      JsMap.set controllerName
        (mkControllerData names
           (functions controllerData ++ [(handlerName, api_code (item_rest api))]))
        controllersMap'
  | None => controllersMap'
  end.

Definition requireStatement (modelName : string) : string :=
  ("const " ++ modelName ++ " = require('../models/" ++ modelName ++ "');")%string.

Definition exportStatement (f : string * string) : string :=
  ("exports." ++ fst f ++ " = " ++ snd f ++ ";")%string.

(** [fullCode] of a controller file. *)
Definition controllerCode (data : ControllerData) : string :=
  let requireStatements := join nl (map requireStatement (modelNames data)) in
  let functionsCode := join (nl ++ nl) (map exportStatement (functions data)) in
  join (nl ++ nl) (filter Grouping.truthy [requireStatements; functionsCode]).

(** One route of a route file, and the value of
    [routesDataByController]. *)
Record RouteEntry : Type := mkRouteEntry {
  route_method : string;
  route_endpoint : string;
  route_handler : string
}.

Record RouteData : Type := mkRouteData {
  routeFileName : string;
  controllerVarName : string;
  controllerImportPath : string;
  routeEntries : list RouteEntry
}.

Definition routeData_of (controller : Controller) : RouteData :=
  let baseName := remove_first "Controller.js" (file_name (item_rest controller)) in
  mkRouteData (baseName ++ "Routes.js") (baseName ++ "Controller")
              ("../controllers/" ++ file_name (item_rest controller)) [].

Definition routeStatement (controllerVarName : string) (r : RouteEntry) : string :=
  ("router." ++ route_method r ++ "('" ++ route_endpoint r ++ "', "
   ++ controllerVarName ++ "." ++ route_handler r ++ ");")%string.

(** [fullCode] of a route file. *)
Definition routeCode (data : RouteData) : string :=
  let routeDefinitions :=
    join nl (map (routeStatement (controllerVarName data)) (routeEntries data)) in
  ("const express = require('express');" ++ nl
   ++ "const router = express.Router();" ++ nl
   ++ "const " ++ controllerVarName data ++ " = require('"
   ++ controllerImportPath data ++ "');" ++ nl
   ++ nl
   ++ routeDefinitions ++ nl
   ++ nl
   ++ "module.exports = router;")%string.

(** The source of the regular expression that looks for the export of a
    handler. *)
Definition exportSource (handlerName : string) : string :=
  ("exports\." ++ handlerName ++ "\s*=")%string.

Section Oracles.
Variable clock : nat -> Z.

(** The text of [Math.random()] in a template literal; the calls of
    [Date.now()] and of [Math.random()] are counted together. *)
Variable random : nat -> string.

Definition Math_random : Clocked string := fun n => (random n, S n).

(** The template [`${prefix}${Date.now()}-${Math.random()}`]. *)
Definition stamped (prefix : string) : Clocked string :=
  now <- Date_now clock ;;
  r <- Math_random ;;
  ret (prefix ++ of_Z now ++ "-" ++ r)%string.

(** The body of [rawApiData.forEach] in [generateApis]. *)
Definition rawBody (item : RawApi) (collectionsMap : JsMap.t ApiCollection)
    : Clocked (JsMap.t ApiCollection) :=
  collectionsMap' <-
    (match JsMap.get (collectionName item) collectionsMap with
     | Some _ => ret collectionsMap
     | None =>
         id <- stamped "coll-" ;;
         ret (JsMap.set (collectionName item)
                (mkCollection id (collectionName item) []) collectionsMap)
     end) ;;
  match JsMap.get (collectionName item) collectionsMap' with
  | Some collection =>
      id <- stamped "api-" ;;
      ret (JsMap.set (collectionName item)
             (mkCollection (coll_id collection) (coll_name collection)
                (coll_apis collection ++ [mkItem id (apiData item) []]))
             collectionsMap')
  | None => ret collectionsMap'
  end.

(** [generateApis] from the parsed answer of the model ([None] when the
    answer could not be parsed). *)
Definition generateApis (rawApiData : option (list RawApi))
    : Clocked (option (list ApiCollection)) :=
  match rawApiData with
  | None => ret None
  | Some rawApiData =>
      collectionsMap <- forEachM rawBody rawApiData JsMap.empty ;;
      ret (Some (map snd collectionsMap))
  end.

Definition generateControllers (models : list Model) (apis : list Api)
    : Clocked (list Controller) :=
  if (List.length apis =? 0)%nat then ret []
  else
    let controllersMap :=
      fold_left (fun m api => groupBody models api m) apis JsMap.empty in
    mapM (fun entry : string * ControllerData =>
            id <- stamped "ctrl-" ;;
            ret (mkItem id (mkCodeFile (fst entry) (controllerCode (snd entry))) []))
         controllersMap.

(** [new RegExp(source)]: the test of the regular expression, or [None]
    when the source is not a regular expression and the constructor
    throws. *)
Variable RegExp : string -> option (string -> bool).

(** The loop over the controllers for one endpoint, left at the first
    controller whose code exports the handler; [None] when the constructor
    of the regular expression throws. *)
Fixpoint assignRoute (api : Api) (handlerName : string)
    (controllers : list Controller) (routesDataByController : JsMap.t RouteData)
    : option (JsMap.t RouteData) :=
  match controllers with
  | [] => Some routesDataByController
  | c :: rest =>
      match RegExp (exportSource handlerName) with
      | None => None
      | Some exportRegex =>
          if exportRegex (file_code (item_rest c)) then
            match JsMap.get (file_name (item_rest c)) routesDataByController with
            | Some routeData =>
                Some (JsMap.set (file_name (item_rest c))
                        (mkRouteData (routeFileName routeData)
                           (controllerVarName routeData)
                           (controllerImportPath routeData)
                           (routeEntries routeData
                            ++ [mkRouteEntry
                                  (lower_ascii (Method_text (api_method (item_rest api))))
                                  (api_endpoint (item_rest api))
                                  handlerName]))
                        routesDataByController)
            | None => Some routesDataByController
            end
          else assignRoute api handlerName rest routesDataByController
      end
  end.

Fixpoint assignRoutes (apis : list Api) (controllers : list Controller)
    (routesDataByController : JsMap.t RouteData) : option (JsMap.t RouteData) :=
  match apis with
  | [] => Some routesDataByController
  | a :: rest =>
      let handlerName := Grouping.lowerFirst toLowerCase (api_name (item_rest a)) in
      match assignRoute a handlerName controllers routesDataByController with
      | Some routesDataByController' =>
          assignRoutes rest controllers routesDataByController'
      | None => None
      end
  end.

(** [generateRoutes]: the route files, or [None] when the promise is
    rejected. *)
Definition generateRoutes (controllers : list Controller) (apis : list Api)
    : Clocked (option (list Route)) :=
  if (List.length controllers =? 0)%nat || (List.length apis =? 0)%nat then ret (Some [])
  else
    let routesDataByController :=
      fold_left (fun m c => JsMap.set (file_name (item_rest c)) (routeData_of c) m)
                controllers JsMap.empty in
    match assignRoutes apis controllers routesDataByController with
    | None => ret None
    | Some routesDataByController' =>
        result <-
          mapM (fun data =>
                  id <- stamped "route-" ;;
                  ret (mkItem id (mkCodeFile (routeFileName data) (routeCode data)) []))
               (filter (fun data => negb (List.length (routeEntries data) =? 0)%nat)
                       (map snd routesDataByController')) ;;
        ret (Some result)
    end.

End Oracles.

(** *** Vocabulary of the statements about the generated files *)

(** The endpoints filed under a controller name. *)
Definition group_of (models : list Model) (apis : list Api) (k : string) : list Api :=
  filter (fun a => String.eqb (Grouping.controllerName toLowerCase models a) k) apis.

(** The handler of an endpoint: its name and its code. *)
Definition handler_of (a : Api) : string * string :=
  (Grouping.lowerFirst toLowerCase (api_name (item_rest a)), api_code (item_rest a)).

(** The schemas imported by the handlers of a group, each once, in the
    order of their first import. *)
Definition imports_of (group : list Api) : list string :=
  fold_left (fun s m => Set_add m s)
            (flat_map (fun a => modelRequires (api_code (item_rest a))) group) [].

Definition controllerData_of (models : list Model) (apis : list Api) (k : string)
    : ControllerData :=
  mkControllerData (imports_of (group_of models apis k))
                   (map handler_of (group_of models apis k)).

(** The route of an endpoint. *)
Definition entry_of (a : Api) : RouteEntry :=
  mkRouteEntry (lower_ascii (Method_text (api_method (item_rest a))))
               (api_endpoint (item_rest a))
               (Grouping.lowerFirst toLowerCase (api_name (item_rest a))).

(** A value of [routesDataByController] made for a controller of
    [controllers], whose routes are routes of endpoints of [apis]. *)
Definition routeData_from (controllers : list Controller) (apis : list Api)
    (d : RouteData) : Prop :=
  exists c, In c controllers
            /\ routeFileName d = routeFileName (routeData_of c)
            /\ controllerVarName d = controllerVarName (routeData_of c)
            /\ controllerImportPath d = controllerImportPath (routeData_of c)
            /\ Forall (fun e => exists a, In a apis /\ e = entry_of a) (routeEntries d).

(** The handler of the endpoint is exported by the code of the
    controller, as the regular expression of [generateRoutes] tests it. *)
Definition exportedBy (RegExp : string -> option (string -> bool)) (a : Api)
    (c : Controller) : bool :=
  match RegExp (exportSource (Grouping.lowerFirst toLowerCase (api_name (item_rest a)))) with
  | Some exportRegex => exportRegex (file_code (item_rest c))
  | None => false
  end.

(** The endpoints whose handler the controller of the name of [c] is
    the first to export. *)
Definition routedTo (RegExp : string -> option (string -> bool))
    (controllers : list Controller) (apis : list Api) (c : Controller) : list Api :=
  filter (fun a =>
            match find (exportedBy RegExp a) controllers with
            | Some owner =>
                String.eqb (file_name (item_rest owner)) (file_name (item_rest c))
            | None => false
            end)
         apis.

(** The value of [routesDataByController] for a controller, with the
    routes of the given endpoints. *)
Definition routeData_with (c : Controller) (routed : list Api) : RouteData :=
  mkRouteData (routeFileName (routeData_of c)) (controllerVarName (routeData_of c))
              (controllerImportPath (routeData_of c)) (map entry_of routed).

End Names.

(** A route that the scan of a route file reads back. *)
Definition readable (var : string) (e : RouteEntry) : Prop :=
  In (route_method e) Visualizer.verbs
  /\ Visualizer.plain (route_endpoint e) = true
  /\ no_char "("%char var = true
  /\ no_char "("%char (route_handler e) = true.

End Generation.

(** ** Dependency graph: nodes, imports and layout ([Visualizer.tsx]) *)

Module Graph.
Import JsString Patterns.

Definition NODE_WIDTH : Z := 180.
Definition NODE_HEIGHT : Z := 50.
Definition COL_GAP : Z := 250.
Definition ROW_GAP : Z := 120.

(** Step 1: the nodes of the schemas, of the controllers and of the
    middleware files. *)
Definition modelNodes (models : list Model) : list Visualizer.GraphNode :=
  map (fun m => Visualizer.mkNode (item_id m) Visualizer.model
                  (model_name (item_rest m) ++ ".js")%string 0 0) models.

Definition controllerNodes (controllers : list Controller)
    : list Visualizer.GraphNode :=
  map (fun c => Visualizer.mkNode (item_id c) Visualizer.controller
                  (file_name (item_rest c)) 0 0) controllers.

Definition middlewareNodes (middlewares : list Middleware)
    : list Visualizer.GraphNode :=
  map (fun m => Visualizer.mkNode (item_id m) Visualizer.middleware
                  (file_name (item_rest m)) 0 0) middlewares.

Definition allNodes (models : list Model) (apiCollections : list ApiCollection)
    (controllers : list Controller) (routes : list Route)
    (middlewares : list Middleware) : list Visualizer.GraphNode :=
  modelNodes models ++ controllerNodes controllers ++ Visualizer.routeNodes routes
  ++ Visualizer.apiNodes (Visualizer.allApis apiCollections)
  ++ middlewareNodes middlewares.

(** The edges pushed by the loop "Models -> Controllers". *)
Definition modelControllerEdges (models : list Model) (controllers : list Controller)
    : list Visualizer.GraphEdge :=
  let modelNodeMapByName :=
    JsMap.of_entries
      (map (fun n => (Visualizer.node_label n, n)) (modelNodes models)) in
  let controllerNodeMapByName :=
    JsMap.of_entries
      (map (fun n => (Visualizer.node_label n, n)) (controllerNodes controllers)) in
  flat_map
    (fun c =>
       match JsMap.get (file_name (item_rest c)) controllerNodeMapByName with
       | None => []
       | Some targetNode =>
           flat_map
             (fun group1 =>
                let modelName := (group1 ++ ".js")%string in
                match JsMap.get modelName modelNodeMapByName with
                | Some sourceNode =>
                    [Visualizer.mkEdge
                       (Visualizer.node_id sourceNode ++ "-"
                        ++ Visualizer.node_id targetNode)%string
                       (Visualizer.node_id sourceNode) (Visualizer.node_id targetNode)]
                | None => []
                end)
             (modelRequires (file_code (item_rest c)))
       end)
    controllers.

(** The edges pushed by the loop "Controllers -> Routes". *)
Definition controllerRouteEdges (controllers : list Controller) (routes : list Route)
    : list Visualizer.GraphEdge :=
  let controllerNodeMapByName :=
    JsMap.of_entries
      (map (fun n => (Visualizer.node_label n, n)) (controllerNodes controllers)) in
  let routeNodeMapByName :=
    JsMap.of_entries
      (map (fun n => (Visualizer.node_label n, n)) (Visualizer.routeNodes routes)) in
  flat_map
    (fun r =>
       match JsMap.get (file_name (item_rest r)) routeNodeMapByName with
       | None => []
       | Some targetNode =>
           match controllerRequire (file_code (item_rest r)) with
           | Some controllerName =>
               match JsMap.get controllerName controllerNodeMapByName with
               | Some sourceNode =>
                   [Visualizer.mkEdge
                      (Visualizer.node_id sourceNode ++ "-"
                       ++ Visualizer.node_id targetNode)%string
                      (Visualizer.node_id sourceNode) (Visualizer.node_id targetNode)]
               | None => []
               end
           | None => []
           end
       end)
    routes.

Definition allEdges (models : list Model) (apiCollections : list ApiCollection)
    (controllers : list Controller) (routes : list Route)
    : list Visualizer.GraphEdge :=
  modelControllerEdges models controllers
  ++ controllerRouteEdges controllers routes
  ++ Visualizer.routeApiEdges routes apiCollections.

(** Step 3: the columns and the positions. *)
Definition same_type (a b : Visualizer.NodeType) : bool :=
  match a, b with
  | Visualizer.model, Visualizer.model
  | Visualizer.controller, Visualizer.controller
  | Visualizer.route, Visualizer.route
  | Visualizer.middleware, Visualizer.middleware
  | Visualizer.api, Visualizer.api => true
  | _, _ => false
  end.

(** [columns[type]]: the nodes of the type, in the order of the nodes. *)
Definition column (type : Visualizer.NodeType) (nodes : list Visualizer.GraphNode)
    : list Visualizer.GraphNode :=
  filter (fun nd => same_type (Visualizer.node_type nd) type) nodes.

Definition colX (type : Visualizer.NodeType) : Z :=
  match type with
  | Visualizer.model => 0
  | Visualizer.controller => COL_GAP
  | Visualizer.route => COL_GAP * 2
  | Visualizer.api => COL_GAP * 3
  | Visualizer.middleware => - COL_GAP
  end.

(** The nodes that follow [before], each with the position that its
    place in its column gives it. *)
Fixpoint position (nodes before rest : list Visualizer.GraphNode)
    : list Visualizer.GraphNode :=
  match rest with
  | [] => []
  | nd :: rest' =>
      let type := Visualizer.node_type nd in
      let colNodes := column type nodes in
      let colHeight := (Z.of_nat (List.length colNodes) * ROW_GAP)%Z in
      let i := List.length (column type before) in
      Visualizer.mkNode (Visualizer.node_id nd) type (Visualizer.node_label nd)
        (colX type) (Z.of_nat i * ROW_GAP - colHeight / 2)%Z
      :: position nodes (before ++ [nd]) rest'
  end.

(** The nodes returned by the computation of the graph. *)
Definition layout (nodes : list Visualizer.GraphNode) : list Visualizer.GraphNode :=
  position nodes [] nodes.

(** *** Vocabulary of the statements about the layout *)

(** The boxes of two nodes do not meet. *)
Definition apart (a b : Visualizer.GraphNode) : Prop :=
  (NODE_WIDTH <= Z.abs (Visualizer.node_x a - Visualizer.node_x b))%Z
  \/ (NODE_HEIGHT <= Z.abs (Visualizer.node_y a - Visualizer.node_y b))%Z.

End Graph.

(** ** The store of the projects ([services/projectService.ts]) *)

Module ProjectService.

Record ProjectState : Type := mkProjectState {
  models : list Model;
  apiCollections : list ApiCollection;
  controllers : list Controller;
  routes : list Route;
  middlewares : list Middleware;
  visibleWindows : list WindowBar.WindowType;
  activeFramework : string
}.

Record Project : Type := mkProject {
  project_id : string;
  project_name : string;
  lastModified : Z;
  state : ProjectState
}.

(** The item of [localStorage] under [PROJECTS_STORAGE_KEY]: no item, a
    text that cannot be read as an object of projects ([JSON.parse] or
    [Object.entries] throws, or [getItem] does), or the entries of the
    object that the text denotes.  [JSON.parse] gives back what
    [JSON.stringify] was given; the keys are ids of projects, none of them
    the text of an array index, so that the object keeps them in the order
    of insertion. *)
Inductive Storage : Type :=
| NoItem
| Unreadable
| Stored (projectsObject : JsMap.t Project).

Definition getAllProjectsMap (storage : Storage) : JsMap.t Project :=
  match storage with
  | Stored projectsObject => projectsObject
  | NoItem => JsMap.empty
  | Unreadable => JsMap.empty
  end.

Definition getProjects (storage : Storage) : list Project :=
  let projectsMap := getAllProjectsMap storage in
  JsArray.sort (fun a b => (lastModified b - lastModified a)%Z) (map snd projectsMap).

Definition getProject (id : string) (storage : Storage) : option Project :=
  let projectsMap := getAllProjectsMap storage in
  JsMap.get id projectsMap.

Section Writes.

(** [localStorage.setItem] throws when the text does not fit in what is
    left of the quota, or when the storage refuses writes:
    [setItem_succeeds storage projectsObject] tells whether the write of
    the text of the object succeeds. *)
Variable setItem_succeeds : Storage -> JsMap.t Project -> bool.

(** [saveAllProjectsMap]: the exception of a write that fails is caught
    and logged, and the item is as it was. *)
Definition saveAllProjectsMap (projectsMap : JsMap.t Project) (storage : Storage)
    : Storage :=
  if setItem_succeeds storage projectsMap then Stored projectsMap else storage.

Definition deleteProject (id : string) (storage : Storage) : Storage :=
  let projectsMap := getAllProjectsMap storage in
  saveAllProjectsMap (JsMap.delete id projectsMap) storage.

Section Clock.
Variable clock : nat -> Z.
Variable random : nat -> string.

Definition getInitialProjectState : Clocked ProjectState :=
  now <- Date_now clock ;;
  ret (mkProjectState []
         [mkCollection ("coll-uncategorized-" ++ JsString.of_Z now)%string
                       "Uncategorized" []]
         [] [] [] [WindowBar.Models] "Node.js").

Definition saveProject (project : Project) (storage : Storage) : Clocked Storage :=
  let projectsMap := getAllProjectsMap storage in
  now <- Date_now clock ;;
  ret (saveAllProjectsMap
         (JsMap.set (project_id project)
            (mkProject (project_id project) (project_name project) now (state project))
            projectsMap)
         storage).

(** [createProject]: the project returned and the next store; [given]
    is the optional argument [state]. *)
Definition createProject (name : string) (given : option ProjectState)
    (storage : Storage) : Clocked (Project * Storage) :=
  id <- Generation.stamped clock random "proj-" ;;
  now <- Date_now clock ;;
  st <- (match given with
         | Some s => ret s
         | None => getInitialProjectState
         end) ;;
  let newProject := mkProject id name now st in
  storage' <- saveProject newProject storage ;;
  ret (newProject, storage').

End Clock.
End Writes.

(** *** Vocabulary of the statements about the store *)

(** The project as the store holds it after it is saved at [now]. *)
Definition saved_at (now : Z) (p : Project) : Project :=
  mkProject (project_id p) (project_name p) now (state p).

(** The object that [saveProject] writes for [p] at [now]. *)
Definition with_saved (now : Z) (p : Project) (storage : Storage) : JsMap.t Project :=
  JsMap.set (project_id p) (saved_at now p) (getAllProjectsMap storage).

End ProjectService.

(** ** Specification vocabulary *)

Section Specification.
Variable clock : nat -> Z.
Context {D : Type} `{Content D}.

Definition item_name (e : Item D) : string := name (item_rest e).
Definition item_code (e : Item D) : string := code (item_rest e).

(** The entry that records the content of [e] before an update at [now]. *)
Definition autosave (now : Z) (e : Item D) : HistoryEntry D :=
  mkEntry now (item_rest e) (Some "Auto-saved on generation").

Definition batch_name (b : NewItem D) : string := name (new_data b).
Definition batch_code (b : NewItem D) : string := code (new_data b).

(** The id of an artifact that is updated to the item [b] of the batch:
    the id that the item carries, when it carries one. *)
Definition updated_id (e : Item D) (b : NewItem D) : string :=
  match new_id b with
  | Some id => id
  | None => item_id e
  end.

(** A matched artifact: kept as it is when the batch code equals its
    code, otherwise updated to the batch content, the content before the
    update being recorded on top of its history. *)
Definition reconcileOne (eb : Item D * NewItem D) : Clocked (Item D) :=
  let (e, b) := eb in
  if String.eqb (item_code e) (batch_code b) then ret e
  else now <- Date_now clock ;;
       ret (mkItem (updated_id e b) (new_data b) (autosave now e :: item_history e)).

(** A brand-new artifact: an id made of the name and the clock reading,
    and an empty history. *)
Definition createOne (b : NewItem D) : Clocked (Item D) :=
  now <- Date_now clock ;;
  ret (mkItem (batch_name b ++ "-" ++ JsString.of_Z now)%string (new_data b) []).

(** The keys of a batch in batch order, each at its first occurrence. *)
Fixpoint first_occurrences (ks : list string) : list string :=
  match ks with
  | [] => []
  | k :: ks' => k :: filter (fun x => negb (String.eqb x k)) (first_occurrences ks')
  end.

Definition has_name (k : string) (e : Item D) : bool :=
  String.eqb (item_name e) k.

(** What the batch gives for a key: the last of its items of that key. *)
Definition given (newItems : list (NewItem D)) (k : string) : option (NewItem D) :=
  find (fun b => String.eqb (batch_name b) k) (rev newItems).

(** The existing artifacts whose key is in the batch, each with what the
    batch gives for its key, in the order of the collection. *)
Definition matched (existing : list (Item D)) (newItems : list (NewItem D))
    : list (Item D * NewItem D) :=
  flat_map (fun e => match given newItems (item_name e) with
                     | Some b => [(e, b)]
                     | None => []
                     end) existing.

(** What the batch gives for the keys that no existing artifact has, in
    batch order. *)
Definition unmatched (existing : list (Item D)) (newItems : list (NewItem D))
    : list (NewItem D) :=
  flat_map (fun k => if existsb (has_name k) existing then []
                     else match given newItems k with
                          | Some b => [b]
                          | None => []
                          end)
           (first_occurrences (map batch_name newItems)).

(** Reconciliation as a result, not as the program computes it: the
    existing artifacts whose key is in the batch, reconciled in their
    prior order, then one new artifact for each key of the batch that no
    existing artifact has, in batch order; no table is built and no key is
    marked as consumed. *)
Definition reconcile (existing : list (Item D)) (newItems : list (NewItem D))
    : Clocked (list (Item D)) :=
  updated <- mapM reconcileOne (matched existing newItems) ;;
  created <- mapM createOne (unmatched existing newItems) ;;
  ret (updated ++ created).


(** The table of the program, [newItemsMap], and the two lists above as
    they are read off the table. *)
Definition lookup_table (newItems : list (NewItem D)) : JsMap.t (NewItem D) :=
  JsMap.of_entries (map (fun item => (batch_name item, item)) newItems).

Definition matches (existing : list (Item D)) (table : JsMap.t (NewItem D))
    : list (Item D * NewItem D) :=
  flat_map (fun e => match JsMap.get (item_name e) table with
                     | Some b => [(e, b)]
                     | None => []
                     end) existing.

Definition unconsumed (existing : list (Item D)) (table : JsMap.t (NewItem D))
    : JsMap.t (NewItem D) :=
  filter (fun kv => negb (existsb (has_name (fst kv)) existing)) table.

Definition reconcile_table (existing : list (Item D)) (newItems : list (NewItem D))
    : Clocked (list (Item D)) :=
  let table := lookup_table newItems in
  matched <- mapM reconcileOne (matches existing table) ;;
  created <- mapM createOne (map snd (unconsumed existing table)) ;;
  ret (matched ++ created).


(** The first artifact of each name. *)
Fixpoint first_by_name (l : list (Item D)) : list (Item D) :=
  match l with
  | [] => []
  | e :: l' => e :: filter (fun x => negb (has_name (item_name e) x)) (first_by_name l')
  end.

(** The operations of the versioning interface and their runs. *)
Inductive Op : Type :=
| Commit (message : string)
| Reconcile (newItems : list (NewItem D))
| Revert (id : string) (target : Z).

Definition run_op (op : Op) (items : list (Item D)) : Clocked (list (Item D)) :=
  match op with
  | Commit message => r <- handleCommit clock message items ;; ret (fst r)
  | Reconcile newItems => smartUpdate clock items newItems
  | Revert id target => r <- revertItem clock id target items ;; ret (fst r)
  end.

Fixpoint run_ops (ops : list Op) (items : list (Item D)) : Clocked (list (Item D)) :=
  match ops with
  | [] => ret items
  | op :: ops' => items' <- run_op op items ;; run_ops ops' items'
  end.




(** What a commit at [now] makes of one artifact. *)
Definition commit_item (now : Z) (message : string) (it : Item D) : Item D :=
  let entry :=
    mkEntry now (item_rest it)
            (if String.eqb message EmptyString then None else Some message) in
  match item_history it with
  | h0 :: _ =>
      if same_json (data h0) (item_rest it) then it
      else mkItem (item_id it) (item_rest it) (entry :: item_history it)
  | [] => mkItem (item_id it) (item_rest it) (entry :: item_history it)
  end.


(** The top snapshot of the history equals the current content. *)
Definition committed (it : Item D) : Prop :=
  match item_history it with
  | h0 :: _ => data h0 = item_rest it
  | [] => False
  end.

End Specification.

(** ** Examples

    The clock of the examples: the reading of call [n] is [n]. *)
Definition tick (n : nat) : Z := Z.of_nat n.

(** A clock read several times within one millisecond. *)
Definition same_millisecond (n : nat) : Z := 1700000000000%Z.

(** Examples of collections and batches. *)
Definition file (id name code : string) (h : list (HistoryEntry CodeFile)) : Item CodeFile :=
  mkItem id (mkCodeFile name code) h.

Definition abc : list (Item CodeFile) :=
  [file "1" "A" "a" []; file "2" "B" "b" []; file "3" "C" "c" []].

(** An item of a batch that carries an id, as the generated artifacts
    do. *)
Definition generated (id name code : string) : NewItem CodeFile :=
  mkNewItem (Some id) (mkCodeFile name code).

Definition acd : list (NewItem CodeFile) :=
  [generated "g1" "A" "a"; generated "g2" "C" "c2"; generated "g3" "D" "d"].

Definition ab : list (Item CodeFile) :=
  [file "1" "A" "a" [mkEntry 5%Z (mkCodeFile "A" "a0") None]; file "2" "B" "b" []].

Definition ba : list (NewItem CodeFile) :=
  [generated "g4" "B" "b"; generated "g5" "A" "a"].

Definition aa : list (Item CodeFile) :=
  [file "1" "A" "a" []; file "2" "A" "a" []].

Definition committed_files : list (Item CodeFile) :=
  [file "1" "A" "a" [mkEntry 3%Z (mkCodeFile "A" "a") (Some "first")];
   file "2" "B" "b" [mkEntry 4%Z (mkCodeFile "B" "b") None;
                     mkEntry 3%Z (mkCodeFile "B" "b0") None]].

(** An artifact with content y whose history holds the content x that an
    update replaced. *)
Definition updated_file : Item CodeFile :=
  file "1" "A" "y"
    [mkEntry 7%Z (mkCodeFile "A" "x") (Some "Auto-saved on generation");
     mkEntry 2%Z (mkCodeFile "A" "w") None].


(** The run of the counterexample of the revert: an artifact is
    generated, generated again with another code, and committed. *)
Definition update_then_commit : list (@Op CodeFile) :=
  [Reconcile [generated "ctrl-0-0.5" "A" "x"];
   Reconcile [generated "ctrl-1-0.5" "A" "y"]; Commit "saved"].

(** Examples of schemas and endpoints. *)
Definition schema (id name : string) : Model := mkItem id (mkModelData name [] EmptyString) [].

Definition endpoint_of (id name path : string) (verb : Method) : Api :=
  mkItem id (mkApiData name path verb EmptyString "async (req, res) => {}" None None) [].




(** The window of the examples: two collections and the catch-all. *)
Definition three_collections : ApisWindow.State :=
  ApisWindow.mkState
    [mkCollection "c1" "Users" [endpoint_of "a1" "ListUsers" "/api/users" GET];
     mkCollection "c0" "Uncategorized" [endpoint_of "a0" "Ping" "/api/ping" GET];
     mkCollection "c2" "Orders" [endpoint_of "a2" "ListOrders" "/api/orders" GET]]
    (Some "c1") None (ApisWindow.mkConfirmation false None None) [].

(** An endpoint with content y whose history holds the content x that an
    update replaced. *)
Definition api_data (name path : string) (verb : Method) (code : string) : ApiData :=
  mkApiData name path verb EmptyString code None None.

Definition versioned_endpoint : Api :=
  mkItem "a1" (api_data "ListUsers" "/api/users" GET "y")
    [mkEntry 7%Z (api_data "ListUsers" "/api/users" GET "x")
             (Some "Auto-saved on generation");
     mkEntry 2%Z (api_data "ListUsers" "/api/users" GET "w") None].

(** The generation of the examples: [Math.random()] always gives the
    same text, and the test of an export looks for the text
    [exports.<handler>] in the code. *)
Definition dice (n : nat) : string := "0.5".

Definition finds_export (source : string) : option (string -> bool) :=
  match Visualizer.after "exports\." source with
  | Some rest =>
      Some (fun code =>
              JsString.includes code ("exports." ++ JsString.slice_to_minus rest 4))
  | None => None
  end.

(** An engine that refuses, as JavaScript does, a source with an opening
    parenthesis. *)
Definition refuses_open_group (source : string) : option (string -> bool) :=
  if JsString.includes source "(" then None else finds_export source.

Definition open_group_endpoint : Api :=
  mkItem "a2" (api_data "List(" "/api/users" GET "x") [].

Definition user_schema : Model := schema "m1" "User".

Definition list_users : Api :=
  mkItem "a1"
    (api_data "ListUsers" "/api/users" GET
       "async (req, res) => { const User = require('../models/User'); res.json(await User.find()); }")
    [].

Definition generated_controllers : list Controller :=
  fst (Generation.generateControllers JsString.lower_ascii tick dice [user_schema] [list_users] 0).

(** The endpoint of the examples after its code is edited. *)
Definition list_users_edited : Api :=
  mkItem "a1"
    (api_data "ListUsers" "/api/users" GET "async (req, res) => { res.json([]); }")
    [].

(** The controller files of the workspace after a first generation, and
    the batch of a second generation, made after the code of the endpoint
    was edited. *)
Definition first_controllers : list Controller :=
  fst (smartUpdate tick [] (generated_batch generated_controllers) 2).

Definition second_batch : list (NewItem CodeFile) :=
  generated_batch
    (fst (Generation.generateControllers JsString.lower_ascii tick dice [user_schema] [list_users_edited] 4)).

Definition generated_controller : Controller :=
  nth 0 generated_controllers (file EmptyString EmptyString EmptyString []).

Definition generated_routes : list Route :=
  match fst (Generation.generateRoutes JsString.lower_ascii tick dice finds_export generated_controllers
               [list_users] 2) with
  | Some routes => routes
  | None => []
  end.

Definition generated_route : Route :=
  nth 0 generated_routes (file EmptyString EmptyString EmptyString []).

(** The store of the examples: two projects. *)
Definition empty_state : ProjectService.ProjectState :=
  ProjectService.mkProjectState [] [] [] [] [] [WindowBar.Models] "Node.js".

Definition two_projects : ProjectService.Storage :=
  ProjectService.Stored
    [("p1", ProjectService.mkProject "p1" "Shop" 5 empty_state);
     ("p2", ProjectService.mkProject "p2" "Blog" 8 empty_state)].

(** A storage with room for two projects: a write of more fails. *)
Definition room_for_two (storage : ProjectService.Storage)
    (projectsObject : JsMap.t ProjectService.Project) : bool :=
  (List.length projectsObject <=? 2)%nat.

Ltac distinct_names :=
  repeat (constructor; [cbn; intuition discriminate|]); constructor.

(** * Proofs *)

#[export] Instance CodeFile_ContentLaws : ContentLaws CodeFile.
Proof.
  constructor. intros [n1 c1] [n2 c2]. cbn. unfold CodeFile_eqb. cbn.
  rewrite andb_true_iff, !String.eqb_eq.
  split; [intros [-> ->]; reflexivity | intros E; inversion E; auto].
Qed.

(** ** Facts about [Map] *)

Module JsMapFacts.
Section JsMapFacts.
Context {V : Type}.
Implicit Types (m : JsMap.t V) (k : string) (v : V).

Lemma get_None m k : JsMap.get k m = None <-> ~ In k (JsMap.keys m).
Proof.
  induction m as [|[k' v'] m IH]; simpl.
  - tauto.
  - destruct (String.eqb_spec k' k) as [->|Hne].
    + split; [discriminate | intros Hn; exfalso; apply Hn; auto].
    + rewrite IH. split; [intros Hn [E|Hi]; auto | intros Hn Hi; apply Hn; auto].
Qed.

Lemma get_In m k v : JsMap.get k m = Some v -> In (k, v) m.
Proof.
  induction m as [|[k' v'] m IH]; simpl; [discriminate|].
  destruct (String.eqb_spec k' k) as [->|Hne].
  - intros E; inversion E; auto.
  - auto.
Qed.

Lemma get_delete_ne m k k' : k <> k' -> JsMap.get k (JsMap.delete k' m) = JsMap.get k m.
Proof.
  intros Hne. induction m as [|[k0 v0] m IH]; simpl; auto.
  destruct (String.eqb_spec k0 k') as [->|Hne'].
  - destruct (String.eqb_spec k' k); congruence.
  - simpl. now rewrite IH.
Qed.

Lemma delete_filter m k :
NoDup (JsMap.keys m) ->
JsMap.delete k m = filter (fun kv => negb (String.eqb (fst kv) k)) m.
Proof.
  induction m as [|[k0 v0] m IH]; simpl; auto.
  intros Hnd. inversion Hnd; subst.
  destruct (String.eqb_spec k0 k) as [->|Hne]; simpl.
  - symmetry. apply forallb_filter_id. apply forallb_forall.
    intros [k1 v1] Hi. simpl.
    destruct (String.eqb_spec k1 k) as [->|]; auto.
    exfalso. apply H1. change k with (fst (k, v1)). now apply in_map.
  - now rewrite IH.
Qed.

Lemma NoDup_keys_filter m (f : string * V -> bool) :
NoDup (JsMap.keys m) -> NoDup (JsMap.keys (filter f m)).
Proof.
  induction m as [|kv m IH]; simpl; auto.
  intros Hnd. inversion Hnd; subst.
  destruct (f kv); simpl; auto.
  constructor; auto.
  intros Hi. apply H1. unfold JsMap.keys in *.
  apply in_map_iff in Hi as [x [E Hx]]. apply filter_In in Hx as [Hx _].
  rewrite <- E. now apply in_map.
Qed.

Lemma keys_set m k v :
JsMap.keys (JsMap.set k v m) =
if existsb (String.eqb k) (JsMap.keys m) then JsMap.keys m
else JsMap.keys m ++ [k].
Proof.
  induction m as [|[k0 v0] m IH]; simpl; auto.
  rewrite (String.eqb_sym k k0).
  destruct (String.eqb_spec k0 k) as [->|Hne]; simpl; auto.
  rewrite IH. now destruct (existsb _ _).
Qed.

Lemma NoDup_keys_set m k v :
NoDup (JsMap.keys m) -> NoDup (JsMap.keys (JsMap.set k v m)).
Proof.
  intros Hnd. rewrite keys_set.
  destruct (existsb (String.eqb k) (JsMap.keys m)) eqn:E; auto.
  apply NoDup_app; [assumption | repeat constructor; simpl; tauto |].
  intros x Hx [<-|[]].
  assert (existsb (String.eqb k) (JsMap.keys m) = true); [|congruence].
  apply existsb_exists. exists k. split; auto. apply String.eqb_refl.
Qed.

Lemma of_entries_snoc (l : list (string * V)) k v :
JsMap.of_entries (l ++ [(k, v)]) = JsMap.set k v (JsMap.of_entries l).
Proof. unfold JsMap.of_entries. now rewrite fold_left_app. Qed.

Lemma NoDup_keys_of_entries (l : list (string * V)) :
NoDup (JsMap.keys (JsMap.of_entries l)).
Proof.
  induction l as [|[k v] l IH] using rev_ind.
  - constructor.
  - rewrite of_entries_snoc. now apply NoDup_keys_set.
Qed.

Lemma set_fresh m k v :
~ In k (JsMap.keys m) -> JsMap.set k v m = m ++ [(k, v)].
Proof.
  induction m as [|[k0 v0] m IH]; simpl; auto.
  intros Hn. destruct (String.eqb_spec k0 k) as [->|Hne].
  - exfalso; auto.
  - rewrite IH; auto.
Qed.

(** With distinct keys the table lists the entries as they come. *)
Lemma of_entries_NoDup (l : list (string * V)) :
NoDup (map fst l) -> JsMap.of_entries l = l.
Proof.
  induction l as [|[k v] l IH] using rev_ind; auto.
  rewrite map_app. simpl. intros Hnd.
  rewrite of_entries_snoc.
  apply NoDup_remove in Hnd. rewrite app_nil_r in Hnd. destruct Hnd as [Hnd Hn].
  rewrite IH by auto. now apply set_fresh.
Qed.

Lemma In_set m k v k1 v1 :
In (k1, v1) (JsMap.set k v m) -> (k1, v1) = (k, v) \/ In (k1, v1) m.
Proof.
  induction m as [|[k0 v0] m IH]; simpl.
  - intros [E|[]]; auto.
  - destruct (String.eqb_spec k0 k) as [->|Hne]; simpl.
    + intros [E|Hi]; auto.
    + intros [E|Hi]; auto. destruct (IH Hi); auto.
Qed.

Lemma In_of_entries (l : list (string * V)) k v :
In (k, v) (JsMap.of_entries l) -> In (k, v) l.
Proof.
  induction l as [|[k0 v0] l IH] using rev_ind; simpl; auto.
  rewrite of_entries_snoc. intros Hi. apply in_or_app.
  destruct (In_set _ _ _ _ _ Hi) as [E|Hi']; [right; left; now symmetry | left; auto].
Qed.

Lemma keys_of_entries (l : list (string * V)) k :
In k (map fst l) -> In k (JsMap.keys (JsMap.of_entries l)).
Proof.
  induction l as [|[k0 v0] l IH] using rev_ind; simpl; auto.
  rewrite map_app, of_entries_snoc, keys_set. simpl. intros Hi.
  apply in_app_or in Hi.
  destruct (existsb (String.eqb k0) (JsMap.keys (JsMap.of_entries l))) eqn:E.
  - destruct Hi as [Hi|[<-|[]]]; auto.
    apply existsb_exists in E as [x [Hx E]]. apply String.eqb_eq in E. now subst.
  - apply in_or_app. destruct Hi as [Hi|[<-|[]]]; [left; auto | right; now left].
Qed.

End JsMapFacts.
End JsMapFacts.

(** ** Facts about clocked computations *)

Lemma bind_run {A B} (c : Clocked A) (k : A -> Clocked B) n :
  bind c k n = k (fst (c n)) (snd (c n)).
Proof. unfold bind. now destruct (c n). Qed.

Lemma mapM_cons {A B} (f : A -> Clocked B) (a : A) (l : list A) n :
  mapM f (a :: l) n =
  (fst (f a n) :: fst (mapM f l (snd (f a n))), snd (mapM f l (snd (f a n)))).
Proof. cbn [mapM]. now rewrite !bind_run. Qed.

Lemma mapM_app {A B} (f : A -> Clocked B) (l1 l2 : list A) n :
  mapM f (l1 ++ l2) n =
  (fst (mapM f l1 n) ++ fst (mapM f l2 (snd (mapM f l1 n))),
   snd (mapM f l2 (snd (mapM f l1 n)))).
Proof.
  revert n. induction l1 as [|a l1 IH]; intros n; cbn [mapM app].
  - unfold ret. cbn. now destruct (mapM f l2 n).
  - rewrite !bind_run, IH. reflexivity.
Qed.

Lemma mapM_fst_map {A B C} (f : A -> Clocked B) (g : B -> C) (h : A -> C)
    (l : list A) n :
  (forall a m, In a l -> g (fst (f a m)) = h a) ->
  map g (fst (mapM f l n)) = map h l.
Proof.
  revert n. induction l as [|a l IH]; intros n Hf; [reflexivity|].
  rewrite mapM_cons. cbn [fst map].
  rewrite Hf by (now left). rewrite IH; auto.
  intros; apply Hf; now right.
Qed.

(** A computation that never reads the clock. *)
Lemma mapM_pure {A B} (f : A -> Clocked B) (g : A -> B) (l : list A) n :
  (forall a m, In a l -> f a m = (g a, m)) -> mapM f l n = (map g l, n).
Proof.
  induction l as [|a l IH]; intros Hf; cbn [mapM map]; auto.
  rewrite bind_run, (Hf a n) by (now left). cbn [fst snd].
  rewrite bind_run, IH by (intros; apply Hf; now right). reflexivity.
Qed.

Lemma flat_map_ext_in {A B} (f g : A -> list B) (l : list A) :
  (forall a, In a l -> f a = g a) -> flat_map f l = flat_map g l.
Proof.
  induction l as [|a l IH]; intros Hfg; cbn [flat_map]; auto.
  rewrite (Hfg a) by (now left). rewrite IH; auto.
  intros; apply Hfg; now right.
Qed.

Lemma filter_twice {A} (f g : A -> bool) (l : list A) :
  filter f (filter g l) = filter (fun x => g x && f x) l.
Proof.
  induction l as [|a l IH]; cbn [filter]; auto.
  destruct (g a); cbn [filter andb]; rewrite IH; reflexivity.
Qed.

(** ** Reconciliation *)

Section Reconciliation.
Variable clock : nat -> Z.
Context {D : Type} `{Content D}.
Implicit Types (existing : list (Item D)) (m : JsMap.t (NewItem D)).

(** One turn of the loop over the existing artifacts. *)
Lemma forEach_existing_match e rest m fin n b :
  JsMap.get (item_name e) m = Some b ->
  forEach_existing clock (e :: rest) m fin n =
  forEach_existing clock rest (JsMap.delete (item_name e) m)
    (fin ++ [fst (reconcileOne clock (e, b) n)])
    (snd (reconcileOne clock (e, b) n)).
Proof.
  intros Hget. cbn [forEach_existing]. fold (item_name e). rewrite Hget.
  rewrite bind_run. unfold reconcileOne, item_code, batch_code.
  destruct (String.eqb (code (item_rest e)) (code (new_data b))); reflexivity.
Qed.

Lemma forEach_existing_skip e rest m fin n :
  JsMap.get (item_name e) m = None ->
  forEach_existing clock (e :: rest) m fin n =
  forEach_existing clock rest m fin n.
Proof.
  intros Hget. cbn [forEach_existing]. fold (item_name e). now rewrite Hget.
Qed.

Lemma NoDup_keys_delete {V} (t : JsMap.t V) k :
  NoDup (JsMap.keys t) -> NoDup (JsMap.keys (JsMap.delete k t)).
Proof.
  intros Hm. rewrite JsMapFacts.delete_filter by assumption.
  now apply JsMapFacts.NoDup_keys_filter.
Qed.

Lemma get_delete_same {V} (t : JsMap.t V) k :
  NoDup (JsMap.keys t) -> JsMap.get k (JsMap.delete k t) = None.
Proof.
  intros Hm. apply JsMapFacts.get_None.
  rewrite JsMapFacts.delete_filter by assumption.
  unfold JsMap.keys. intros Hi. apply in_map_iff in Hi as [[k' v] [E Hi]].
  apply filter_In in Hi as [_ Hk]. simpl in *. subst.
  now rewrite String.eqb_refl in Hk.
Qed.

(** The loop over the existing artifacts, when their names are distinct:
    the matched artifacts are appended in order, and what remains of the
    table are the entries that no existing artifact has. *)
Lemma forEach_existing_distinct existing : forall m fin n,
  NoDup (JsMap.keys m) ->
  NoDup (map item_name existing) ->
  forEach_existing clock existing m fin n =
  ((unconsumed existing m,
    fin ++ fst (mapM (reconcileOne clock) (matches existing m) n)),
   snd (mapM (reconcileOne clock) (matches existing m) n)).
Proof.
  induction existing as [|e rest IH]; intros m fin n Hm Hnd.
  - cbn. unfold ret. rewrite app_nil_r. f_equal. f_equal.
    symmetry. apply forallb_filter_id. apply forallb_forall. reflexivity.
  - inversion Hnd as [|? ? Hfresh Hnd']; subst.
    assert (Hrest : forall m', (forall k, k <> item_name e ->
               JsMap.get k m' = JsMap.get k m) ->
               matches rest m' = matches rest m).
    { intros m' Hget. unfold matches. apply flat_map_ext_in.
      intros x Hx. rewrite Hget; auto.
      intros E. apply Hfresh. rewrite <- E. now apply in_map. }
    unfold matches at 1 2. cbn [flat_map]. fold (matches rest m).
    destruct (JsMap.get (item_name e) m) as [b|] eqn:Hget.
    + assert (Hun : unconsumed rest (JsMap.delete (item_name e) m)
                    = unconsumed (e :: rest) m).
      { unfold unconsumed. rewrite JsMapFacts.delete_filter by assumption.
        rewrite filter_twice. apply filter_ext. intros [k v]. simpl.
        unfold has_name at 2. rewrite (String.eqb_sym (item_name e) k).
        now rewrite negb_orb. }
      rewrite (forEach_existing_match _ _ _ _ _ _ Hget).
      rewrite IH by auto using NoDup_keys_delete.
      rewrite Hrest by (intros; now apply JsMapFacts.get_delete_ne).
      rewrite Hun. cbn [app]. rewrite mapM_cons. cbn [fst snd].
      now rewrite <- app_assoc.
    + rewrite (forEach_existing_skip _ _ _ _ _ Hget).
      rewrite IH by auto. cbn [app]. f_equal. f_equal.
      unfold unconsumed. apply filter_ext_in. intros [k v] Hi. cbn [fst existsb].
      replace (has_name k e) with false; [reflexivity|].
      symmetry. apply not_true_is_false. intros E. apply String.eqb_eq in E.
      apply JsMapFacts.get_None in Hget. apply Hget.
      rewrite E. change k with (fst (k, v)). now apply in_map.
Qed.

Lemma forEach_new_spec (entries : list (string * NewItem D)) : forall fin n,
  forEach_new clock entries fin n =
  (fin ++ fst (mapM (createOne clock) (map snd entries) n),
   snd (mapM (createOne clock) (map snd entries) n)).
Proof.
  induction entries as [|[k b] rest IH]; intros fin n; cbn [forEach_new map].
  - cbn. unfold ret. now rewrite app_nil_r.
  - rewrite mapM_cons, bind_run. cbn [Date_now fst snd]. rewrite IH.
    now rewrite <- app_assoc.
Qed.

Lemma smartUpdate_distinct existing (newItems : list (NewItem D)) n :
  NoDup (map item_name existing) ->
  smartUpdate clock existing newItems n = reconcile_table clock existing newItems n.
Proof.
  intros Hnd. unfold smartUpdate, reconcile_table.
  rewrite !bind_run.
  rewrite forEach_existing_distinct; auto using JsMapFacts.NoDup_keys_of_entries.
  cbn [fst snd]. rewrite forEach_new_spec. reflexivity.
Qed.

(** The names of the result. *)
Lemma table_key_name (newItems : list (NewItem D)) k b :
  In (k, b) (lookup_table newItems) -> k = batch_name b.
Proof.
  intros Hi. apply JsMapFacts.In_of_entries in Hi.
  apply in_map_iff in Hi as [x [E _]]. now inversion E.
Qed.

Lemma matches_names existing m :
  map (fun eb => item_name (fst eb)) (matches existing m) =
  filter (fun k => existsb (String.eqb k) (JsMap.keys m)) (map item_name existing).
Proof.
  induction existing as [|e rest IH]; [reflexivity|].
  unfold matches. cbn [flat_map map filter]. fold (matches rest m).
  destruct (JsMap.get (item_name e) m) as [b|] eqn:Hget.
  - replace (existsb (String.eqb (item_name e)) (JsMap.keys m)) with true.
    + cbn. now rewrite IH.
    + symmetry. apply existsb_exists. exists (item_name e).
      split; [|apply String.eqb_refl].
      apply JsMapFacts.get_In in Hget. change (item_name e) with (fst (item_name e, b)).
      now apply in_map.
  - replace (existsb (String.eqb (item_name e)) (JsMap.keys m)) with false.
    + cbn. now rewrite IH.
    + symmetry. apply not_true_is_false. intros E.
      apply existsb_exists in E as [x [Hx E]]. apply String.eqb_eq in E. subst x.
      now apply JsMapFacts.get_None in Hget.
Qed.

Lemma matches_In existing m e b :
  In (e, b) (matches existing m) -> In e existing /\ JsMap.get (item_name e) m = Some b.
Proof.
  unfold matches. intros Hi. apply in_flat_map in Hi as [x [Hx Hi]].
  destruct (JsMap.get (item_name x) m) as [b'|] eqn:Hget; [|contradiction].
  destruct Hi as [E|[]]. inversion E; subst. auto.
Qed.

Lemma reconcileOne_name e b n :
  batch_name b = item_name e -> item_name (fst (reconcileOne clock (e, b) n)) = item_name e.
Proof.
  intros E. unfold reconcileOne.
  destruct (String.eqb (item_code e) (batch_code b)); [reflexivity|].
  rewrite bind_run. exact E.
Qed.

Lemma unconsumed_keys existing (newItems : list (NewItem D)) :
  map batch_name (map snd (unconsumed existing (lookup_table newItems))) =
  filter (fun k => negb (existsb (has_name k) existing))
         (JsMap.keys (lookup_table newItems)).
Proof.
  unfold unconsumed.
  assert (Hk : forall k b, In (k, b) (lookup_table newItems) -> k = batch_name b)
    by apply table_key_name.
  induction (lookup_table newItems) as [|[k b] m IH]; [reflexivity|].
  cbn [filter JsMap.keys map fst].
  destruct (negb (existsb (has_name k) existing)); cbn [map snd].
  - rewrite <- (Hk k b) by (now left). f_equal.
    apply IH. intros; apply Hk; now right.
  - apply IH. intros; apply Hk; now right.
Qed.

Lemma reconcile_table_names existing (newItems : list (NewItem D)) n :
  map item_name (fst (reconcile_table clock existing newItems n)) =
  filter (fun k => existsb (String.eqb k) (JsMap.keys (lookup_table newItems)))
         (map item_name existing)
  ++ filter (fun k => negb (existsb (has_name k) existing))
            (JsMap.keys (lookup_table newItems)).
Proof.
  unfold reconcile_table. rewrite !bind_run. unfold ret. cbn [fst].
  rewrite map_app. f_equal.
  - rewrite <- matches_names.
    apply mapM_fst_map. intros [e b] m Hi. cbn [fst].
    apply reconcileOne_name.
    apply matches_In in Hi as [_ Hget]. apply JsMapFacts.get_In in Hget.
    symmetry. now apply table_key_name in Hget.
  - rewrite <- unconsumed_keys.
    apply mapM_fst_map. intros b m _. reflexivity.
Qed.

(** *** Artifacts that share a name *)

Lemma keys_delete_incl m k k' :
  In k (JsMap.keys (JsMap.delete k' m)) -> In k (JsMap.keys m).
Proof.
  induction m as [|[k0 v0] m IH]; cbn; auto.
  destruct (String.eqb k0 k'); cbn; tauto.
Qed.

(** Artifacts whose name is not a key of the table are passed over. *)
Lemma forEach_existing_absent k existing : forall m fin n,
  ~ In k (JsMap.keys m) ->
  forEach_existing clock existing m fin n =
  forEach_existing clock (filter (fun x => negb (has_name k x)) existing) m fin n.
Proof.
  induction existing as [|e rest IH]; intros m fin n Hk; [reflexivity|].
  cbn [filter]. unfold has_name at 1.
  destruct (String.eqb_spec (item_name e) k) as [E|Hne]; cbn [negb].
  - rewrite forEach_existing_skip; auto.
    apply JsMapFacts.get_None. now rewrite E.
  - destruct (JsMap.get (item_name e) m) as [b|] eqn:Hget.
    + rewrite !(forEach_existing_match _ _ _ _ _ _ Hget).
      apply IH. intros Hi. apply Hk. eapply keys_delete_incl; eauto.
    + rewrite !(forEach_existing_skip _ _ _ _ _ Hget). now apply IH.
Qed.

(** Only the first artifact of each name takes part in the loop. *)
Lemma forEach_existing_first existing : forall m fin n,
  NoDup (JsMap.keys m) ->
  forEach_existing clock existing m fin n =
  forEach_existing clock (first_by_name existing) m fin n.
Proof.
  induction existing as [|e rest IH]; intros m fin n Hm; [reflexivity|].
  cbn [first_by_name].
  destruct (JsMap.get (item_name e) m) as [b|] eqn:Hget.
  - rewrite !(forEach_existing_match _ _ _ _ _ _ Hget).
    rewrite IH by now apply NoDup_keys_delete.
    apply forEach_existing_absent.
    apply JsMapFacts.get_None. now apply get_delete_same.
  - rewrite !(forEach_existing_skip _ _ _ _ _ Hget).
    rewrite IH by assumption.
    apply forEach_existing_absent. now apply JsMapFacts.get_None.
Qed.

Lemma smartUpdate_first existing (newItems : list (NewItem D)) n :
  smartUpdate clock existing newItems n =
  smartUpdate clock (first_by_name existing) newItems n.
Proof.
  unfold smartUpdate. rewrite !bind_run.
  now rewrite <- forEach_existing_first by apply JsMapFacts.NoDup_keys_of_entries.
Qed.

Lemma NoDup_map_filter {A B} (keep : A -> bool) (key : A -> B) (xs : list A)
  (Hkeys : NoDup (map key xs)) : NoDup (map key (filter keep xs)).
Proof.
  induction xs as [|a xs IH]; cbn [map filter] in *; auto.
  inversion Hkeys as [|? ? Hn Hnd']; subst.
  destruct (keep a); cbn [map]; auto.
  constructor; auto. intros Hi. apply Hn.
  apply in_map_iff in Hi as [x [E Hx]]. apply filter_In in Hx as [Hx _].
  rewrite <- E. now apply in_map.
Qed.

Lemma NoDup_first_by_name existing :
  NoDup (map item_name (first_by_name existing)).
Proof.
  induction existing as [|e rest IH]; cbn [first_by_name map]; constructor.
  - intros Hi. apply in_map_iff in Hi as [x [E Hx]].
    apply filter_In in Hx as [_ Hx]. unfold has_name in Hx.
    rewrite E, String.eqb_refl in Hx. discriminate.
  - now apply NoDup_map_filter.
Qed.

Lemma first_by_name_filter k existing :
  first_by_name (filter (fun x => negb (has_name k x)) existing) =
  filter (fun x => negb (has_name k x)) (first_by_name existing).
Proof.
  induction existing as [|e rest IH]; [reflexivity|].
  cbn [filter first_by_name].
  destruct (negb (has_name k e)) eqn:Hk; cbn [first_by_name].
  - rewrite IH, !filter_twice. f_equal. apply filter_ext. intros x. apply andb_comm.
  - rewrite IH, filter_twice. apply filter_ext. intros x.
    apply negb_false_iff in Hk. unfold has_name in *.
    apply String.eqb_eq in Hk. rewrite Hk.
    now destruct (String.eqb (item_name x) k).
Qed.

(** A later artifact of a name already met does not count. *)
Lemma first_by_name_later pre e post :
  In (item_name e) (map item_name pre) ->
  first_by_name (pre ++ e :: post) = first_by_name (pre ++ post).
Proof.
  induction pre as [|x pre IH]; cbn [map app first_by_name]; [intros []|].
  intros Hi. f_equal.
  destruct (String.eqb_spec (item_name e) (item_name x)) as [E|Hne].
  - rewrite <- !first_by_name_filter. f_equal.
    rewrite !filter_app. cbn [filter]. unfold has_name at 2.
    now rewrite E, String.eqb_refl.
  - rewrite IH; auto. destruct Hi as [E|Hi]; [congruence|assumption].
Qed.

(** *** A batch that repeats the collection *)

Lemma reconcileOne_same e b n :
  batch_code b = item_code e -> reconcileOne clock (e, b) n = (e, n).
Proof.
  intros E. unfold reconcileOne. now rewrite E, String.eqb_refl.
Qed.

Lemma mapM_matches_unchanged existing m n :
  (forall e, In e existing ->
     exists b, JsMap.get (item_name e) m = Some b /\ batch_code b = item_code e) ->
  mapM (reconcileOne clock) (matches existing m) n = (existing, n).
Proof.
  induction existing as [|e rest IH]; intros Hall; [reflexivity|].
  destruct (Hall e (or_introl eq_refl)) as [b [Hget Hcode]].
  unfold matches. cbn [flat_map]. rewrite Hget. fold (matches rest m).
  cbn [app]. rewrite mapM_cons, (reconcileOne_same _ _ _ Hcode). cbn [fst snd].
  rewrite IH by (intros; apply Hall; now right). reflexivity.
Qed.

Lemma filter_none {A} (p : A -> bool) (l : list A) :
  (forall x, In x l -> p x = false) -> filter p l = [].
Proof.
  induction l as [|a l IH]; intros Hp; cbn [filter]; auto.
  rewrite (Hp a) by (now left). apply IH. intros; apply Hp; now right.
Qed.

(** C4. Reconciling a collection whose names are distinct with a batch of
    the same names and the same code returns the collection itself, the
    same artifacts with the same ids, content and histories, and reads no
    clock: no history entry is made. *)
Theorem smartUpdate_idempotent existing (newItems : list (NewItem D)) n :
  NoDup (map item_name existing) ->
  Permutation (map batch_name newItems) (map item_name existing) ->
  (forall e b, In e existing -> In b newItems ->
               batch_name b = item_name e -> batch_code b = item_code e) ->
  smartUpdate clock existing newItems n = (existing, n).
Proof.
  intros Hnd Hperm Hcode.
  rewrite smartUpdate_distinct by assumption.
  unfold reconcile_table. fold (matches existing (lookup_table newItems)).
  fold (unconsumed existing (lookup_table newItems)).
  rewrite bind_run, mapM_matches_unchanged.
  - cbn [fst snd]. rewrite bind_run.
    replace (unconsumed existing (lookup_table newItems)) with (@nil (string * NewItem D)).
    + cbn. unfold ret. now rewrite app_nil_r.
    + symmetry. apply filter_none. intros [k b] Hi. cbn [fst].
      apply negb_false_iff. apply existsb_exists.
      pose proof (table_key_name _ _ _ Hi) as Hk.
      apply JsMapFacts.In_of_entries in Hi.
      assert (Hin : In k (map item_name existing)).
      { eapply Permutation_in; [exact Hperm|].
        rewrite Hk. apply in_map. apply in_map_iff in Hi as [x [E Hx]].
        inversion E; now subst. }
      apply in_map_iff in Hin as [e [E He]]. exists e. split; auto.
      unfold has_name. rewrite E. apply String.eqb_refl.
  - intros e He.
    assert (Hin : In (item_name e) (map batch_name newItems)).
    { eapply Permutation_in; [symmetry; exact Hperm|]. now apply in_map. }
    destruct (JsMap.get (item_name e) (lookup_table newItems)) as [b|] eqn:Hget.
    + exists b. split; auto.
      apply JsMapFacts.get_In in Hget.
      pose proof (table_key_name _ _ _ Hget) as Hk.
      apply JsMapFacts.In_of_entries in Hget.
      apply in_map_iff in Hget as [x [E Hx]]. inversion E; subst.
      apply Hcode; auto.
    + exfalso. apply JsMapFacts.get_None in Hget. apply Hget.
      apply JsMapFacts.keys_of_entries. now rewrite map_map.
Qed.

End Reconciliation.

(** ** The ids of new artifacts *)





Lemma mapM_Forall {A B} (f : A -> Clocked B) (P : B -> Prop) (l : list A) : forall n,
  (forall a m, In a l -> P (fst (f a m))) -> Forall P (fst (mapM f l n)).
Proof.
  induction l as [|a l IH]; intros n Hf; [constructor|].
  rewrite mapM_cons. cbn [fst]. constructor.
  - apply Hf. now left.
  - apply IH. intros; apply Hf; now right.
Qed.

Lemma mapM_In_inv {A B} (f : A -> Clocked B) (l : list A) (y : B) : forall n,
  In y (fst (mapM f l n)) -> exists a m, In a l /\ y = fst (f a m).
Proof.
  induction l as [|a l IH]; intros n Hy; [contradiction|].
  rewrite mapM_cons in Hy. cbn [fst] in Hy. destruct Hy as [<-|Hy].
  - exists a, n. split; [now left|reflexivity].
  - apply IH in Hy as [a' [m [Ha' ->]]]. exists a', m. split; [now right|reflexivity].
Qed.

Section Ids.
Variable clock : nat -> Z.
Hypothesis clock_nonnegative : forall m, (0 <= clock m)%Z.
Context {D : Type} `{Content D}.



End Ids.


Lemma NoDup_app_filters (ks table : list string) (inside : string -> bool)
    (outside : string -> bool) :
  NoDup ks -> NoDup table ->
  (forall k, In k ks -> outside k = false) ->
  NoDup (filter inside ks ++ filter outside table).
Proof.
  intros Hks Htable Hout. apply NoDup_app; auto using NoDup_filter.
  intros k Hk Hk'. apply filter_In in Hk as [Hk _]. apply filter_In in Hk' as [_ Hk'].
  rewrite (Hout k Hk) in Hk'. discriminate.
Qed.

(** The result of a reconciliation has distinct names, whatever the
    collection. *)
Lemma smartUpdate_names_distinct (clock : nat -> Z) {D : Type} `{Content D}
    (existing : list (Item D)) (newItems : list (NewItem D)) (n : nat) :
  NoDup (map item_name (fst (smartUpdate clock existing newItems n))).
Proof.
  rewrite smartUpdate_first.
  rewrite smartUpdate_distinct by apply NoDup_first_by_name.
  rewrite reconcile_table_names.
  apply NoDup_app_filters.
  - apply NoDup_first_by_name.
  - apply JsMapFacts.NoDup_keys_of_entries.
  - intros k Hk. apply negb_false_iff. apply existsb_exists.
    apply in_map_iff in Hk as [e [E He]]. exists e. split; auto.
    unfold has_name. rewrite E. apply String.eqb_refl.
Qed.

Lemma lookup_table_keys {D} `{Content D} (newItems : list (NewItem D)) k :
  In k (JsMap.keys (lookup_table newItems)) <-> In k (map batch_name newItems).
Proof.
  split.
  - intros Hi. unfold JsMap.keys in Hi. apply in_map_iff in Hi as [[k' b] [E Hi]].
    cbn in E. subst k'. pose proof (table_key_name _ _ _ Hi) as ->.
    apply JsMapFacts.In_of_entries in Hi.
    apply in_map_iff in Hi as [x [E Hx]]. inversion E; subst. now apply in_map.
  - intros Hi. apply JsMapFacts.keys_of_entries. now rewrite map_map.
Qed.

Lemma existsb_eqb_In (k : string) (l : list string) :
  existsb (String.eqb k) l = true <-> In k l.
Proof.
  rewrite existsb_exists. split.
  - intros [x [Hx E]]. apply String.eqb_eq in E. now subst.
  - intros Hi. exists k. split; auto. apply String.eqb_refl.
Qed.

Lemma get_set {V} (m : JsMap.t V) k k' (v : V) :
  JsMap.get k (JsMap.set k' v m) = if String.eqb k' k then Some v else JsMap.get k m.
Proof.
  induction m as [|[k0 v0] m IH]; cbn [JsMap.set JsMap.get].
  - reflexivity.
  - destruct (String.eqb_spec k0 k') as [->|Hne]; cbn [JsMap.get].
    + now destruct (String.eqb k' k).
    + rewrite IH. destruct (String.eqb_spec k0 k) as [->|]; auto.
      destruct (String.eqb_spec k' k); congruence.
Qed.

(** The table holds, for each name, the last item of the batch of that
    name. *)
Lemma lookup_table_get {D} `{Content D} (newItems : list (NewItem D)) k :
  JsMap.get k (lookup_table newItems) = given newItems k.
Proof.
  unfold given.
  induction newItems as [|b l IH] using rev_ind; [reflexivity|].
  unfold lookup_table in *. rewrite map_app. cbn [map].
  rewrite JsMapFacts.of_entries_snoc, get_set, rev_app_distr. cbn [rev app find].
  now rewrite IH.
Qed.

Lemma first_occurrences_snoc (ks : list string) k :
  first_occurrences (ks ++ [k])
    = if existsb (String.eqb k) ks then first_occurrences ks
      else first_occurrences ks ++ [k].
Proof.
  induction ks as [|a ks IH]; [reflexivity|].
  cbn [app first_occurrences existsb]. rewrite IH.
  destruct (String.eqb_spec k a) as [->|Hne]; cbn [orb].
  - destruct (existsb (String.eqb a) ks); auto.
    rewrite filter_app. cbn [filter]. rewrite String.eqb_refl. cbn [negb].
    now rewrite app_nil_r.
  - destruct (existsb (String.eqb k) ks); auto.
    rewrite filter_app. cbn [filter].
    destruct (String.eqb_spec k a); [contradiction|reflexivity].
Qed.

(** The table lists the names of the batch in batch order, each at its
    first occurrence. *)
Lemma lookup_table_order {D} `{Content D} (newItems : list (NewItem D)) :
  JsMap.keys (lookup_table newItems) = first_occurrences (map batch_name newItems).
Proof.
  induction newItems as [|b l IH] using rev_ind; [reflexivity|].
  rewrite map_app. cbn [map]. rewrite first_occurrences_snoc.
  unfold lookup_table in *. rewrite map_app. cbn [map].
  rewrite JsMapFacts.of_entries_snoc, JsMapFacts.keys_set, IH.
  replace (existsb (String.eqb (batch_name b)) (first_occurrences (map batch_name l)))
    with (existsb (String.eqb (batch_name b)) (map batch_name l)); [reflexivity|].
  apply eq_true_iff_eq. rewrite !existsb_eqb_In, <- IH.
  symmetry. apply lookup_table_keys.
Qed.

Lemma existsb_eqb_ext (k : string) (l1 l2 : list string) :
  (In k l1 <-> In k l2) -> existsb (String.eqb k) l1 = existsb (String.eqb k) l2.
Proof.
  intros Hiff. apply eq_true_iff_eq. now rewrite !existsb_eqb_In.
Qed.

Lemma get_keys {V} (m : JsMap.t V) k v :
  NoDup (JsMap.keys m) -> In (k, v) m -> JsMap.get k m = Some v.
Proof.
  induction m as [|[k0 v0] m IH]; [contradiction|].
  cbn [JsMap.keys map fst]. intros Hnd Hin. inversion Hnd as [|? ? Hk Hnd']; subst.
  cbn [JsMap.get]. destruct (String.eqb_spec k0 k) as [->|Hne].
  - destruct Hin as [E|Hin]; [now inversion E|].
    exfalso. apply Hk. unfold JsMap.keys. now apply (in_map fst _ (k, v)).
  - destruct Hin as [E|Hin]; [inversion E; congruence|]. now apply IH.
Qed.

(** The values of a table read off its keys. *)
Lemma values_by_key_in {V} (keep : string -> bool) (table m : JsMap.t V) :
  (forall k v, In (k, v) m -> JsMap.get k table = Some v) ->
  map snd (filter (fun kv => keep (fst kv)) m)
  = flat_map (fun k => if keep k
                       then match JsMap.get k table with
                            | Some v => [v]
                            | None => []
                            end
                       else [])
             (JsMap.keys m).
Proof.
  induction m as [|[k v] m IH]; intros Hget; [reflexivity|].
  cbn [filter JsMap.keys map flat_map fst].
  rewrite (Hget k v) by now left.
  fold (JsMap.keys m).
  destruct (keep k); cbn [map snd app]; rewrite IH; auto;
    intros; apply Hget; now right.
Qed.

Lemma values_by_key {V} (keep : string -> bool) (m : JsMap.t V) :
  NoDup (JsMap.keys m) ->
  map snd (filter (fun kv => keep (fst kv)) m)
  = flat_map (fun k => if keep k
                       then match JsMap.get k m with
                            | Some v => [v]
                            | None => []
                            end
                       else [])
             (JsMap.keys m).
Proof.
  intros Hnd. apply values_by_key_in. intros k v Hi. now apply get_keys.
Qed.

(** The two lists of the reconciliation, read off the table of the
    program. *)
Lemma matches_matched {D} `{Content D} (existing : list (Item D))
    (newItems : list (NewItem D)) :
  matches existing (lookup_table newItems) = matched existing newItems.
Proof.
  unfold matches, matched. apply flat_map_ext. intros e.
  now rewrite lookup_table_get.
Qed.

Lemma unconsumed_unmatched {D} `{Content D} (existing : list (Item D))
    (newItems : list (NewItem D)) :
  map snd (unconsumed existing (lookup_table newItems)) = unmatched existing newItems.
Proof.
  unfold unconsumed, unmatched.
  rewrite (values_by_key (fun k => negb (existsb (has_name k) existing)))
    by apply JsMapFacts.NoDup_keys_of_entries.
  rewrite lookup_table_order. apply flat_map_ext. intros k.
  rewrite lookup_table_get. now destruct (existsb (has_name k) existing).
Qed.

Lemma reconcile_table_reconcile (clock : nat -> Z) {D} `{Content D}
    (existing : list (Item D)) (newItems : list (NewItem D)) n :
  reconcile_table clock existing newItems n = reconcile clock existing newItems n.
Proof.
  unfold reconcile_table, reconcile.
  now rewrite matches_matched, unconsumed_unmatched.
Qed.

(** The reconciliation of a collection of distinct names. *)
Lemma smartUpdate_reconcile (clock : nat -> Z) {D} `{Content D}
    (existing : list (Item D)) (newItems : list (NewItem D)) n :
  NoDup (map item_name existing) ->
  smartUpdate clock existing newItems n = reconcile clock existing newItems n.
Proof.
  intros Hnd. rewrite smartUpdate_distinct by assumption.
  apply reconcile_table_reconcile.
Qed.


(** What the batch gives for a key has that key. *)
Lemma given_name {D} `{Content D} (newItems : list (NewItem D)) k b :
  given newItems k = Some b -> batch_name b = k /\ In b newItems.
Proof.
  unfold given. intros Hf. apply find_some in Hf as [Hi E].
  apply String.eqb_eq in E. split; [exact E|]. now apply in_rev.
Qed.

(** An artifact of the result either renews an existing artifact of its
    name or is made for a key of the batch. *)
Lemma reconcile_In (clock : nat -> Z) {D} `{Content D}
    (existing : list (Item D)) (newItems : list (NewItem D)) n x :
  In x (fst (reconcile clock existing newItems n)) ->
  (exists e b m, In e existing /\ given newItems (item_name e) = Some b
                 /\ x = fst (reconcileOne clock (e, b) m))
  \/ (exists b m, given newItems (batch_name b) = Some b
                  /\ existsb (has_name (batch_name b)) existing = false
                  /\ x = fst (createOne clock b m)).
Proof.
  unfold reconcile. rewrite !bind_run. cbn [ret fst]. intros Hx.
  apply in_app_or in Hx as [Hx|Hx].
  - left. apply mapM_In_inv in Hx as [[e b] [m [Hin ->]]].
    unfold matched in Hin. apply in_flat_map in Hin as [e' [He' Hin]].
    destruct (given newItems (item_name e')) as [b'|] eqn:Hg; [|contradiction].
    destruct Hin as [E|[]]. inversion E; subst. exists e, b, m. auto.
  - right. apply mapM_In_inv in Hx as [b [m [Hin ->]]].
    unfold unmatched in Hin. apply in_flat_map in Hin as [k [_ Hin]].
    destruct (existsb (has_name k) existing) eqn:Hk; [contradiction|].
    destruct (given newItems k) as [b'|] eqn:Hg; [|contradiction].
    destruct Hin as [<-|[]].
    destruct (given_name _ _ _ Hg) as [Hname _]. subst k.
    exists b', m. auto.
Qed.

Lemma reconcileOne_name_of (clock : nat -> Z) {D} `{Content D}
    (e : Item D) (b : NewItem D) m :
  batch_name b = item_name e ->
  item_name (fst (reconcileOne clock (e, b) m)) = item_name e.
Proof.
  intros E. unfold reconcileOne.
  destruct (String.eqb (item_code e) (batch_code b)); [reflexivity|].
  rewrite bind_run. exact E.
Qed.




(** The drop rule on existing names A, B, C and batch names A, C, D. *)
Example smartUpdate_abc_acd :
  fst (smartUpdate tick abc acd 0) =
  [file "1" "A" "a" [];
   file "g2" "C" "c2" [mkEntry 0%Z (mkCodeFile "C" "c") (Some "Auto-saved on generation")];
   file "D-1" "D" "d" []].
Proof. reflexivity. Qed.

Lemma smartUpdate_idempotent_witness :
  smartUpdate tick ab ba 7 = (ab, 7).
Proof.
  apply (smartUpdate_idempotent tick ab ba 7).
  - distinct_names.
  - apply perm_swap.
  - intros e b He Hb. cbn in He, Hb.
    destruct He as [<-|[<-|[]]]; destruct Hb as [<-|[<-|[]]]; cbn;
      intros E; (reflexivity || discriminate E).
Defined.

(** The first artifact of a name is a first occurrence. *)
Lemma first_by_name_In {D} `{Content D} (pre post : list (Item D)) (e : Item D) :
  ~ In (item_name e) (map item_name pre) ->
  In e (first_by_name (pre ++ e :: post)).
Proof.
  induction pre as [|x pre IH]; cbn [map app first_by_name]; intros Hfresh.
  - now left.
  - right. apply filter_In. split.
    + apply IH. intros Hi. apply Hfresh. now right.
    + apply negb_true_iff. unfold has_name. apply String.eqb_neq.
      intros E. apply Hfresh. left. now symmetry.
Qed.

Lemma mapM_In {A B} (f : A -> Clocked B) (l : list A) (a : A) : forall n,
  In a l -> exists m, In (fst (f a m)) (fst (mapM f l n)).
Proof.
  induction l as [|x l IH]; intros n Ha; [contradiction|].
  rewrite mapM_cons. cbn [fst]. destruct Ha as [->|Ha].
  - exists n. now left.
  - destruct (IH (snd (f x n)) Ha) as [m Hm]. exists m. now right.
Qed.

(** C10. Of the existing artifacts that share a name only the first takes
    part in reconciliation.  The result is the reconciliation of the first
    artifact of each name: it has one artifact for each name; the first
    existing artifact of a name that the batch has is reconciled with what
    the batch gives for the name, and is in the result; an artifact whose
    name occurs earlier in the collection can be removed without changing
    the result, whether or not the batch has that name. *)
Theorem smartUpdate_keeps_first_of_name (clock : nat -> Z) {D : Type} `{Content D}
    (existing : list (Item D)) (newItems : list (NewItem D)) (n : nat) :
  let result := fst (smartUpdate clock existing newItems n) in
  smartUpdate clock existing newItems n =
    reconcile clock (first_by_name existing) newItems n
  /\ NoDup (map item_name result)
  /\ (forall pre e post b,
        existing = pre ++ e :: post ->
        ~ In (item_name e) (map item_name pre) ->
        given newItems (item_name e) = Some b ->
        exists m, In (fst (reconcileOne clock (e, b) m)) result)
  /\ (forall pre e post,
        existing = pre ++ e :: post ->
        In (item_name e) (map item_name pre) ->
        smartUpdate clock existing newItems n =
        smartUpdate clock (pre ++ post) newItems n).
Proof.
  intros result.
  assert (Hfirst : smartUpdate clock existing newItems n =
                   reconcile clock (first_by_name existing) newItems n).
  { rewrite smartUpdate_first. apply smartUpdate_reconcile. apply NoDup_first_by_name. }
  split; [exact Hfirst|]. split; [apply smartUpdate_names_distinct|]. split.
  - intros pre e post b -> Hfresh Hg. unfold result. rewrite Hfirst.
    unfold reconcile. rewrite !bind_run. cbn [ret fst].
    assert (Hin : In (e, b) (matched (first_by_name (pre ++ e :: post)) newItems)).
    { unfold matched. apply in_flat_map. exists e. split.
      - now apply first_by_name_In.
      - rewrite Hg. now left. }
    destruct (mapM_In (reconcileOne clock) _ (e, b) n Hin) as [m Hm].
    exists m. apply in_or_app. now left.
  - intros pre e post -> Hi.
    rewrite smartUpdate_first, (smartUpdate_first clock (pre ++ post)).
    now rewrite first_by_name_later.
Qed.

Lemma smartUpdate_keeps_first_of_name_witness :
  (exists m, In (fst (reconcileOne tick (file "1" "A" "a" [], generated "g1" "A" "a2") m))
                (fst (smartUpdate tick aa [generated "g1" "A" "a2"] 0)))
  /\ smartUpdate tick aa [generated "g1" "A" "a2"] 0 =
     smartUpdate tick ([file "1" "A" "a" []] ++ []) [generated "g1" "A" "a2"] 0
  /\ fst (smartUpdate tick aa [generated "g1" "A" "a2"] 0)
     = [file "g1" "A" "a2" [mkEntry 0%Z (mkCodeFile "A" "a") (Some "Auto-saved on generation")]].
Proof.
  pose proof (smartUpdate_keeps_first_of_name tick aa [generated "g1" "A" "a2"] 0)
    as [_ [_ [Hkept Hlater]]].
  split; [|split].
  - apply (Hkept [] (file "1" "A" "a" []) [file "2" "A" "a" []]).
    + reflexivity.
    + intros [].
    + reflexivity.
  - apply (Hlater [file "1" "A" "a" []] (file "2" "A" "a" []) []);
      [reflexivity | now left].
  - reflexivity.
Defined.

(** ** Commit and revert *)

Section VersioningFacts.
Variable clock : nat -> Z.
Context {D : Type} `{ContentLaws D}.
Implicit Types (it : Item D) (items : list (Item D)) (h : list (HistoryEntry D))
  (id message : string) (target now : Z).

Lemma same_json_refl (d : D) : same_json d d = true.
Proof. now apply same_json_spec. Qed.

(** The collection after a commit, whatever the collection. *)
Lemma handleCommit_map message items n :
  fst (fst (handleCommit clock message items n))
    = map (commit_item (clock n) message) items.
Proof. destruct items; reflexivity. Qed.

Lemma commit_item_committed now message it :
  committed it -> commit_item now message it = it.
Proof.
  unfold committed, commit_item. destruct (item_history it) as [|h0 tl]; [tauto|].
  intros ->. now rewrite same_json_refl.
Qed.

Lemma committed_commit_item now message it :
  committed (commit_item now message it).
Proof.
  unfold commit_item. destruct (item_history it) as [|h0 tl] eqn:Hh.
  - reflexivity.
  - destruct (same_json (data h0) (item_rest it)) eqn:E.
    + unfold committed. rewrite Hh. now apply same_json_spec.
    + reflexivity.
Qed.

Lemma map_id_on {A} (f : A -> A) (l : list A) :
  (forall a, In a l -> f a = a) -> map f l = l.
Proof.
  induction l as [|a l IH]; intros Hf; cbn [map]; auto.
  rewrite Hf by (now left). rewrite IH; auto. intros; apply Hf; now right.
Qed.

Lemma handleCommit_committed message items n :
  Forall committed items ->
  fst (fst (handleCommit clock message items n)) = items.
Proof.
  intros Hc. rewrite handleCommit_map. apply map_id_on.
  intros it Hi. apply commit_item_committed.
  rewrite Forall_forall in Hc. now apply Hc.
Qed.

Lemma handleCommit_commits message items n :
  Forall committed (fst (fst (handleCommit clock message items n))).
Proof.
  rewrite handleCommit_map. apply Forall_forall. intros x Hx.
  apply in_map_iff in Hx as [it [<- _]]. apply committed_commit_item.
Qed.


(** *** Revert *)

Lemma revertOne_other id target it n :
  item_id it <> id -> revertOne clock id target it n = (it, n).
Proof.
  intros Hne. unfold revertOne.
  destruct (String.eqb_spec (item_id it) id); [contradiction|reflexivity].
Qed.

Lemma revertOne_absent id target it n :
  (forall e, In e (item_history it) -> timestamp e <> target) ->
  revertOne clock id target it n = (it, n).
Proof.
  intros Hno. unfold revertOne.
  destruct (String.eqb (item_id it) id); [|reflexivity].
  destruct (find _ (item_history it)) as [e|] eqn:Hf; [|reflexivity].
  apply find_some in Hf as [Hi E]. apply Z.eqb_eq in E. now apply Hno in Hi.
Qed.

Lemma revertOne_found id target it e n :
  item_id it = id ->
  find (fun x => Z.eqb (timestamp x) target) (item_history it) = Some e ->
  revertOne clock id target it n =
  (mkItem (item_id it) (data e)
     (mkEntry (clock n) (item_rest it) (Some "Reverted")
      :: filter (fun x => negb (Z.eqb (timestamp x) target)) (item_history it)),
   S n).
Proof.
  intros Hid Hf. unfold revertOne. rewrite Hid, String.eqb_refl, Hf. reflexivity.
Qed.

Lemma find_timestamp h e :
  In e h ->
  (forall e', In e' h -> timestamp e' = timestamp e -> e' = e) ->
  find (fun x => Z.eqb (timestamp x) (timestamp e)) h = Some e.
Proof.
  induction h as [|a h IH]; intros Hi Huniq; [contradiction|].
  cbn [find]. destruct (Z.eqb_spec (timestamp a) (timestamp e)) as [E|Hne].
  - f_equal. apply Huniq; auto. now left.
  - destruct Hi as [->|Hi]; [congruence|].
    apply IH; auto. intros; apply Huniq; auto. now right.
Qed.

Lemma revertItem_run id target items n :
  revertItem clock id target items n =
  ((fst (mapM (revertOne clock id target) items n),
    mkToast (clock (snd (mapM (revertOne clock id target) items n)))
            "Item reverted successfully!" success),
   S (snd (mapM (revertOne clock id target) items n))).
Proof. unfold revertItem. now rewrite !bind_run. Qed.

End VersioningFacts.

(** C8. A commit on a collection in which the top snapshot of every
    artifact equals its content returns the collection as it is, with no
    new history entry; on the empty collection it returns the empty
    collection (and says that there is nothing to commit, in a toast whose
    id is the one reading of the clock that it makes); and a second commit
    right after a commit changes nothing. *)
Theorem handleCommit_noop (clock : nat -> Z) {D : Type} `{ContentLaws D}
    (message message' : string) (items : list (Item D)) (n n' : nat) :
  (Forall committed items ->
   fst (fst (handleCommit clock message items n)) = items)
  /\ handleCommit clock message (@nil (Item D)) n
     = (([], mkToast (clock n) "Nothing to commit." error), S n)
  /\ fst (fst (handleCommit clock message'
                 (fst (fst (handleCommit clock message items n))) n'))
     = fst (fst (handleCommit clock message items n)).
Proof.
  split; [|split].
  - exact (handleCommit_committed clock message items n).
  - reflexivity.
  - apply (handleCommit_committed clock). apply (handleCommit_commits clock).
Qed.

Lemma handleCommit_noop_witness :
  Forall committed committed_files
  /\ fst (fst (handleCommit tick "again" committed_files 9)) = committed_files.
Proof.
  assert (Hc : Forall committed committed_files)
    by (repeat constructor).
  split; [exact Hc|].
  exact (proj1 (handleCommit_noop tick "again" "again" committed_files 9 9) Hc).
Defined.

(** C3, as the specification has it: reverting to the entry that holds
    the content x makes x the content of the artifact.  When the update
    that replaced x by y and the commit of y read the clock within one
    millisecond, the two entries have the same timestamp: the revert to
    that timestamp restores the newer one, so that the content stays y, and
    deletes both, so that the content x is lost. *)
Lemma revertItem_tie_restores_other :
  let items := fst (run_ops same_millisecond update_then_commit [] 0) in
  let reverted :=
    fst (fst (revertItem same_millisecond "ctrl-1-0.5" 1700000000000 items 9)) in
  items
  = [file "ctrl-1-0.5" "A" "y"
       [mkEntry 1700000000000 (mkCodeFile "A" "y") (Some "saved");
        mkEntry 1700000000000 (mkCodeFile "A" "x") (Some "Auto-saved on generation")]]
  /\ reverted
     = [file "ctrl-1-0.5" "A" "y"
          [mkEntry 1700000000000 (mkCodeFile "A" "y") (Some "Reverted")]]
  /\ map item_rest reverted <> [mkCodeFile "A" "x"]
  /\ Forall (fun it => Forall (fun h => data h <> mkCodeFile "A" "x") (item_history it))
            reverted.
Proof.
  cbv zeta. split; [reflexivity|]. split; [reflexivity|]. split.
  - vm_compute. discriminate.
  - repeat constructor. vm_compute. discriminate.
Qed.

(** C3, amended. Reverting an artifact, whose id no other artifact of
    the collection has, to the timestamp of an entry of its history that
    no newer entry shares makes the snapshot of that entry
    the content of the artifact, puts on top of the history a new entry,
    tagged "Reverted", whose snapshot is the content before the revert, and
    removes from the history the restored entry and, with it, every older
    entry of the same timestamp; the other entries stay, in their order,
    and when the entry is the only one with its timestamp the history
    loses that entry only.  The other artifacts are left as they are. *)
Theorem revertItem_restores (clock : nat -> Z) {D : Type}
    (id : string) (e : HistoryEntry D) (it : Item D)
    (pre post : list (Item D)) (newer older : list (HistoryEntry D)) (n : nat) :
  item_id it = id ->
  (forall x, In x (pre ++ post) -> item_id x <> id) ->
  item_history it = newer ++ e :: older ->
  (forall x, In x newer -> timestamp x <> timestamp e) ->
  let kept := filter (fun h => negb (Z.eqb (timestamp h) (timestamp e))) older in
  fst (fst (revertItem clock id (timestamp e) (pre ++ it :: post) n))
    = pre ++ mkItem id (data e)
               (mkEntry (clock n) (item_rest it) (Some "Reverted") :: newer ++ kept)
             :: post
  /\ ~ In e (newer ++ kept)
  /\ (forall x, In x kept <-> In x older /\ timestamp x <> timestamp e)
  /\ ((forall x, In x older -> timestamp x <> timestamp e) -> kept = older).
Proof.
  intros Hid Hothers Hh Hnewer kept.
  assert (Hkeep : forall l : list (HistoryEntry D),
            (forall x, In x l -> timestamp x <> timestamp e) ->
            filter (fun h => negb (Z.eqb (timestamp h) (timestamp e))) l = l).
  { intros l Hl. apply forallb_filter_id. apply forallb_forall. intros x Hx.
    apply negb_true_iff, Z.eqb_neq. now apply Hl. }
  assert (Hfind : find (fun h => Z.eqb (timestamp h) (timestamp e)) (item_history it)
                  = Some e).
  { rewrite Hh. clear Hh. induction newer as [|x newer IH]; cbn [app find].
    - now rewrite Z.eqb_refl.
    - destruct (Z.eqb_spec (timestamp x) (timestamp e)) as [E|_].
      + exfalso. apply (Hnewer x); [now left|exact E].
      + apply IH. intros y Hy. apply Hnewer. now right. }
  split; [|split; [|split]].
  - rewrite revertItem_run. cbn [fst].
    rewrite mapM_app. cbn [fst].
    rewrite (mapM_pure _ (fun x => x) pre).
    2:{ intros a m Ha. apply revertOne_other. apply Hothers. apply in_or_app. now left. }
    cbn [fst snd]. rewrite map_id. f_equal.
    rewrite mapM_cons.
    rewrite (revertOne_found clock id (timestamp e) it e n Hid Hfind).
    cbn [fst snd]. rewrite Hid. f_equal.
    + f_equal. f_equal. rewrite Hh, filter_app. cbn [filter].
      rewrite Z.eqb_refl. cbn [negb]. now rewrite (Hkeep newer Hnewer).
    + rewrite (mapM_pure _ (fun x => x) post).
      * cbn [fst]. apply map_id.
      * intros a m Ha. apply revertOne_other. apply Hothers. apply in_or_app. now right.
  - intros Hi. apply in_app_or in Hi as [Hi|Hi].
    + now apply (Hnewer e Hi).
    + unfold kept in Hi. apply filter_In in Hi as [_ Hi].
      now rewrite Z.eqb_refl in Hi.
  - intros x. unfold kept. rewrite filter_In, negb_true_iff, Z.eqb_neq. reflexivity.
  - intros Holder. now apply Hkeep.
Qed.

Lemma revertItem_restores_witness :
  fst (fst (revertItem tick "1" 7 ([] ++ updated_file :: [file "2" "B" "b" []]) 9))
  = [file "1" "A" "x"
       [mkEntry 9%Z (mkCodeFile "A" "y") (Some "Reverted");
        mkEntry 2%Z (mkCodeFile "A" "w") None];
     file "2" "B" "b" []].
Proof.
  refine (proj1 (revertItem_restores tick "1"
            (mkEntry 7%Z (mkCodeFile "A" "x") (Some "Auto-saved on generation"))
            updated_file [] [file "2" "B" "b" []]
            [] [mkEntry 2%Z (mkCodeFile "A" "w") None] 9 _ _ _ _)).
  - reflexivity.
  - cbn. intros x [<-|[]]; cbn; discriminate.
  - reflexivity.
  - intros x [].
Defined.

(** The round trip: a reconciliation that replaces the content of an
    artifact, then, at any later call, the revert to the entry made by
    that reconciliation. *)
Lemma revert_after_update (clock : nat -> Z) {D : Type} `{Content D}
    (e : Item D) (b : NewItem D) (n k : nat) :
  batch_name b = item_name e -> batch_code b <> item_code e ->
  smartUpdate clock [e] [b] n
    = ([mkItem (updated_id e b) (new_data b) (autosave (clock n) e :: item_history e)],
       S n)
  /\ fst (fst (revertItem clock (updated_id e b) (clock n)
                 (fst (smartUpdate clock [e] [b] n)) k))
     = [mkItem (updated_id e b) (item_rest e)
          (mkEntry (clock k) (new_data b) (Some "Reverted")
           :: filter (fun h => negb (Z.eqb (timestamp h) (clock n)))
                     (item_history e))].
Proof.
  intros Hname Hcode.
  assert (Hupd : smartUpdate clock [e] [b] n
                 = ([mkItem (updated_id e b) (new_data b)
                       (autosave (clock n) e :: item_history e)], S n)).
  { rewrite smartUpdate_reconcile by (repeat constructor; intros []).
    unfold reconcile, matched, unmatched, given.
    cbn [map rev app find flat_map first_occurrences filter existsb].
    unfold has_name. rewrite Hname, !String.eqb_refl. cbn [app orb mapM].
    rewrite !bind_run. unfold reconcileOne.
    replace (String.eqb (item_code e) (batch_code b)) with false
      by (symmetry; apply String.eqb_neq; congruence).
    rewrite !bind_run. reflexivity. }
  split; [exact Hupd|].
  rewrite Hupd. cbn [fst]. rewrite revertItem_run. cbn [fst].
  rewrite mapM_cons. unfold revertOne at 1. cbn [item_id item_history find timestamp autosave].
  rewrite String.eqb_refl, Z.eqb_refl. rewrite bind_run.
  cbn [Date_now ret fst snd mapM item_rest data filter timestamp negb].
  rewrite Z.eqb_refl. reflexivity.
Qed.

(** The round trip on an artifact of content x updated to content y. *)
Example revert_round_trip :
  let updated :=
    fst (smartUpdate tick [file "1" "A" "x" []] [generated "g1" "A" "y"] 5) in
  updated = [file "g1" "A" "y" [mkEntry 5%Z (mkCodeFile "A" "x")
                                   (Some "Auto-saved on generation")]]
  /\ fst (fst (revertItem tick "g1" 5 updated 7))
     = [file "g1" "A" "x" [mkEntry 7%Z (mkCodeFile "A" "y") (Some "Reverted")]].
Proof. split; reflexivity. Qed.

(** C5, as the specification has it: a revert to a stale target surfaces an
    error.  The program raises the toast of a successful revert. *)
Lemma revertItem_stale_no_error :
  toast_type (snd (fst (revertItem tick "missing" 7 [updated_file] 9))) <> error
  /\ toast_type (snd (fst (revertItem tick "1" 99 [updated_file] 9))) <> error.
Proof. split; cbn; discriminate. Qed.

(** C5, amended. A revert whose target is stale, an id that no artifact
    has or a timestamp that no entry of the artifact has, changes no
    artifact; no error is raised: the toast is the one of a successful
    revert, and the clock is read once, for the id of that toast. *)
Theorem revertItem_stale (clock : nat -> Z) {D : Type}
    (id : string) (target : Z) (items : list (Item D)) (n : nat) :
  (forall it, In it items -> item_id it = id ->
     forall e, In e (item_history it) -> timestamp e <> target) ->
  revertItem clock id target items n
    = ((items, mkToast (clock n) "Item reverted successfully!" success), S n).
Proof.
  intros Hstale. rewrite revertItem_run.
  rewrite (mapM_pure _ (fun x => x)).
  - cbn [fst snd]. now rewrite map_id.
  - intros it m Hi. destruct (String.eqb_spec (item_id it) id) as [E|Hne].
    + apply revertOne_absent. now apply Hstale.
    + now apply revertOne_other.
Qed.

Lemma revertItem_stale_witness :
  revertItem tick "1" 99 [updated_file] 9
    = (([updated_file], mkToast 9 "Item reverted successfully!" success), 10).
Proof.
  apply (revertItem_stale tick "1" 99 [updated_file] 9).
  intros it [<-|[]] _ e [<-|[<-|[]]]; cbn; discriminate.
Defined.

(** ** The order of the histories *)

Section HistoryOrder.
Variable clock : nat -> Z.
Hypothesis clock_increasing : forall i j, (i < j)%nat -> (clock i < clock j)%Z.
Context {D : Type} `{Content D}.
Implicit Types (it : Item D) (items : list (Item D)) (h : list (HistoryEntry D)).
















End HistoryOrder.





(** ** Strings *)

Module JsStringFacts.
Import JsString.

Lemma length_append (a b : string) :
  String.length (a ++ b) = String.length a + String.length b.
Proof. induction a as [|c a IH]; cbn; auto. Qed.









Lemma split_segment (sep : ascii) (seg : string) :
  no_char sep seg = true -> split sep seg = [seg].
Proof.
  induction seg as [|x seg IH]; cbn; auto.
  intros Hn. apply andb_true_iff in Hn as [Hx Hn].
  apply negb_true_iff in Hx. rewrite Hx, IH; auto.
Qed.

Lemma split_segment_more (sep : ascii) (seg rest : string) :
  no_char sep seg = true ->
  split sep (seg ++ String sep rest) = seg :: split sep rest.
Proof.
  induction seg as [|x seg IH]; cbn.
  - intros _. now rewrite Ascii.eqb_refl.
  - intros Hn. apply andb_true_iff in Hn as [Hx Hn].
    apply negb_true_iff in Hx. rewrite Hx, IH; auto.
Qed.

End JsStringFacts.

(** ** Grouping of the endpoints *)

Module GroupingFacts.
Import JsString JsStringFacts Grouping.

Section Casing.
Variable toLowerCase : string -> string.




Lemma getBaseNameFromEndpoint_api (seg : string) :
  no_char "/" seg = true -> kept seg = true ->
  getBaseNameFromEndpoint ("/api/" ++ seg) = Some (dePluralize seg).
Proof.
  intros Hseg Hkept. unfold getBaseNameFromEndpoint.
  change ("/api/" ++ seg)%string
    with (EmptyString ++ String "/" ("api" ++ String "/" seg))%string.
  rewrite split_segment_more by reflexivity.
  rewrite split_segment_more by reflexivity.
  rewrite split_segment by assumption.
  cbn [filter]. change (kept EmptyString) with false. change (kept "api") with false.
  now rewrite Hkept.
Qed.







End Casing.

End GroupingFacts.




(** ** Edges from routers to endpoints *)

Module VisualizerFacts.
Import JsString JsStringFacts Visualizer.

Lemma append_assoc (a b c : string) :
  ((a ++ b) ++ c)%string = (a ++ b ++ c)%string.
Proof. induction a as [|x a IH]; cbn; congruence. Qed.

Lemma lazy_to_quote_plain (path : string) (q : ascii) (rest : string) :
  plain path = true -> is_quote q = true ->
  lazy_to_quote (path ++ String q rest) = Some path.
Proof.
  intros Hp Hq. induction path as [|c path IH]; cbn.
  - now rewrite Hq.
  - cbn in Hp. apply andb_true_iff in Hp as [Hc Hp].
    apply andb_true_iff in Hc as [Hc1 Hc2].
    apply negb_true_iff in Hc1, Hc2. rewrite Hc1, Hc2, IH; auto.
Qed.

Lemma match_here_statement verb q1 path q2 rest :
  In verb verbs -> is_quote q1 = true -> is_quote q2 = true -> plain path = true ->
  match_here (statement verb q1 path q2 ++ rest) = Some (verb, path).
Proof.
  intros Hv Hq1 Hq2 Hp. unfold statement.
  assert (Hl : lazy_to_quote ((path ++ String q2 EmptyString) ++ rest) = Some path).
  { rewrite append_assoc. cbn. now apply lazy_to_quote_plain. }
  cbn in Hv.
  destruct Hv as [<-|[<-|[<-|[<-|[<-|[]]]]]]; cbn; rewrite Hq1, Hl; reflexivity.
Qed.

Lemma matchAll_from_skip (a rest : string) :
  matchAll_from (String.length a) (a ++ rest) = matchAll_from 0 rest.
Proof.
  induction a as [|c a IH]; cbn [String.length append].
  - now destruct rest.
  - cbn [matchAll_from]. exact IH.
Qed.

Lemma statement_length verb q1 path q2 :
  String.length (statement verb q1 path q2) = match_length verb path.
Proof.
  unfold statement, match_length. rewrite !length_append. cbn [String.length].
  rewrite length_append. cbn. lia.
Qed.

(** The scan takes a registration and resumes after it. *)
Lemma routeDefinitions_statement verb q1 path q2 rest :
  In verb verbs -> is_quote q1 = true -> is_quote q2 = true -> plain path = true ->
  routeDefinitions (statement verb q1 path q2 ++ rest)
    = (verb, path) :: routeDefinitions rest.
Proof.
  intros Hv Hq1 Hq2 Hp. unfold routeDefinitions.
  pose proof (match_here_statement verb q1 path q2 rest Hv Hq1 Hq2 Hp) as Hm.
  pose proof (statement_length verb q1 path q2) as Hlen.
  destruct (statement verb q1 path q2) as [|c s] eqn:Hs.
  - unfold statement in Hs. discriminate Hs.
  - cbn [append] in *. cbn [matchAll_from]. rewrite Hm. f_equal.
    cbn [String.length] in Hlen. rewrite <- Hlen. cbn [Nat.sub].
    rewrite Nat.sub_0_r. apply matchAll_from_skip.
Qed.

(** The scan passes over a character where no registration starts. *)
Lemma routeDefinitions_other c s :
  match_here (String c s) = None ->
  routeDefinitions (String c s) = routeDefinitions s.
Proof. intros Hm. unfold routeDefinitions. cbn [matchAll_from]. now rewrite Hm. Qed.

(** Lookups in the maps of nodes. *)
Lemma get_of_entries {V} (l : list (string * V)) k :
  In k (map fst l) ->
  exists v, JsMap.get k (JsMap.of_entries l) = Some v /\ In (k, v) l.
Proof.
  intros Hi. destruct (JsMap.get k (JsMap.of_entries l)) as [v|] eqn:Hget.
  - exists v. split; auto.
    apply JsMapFacts.In_of_entries. now apply JsMapFacts.get_In.
  - exfalso. apply JsMapFacts.get_None in Hget. apply Hget.
    now apply JsMapFacts.keys_of_entries.
Qed.

Lemma NoDup_map_inj {A B} (f : A -> B) (l : list A) x y :
  NoDup (map f l) -> In x l -> In y l -> f x = f y -> x = y.
Proof.
  induction l as [|a l IH]; [contradiction|].
  cbn [map]. intros Hnd Hx Hy E. inversion Hnd as [|? ? Ha Hnd']; subst.
  destruct Hx as [->|Hx], Hy as [->|Hy]; auto.
  - exfalso. apply Ha. rewrite E. now apply in_map.
  - exfalso. apply Ha. rewrite <- E. now apply in_map.
Qed.

Lemma route_node (routes : list Route) (r : Route) :
  NoDup (map (fun r => file_name (item_rest r)) routes) -> In r routes ->
  exists node,
    JsMap.get (file_name (item_rest r))
      (JsMap.of_entries (map (fun n => (node_label n, n)) (routeNodes routes)))
      = Some node
    /\ node_id node = item_id r.
Proof.
  intros Hnd Hr.
  destruct (get_of_entries (map (fun n => (node_label n, n)) (routeNodes routes))
              (file_name (item_rest r))) as [node [Hget Hin]].
  - unfold routeNodes. rewrite !map_map. cbn.
    apply in_map_iff. now exists r.
  - exists node. split; auto.
    apply in_map_iff in Hin as [n [E Hn]].
    assert (Hlabel : node_label node = file_name (item_rest r))
      by (inversion E; now subst).
    assert (n = node) by (now inversion E). subst n.
    unfold routeNodes in Hn. apply in_map_iff in Hn as [r' [E' Hr']].
    subst node. cbn in Hlabel |- *.
    now rewrite (NoDup_map_inj _ routes r' r Hnd Hr' Hr Hlabel).
Qed.

Lemma api_node (apis : list Api) (a : Api) :
  In a apis ->
  exists node,
    JsMap.get (item_id a)
      (JsMap.of_entries (map (fun n => (node_id n, n)) (apiNodes apis)))
      = Some node
    /\ node_id node = item_id a.
Proof.
  intros Ha.
  destruct (get_of_entries (map (fun n => (node_id n, n)) (apiNodes apis))
              (item_id a)) as [node [Hget Hin]].
  - unfold apiNodes. rewrite !map_map. cbn. apply in_map_iff. now exists a.
  - exists node. split; auto.
    apply in_map_iff in Hin as [n [E Hn]]. now inversion E.
Qed.

Lemma routeApiEdges_distinct (routes : list Route) (colls : list ApiCollection) :
  NoDup (map (fun r => file_name (item_rest r)) routes) ->
  routeApiEdges routes colls = flat_map (edges_of_route (allApis colls)) routes.
Proof.
  intros Hnd. unfold routeApiEdges. apply flat_map_ext_in. intros r Hr.
  destruct (route_node routes r Hnd Hr) as [src [Hsrc Hid]].
  rewrite Hsrc. unfold edges_of_route. apply flat_map_ext_in. intros [verb path] _.
  unfold serves. cbn [fst snd].
  match goal with |- context [find ?f ?l] =>
    destruct (find f l) as [a|] eqn:Hfind; [|reflexivity] end.
  apply find_some in Hfind as [Ha _].
  destruct (api_node (allApis colls) a Ha) as [tgt [Htgt Hid']].
  rewrite Htgt. unfold edge_between. now rewrite Hid, Hid'.
Qed.



End VisualizerFacts.



(** ** Endpoint collections *)

Module ApisWindowFacts.
Import ApisWindow.

Implicit Types (c u d : ApiCollection) (colls : list ApiCollection) (st : State).

Lemma find_has_id colls c :
  NoDup (map coll_id colls) -> In c colls -> find (has_id (coll_id c)) colls = Some c.
Proof.
  induction colls as [|x colls IH]; [contradiction|].
  cbn [map find]. intros Hnd Hc. inversion Hnd as [|? ? Hx Hnd']; subst.
  unfold has_id at 1. destruct (String.eqb_spec (coll_id x) (coll_id c)) as [E|Hne].
  - destruct Hc as [->|Hc]; auto.
    exfalso. apply Hx. rewrite E. now apply in_map.
  - destruct Hc as [->|Hc]; [congruence|]. now apply IH.
Qed.

Lemma deleteCollection_collections clock c st n :
  NoDup (map coll_id (apiCollections st)) ->
  In c (apiCollections st) ->
  is_uncategorized c = false ->
  coll_id c <> EmptyString ->
  apiCollections (fst (deleteCollection clock (coll_id c) st n))
    = afterDelete (coll_id c) (clock n) (coll_apis c) (apiCollections st).
Proof.
  intros Hnd Hc Hname Hid.
  unfold deleteCollection, requestDeleteCollection.
  rewrite (find_has_id _ _ Hnd Hc), Hname.
  unfold handleConfirmCollectionDelete. cbn [collectionConfirmationState collectionId truthy_id].
  destruct (String.eqb_spec (coll_id c) EmptyString) as [E|_]; [contradiction|].
  rewrite bind_run. cbn [apiCollections activeCollectionId].
  unfold deleteUpdater. rewrite (find_has_id _ _ Hnd Hc).
  rewrite bind_run. unfold afterDelete.
  destruct (find is_uncategorized _) as [u|]; reflexivity.
Qed.

Lemma filter_other_ids colls c :
  NoDup (map coll_id colls) -> ~ In (coll_id c) (map coll_id colls) ->
  filter (fun x => negb (has_id (coll_id c) x)) colls = colls.
Proof.
  intros _ Hn. apply forallb_filter_id. apply forallb_forall. intros x Hx.
  apply negb_true_iff. unfold has_id. apply String.eqb_neq. intros E.
  apply Hn. rewrite <- E. now apply in_map.
Qed.

Lemma remaining_apis colls c :
  NoDup (map coll_id colls) -> In c colls ->
  Permutation
    (flat_map coll_apis (filter (fun x => negb (has_id (coll_id c) x)) colls)
     ++ coll_apis c)
    (flat_map coll_apis colls).
Proof.
  induction colls as [|x colls IH]; [contradiction|].
  cbn [map]. intros Hnd Hc. inversion Hnd as [|? ? Hx Hnd']; subst.
  cbn [filter flat_map]. unfold has_id at 1.
  destruct (String.eqb_spec (coll_id x) (coll_id c)) as [E|Hne]; cbn [negb].
  - assert (x = c) as ->.
    { destruct Hc as [->|Hc]; auto. exfalso. apply Hx. rewrite E. now apply in_map. }
    rewrite filter_other_ids by assumption. apply Permutation_app_comm.
  - destruct Hc as [->|Hc]; [congruence|].
    cbn [flat_map]. rewrite <- app_assoc. apply Permutation_app_head. now apply IH.
Qed.

Lemma moved_apis colls u (moved : list Api) :
  NoDup (map coll_id colls) -> In u colls ->
  Permutation
    (flat_map coll_apis
       (map (fun c => if has_id (coll_id u) c
                      then mkCollection (coll_id c) (coll_name c) (coll_apis c ++ moved)
                      else c) colls))
    (flat_map coll_apis colls ++ moved).
Proof.
  induction colls as [|x colls IH]; [contradiction|].
  cbn [map]. intros Hnd Hu. inversion Hnd as [|? ? Hx Hnd']; subst.
  cbn [flat_map]. unfold has_id at 1.
  destruct (String.eqb_spec (coll_id x) (coll_id u)) as [E|Hne].
  - cbn [coll_apis].
    rewrite (map_id_on _ colls).
    + rewrite <- !app_assoc. apply Permutation_app_head. apply Permutation_app_comm.
    + intros a Ha. unfold has_id.
      destruct (String.eqb_spec (coll_id a) (coll_id u)) as [E'|]; auto.
      exfalso. apply Hx. rewrite E, <- E'. now apply in_map.
  - destruct Hu as [->|Hu]; [congruence|].
    rewrite <- app_assoc. apply Permutation_app_head. now apply IH.
Qed.

Lemma NoDup_ids_filter colls (p : ApiCollection -> bool) :
  NoDup (map coll_id colls) -> NoDup (map coll_id (filter p colls)).
Proof. apply NoDup_map_filter. Qed.

Lemma afterDelete_apis colls c now :
  NoDup (map coll_id colls) -> In c colls ->
  Permutation (flat_map coll_apis (afterDelete (coll_id c) now (coll_apis c) colls))
              (flat_map coll_apis colls).
Proof.
  intros Hnd Hc. unfold afterDelete.
  destruct (find is_uncategorized _) as [u|] eqn:Hfind.
  - apply find_some in Hfind as [Hu _].
    etransitivity; [apply moved_apis; auto using NoDup_ids_filter|].
    now apply remaining_apis.
  - rewrite flat_map_app. cbn [flat_map coll_apis]. rewrite app_nil_r.
    now apply remaining_apis.
Qed.

Lemma afterDelete_removes colls c now :
  is_uncategorized c = false ->
  ~ In c (afterDelete (coll_id c) now (coll_apis c) colls).
Proof.
  intros Hname Hin. unfold afterDelete in Hin.
  assert (Hrem : forall x,
            In x (filter (fun x => negb (has_id (coll_id c) x)) colls) ->
            coll_id x <> coll_id c).
  { intros x Hx. apply filter_In in Hx as [_ Hx].
    apply negb_true_iff in Hx. now apply String.eqb_neq in Hx. }
  destruct (find is_uncategorized _) as [u|] eqn:Hfind.
  - apply in_map_iff in Hin as [x [E Hx]]. apply Hrem in Hx.
    destruct (has_id (coll_id u) x); rewrite <- E in Hx; cbn in Hx; congruence.
  - apply in_app_or in Hin as [Hin|[E|[]]].
    + now apply Hrem in Hin.
    + rewrite <- E in Hname. discriminate Hname.
Qed.

Lemma afterDelete_catch_all colls c now :
  exists u before,
    In u (afterDelete (coll_id c) now (coll_apis c) colls)
    /\ is_uncategorized u = true
    /\ coll_apis u = before ++ coll_apis c.
Proof.
  unfold afterDelete.
  destruct (find is_uncategorized _) as [u|] eqn:Hfind.
  - apply find_some in Hfind as [Hu Hname].
    exists (mkCollection (coll_id u) (coll_name u) (coll_apis u ++ coll_apis c)),
           (coll_apis u).
    split; [|split; auto].
    apply in_map_iff. exists u. split; auto.
    unfold has_id. now rewrite String.eqb_refl.
  - eexists. exists []. split; [apply in_or_app; right; now left|].
    split; reflexivity.
Qed.

Lemma afterDelete_others colls c now d :
  NoDup (map coll_id colls) -> In c colls ->
  In d colls -> d <> c -> is_uncategorized d = false ->
  In d (afterDelete (coll_id c) now (coll_apis c) colls).
Proof.
  intros Hnd Hc Hd Hne Hname. unfold afterDelete.
  assert (Hrem : In d (filter (fun x => negb (has_id (coll_id c) x)) colls)).
  { apply filter_In. split; auto. apply negb_true_iff. unfold has_id.
    apply String.eqb_neq. intros E. apply Hne.
    eapply (VisualizerFacts.NoDup_map_inj coll_id); eauto. }
  destruct (find is_uncategorized _) as [u|] eqn:Hfind.
  - apply find_some in Hfind as [Hu Hu'].
    apply in_map_iff. exists d. split; auto.
    unfold has_id. destruct (String.eqb_spec (coll_id d) (coll_id u)) as [E|]; auto.
    assert (d = u); [|subst; congruence].
    apply (VisualizerFacts.NoDup_map_inj coll_id colls d u Hnd Hd); auto.
    now apply filter_In in Hu.
  - apply in_or_app. now left.
Qed.

Lemma deleteCollection_refuses clock u st n :
  NoDup (map coll_id (apiCollections st)) ->
  In u (apiCollections st) ->
  is_uncategorized u = true ->
  collectionId (collectionConfirmationState st) = None ->
  deleteCollection clock (coll_id u) st n = (st, n).
Proof.
  intros Hnd Hu Hname Hclosed.
  unfold deleteCollection, requestDeleteCollection.
  rewrite (find_has_id _ _ Hnd Hu), Hname.
  unfold handleConfirmCollectionDelete. now rewrite Hclosed.
Qed.

Lemma renameCollection_refuses u newName st :
  is_uncategorized u = true ->
  renamingCollectionId st = None ->
  renameCollection u newName st = st.
Proof.
  intros Hname Hr. unfold renameCollection, onDoubleClick.
  rewrite Hname. cbn [negb]. now rewrite Hr.
Qed.

End ApisWindowFacts.

(** C9. In a window whose collections have distinct ids, deleting a
    collection that is not the catch-all removes it, leaves the other
    collections that are not the catch-all as they are, and appends its
    endpoints to the endpoints of the catch-all (a catch-all is made when
    there is none): the endpoints of the window are the same, none lost,
    none repeated.  Deleting the catch-all, or renaming it, leaves the
    window as it is. *)
Theorem deleteCollection_moves_endpoints (clock : nat -> Z)
    (st : ApisWindow.State) (c : ApiCollection) (n : nat) :
  NoDup (map coll_id (ApisWindow.apiCollections st)) ->
  In c (ApisWindow.apiCollections st) ->
  ApisWindow.collectionId (ApisWindow.collectionConfirmationState st) = None ->
  ApisWindow.renamingCollectionId st = None ->
  (ApisWindow.is_uncategorized c = false ->
   coll_id c <> EmptyString ->
   let after :=
     ApisWindow.apiCollections (fst (ApisWindow.deleteCollection clock (coll_id c) st n)) in
   ~ In c after
   /\ Permutation (Visualizer.allApis after)
                  (Visualizer.allApis (ApisWindow.apiCollections st))
   /\ (exists u before,
         In u after /\ ApisWindow.is_uncategorized u = true
         /\ coll_apis u = before ++ coll_apis c)
   /\ (forall d, In d (ApisWindow.apiCollections st) -> d <> c ->
                 ApisWindow.is_uncategorized d = false -> In d after))
  /\ (ApisWindow.is_uncategorized c = true ->
      ApisWindow.deleteCollection clock (coll_id c) st n = (st, n)
      /\ forall newName, ApisWindow.renameCollection c newName st = st).
Proof.
  intros Hnd Hc Hclosed Hrename. split.
  - intros Hname Hid after. unfold after.
    rewrite (ApisWindowFacts.deleteCollection_collections clock c st n Hnd Hc Hname Hid).
    split; [|split; [|split]].
    + now apply ApisWindowFacts.afterDelete_removes.
    + now apply ApisWindowFacts.afterDelete_apis.
    + apply ApisWindowFacts.afterDelete_catch_all.
    + intros d Hd Hne Hd'. now apply ApisWindowFacts.afterDelete_others.
  - intros Hname. split.
    + now apply ApisWindowFacts.deleteCollection_refuses.
    + intros newName. now apply ApisWindowFacts.renameCollection_refuses.
Qed.

Lemma deleteCollection_moves_endpoints_witness :
  ApisWindow.apiCollections
    (fst (ApisWindow.deleteCollection tick "c1" three_collections 4))
  = [mkCollection "c0" "Uncategorized"
       [endpoint_of "a0" "Ping" "/api/ping" GET;
        endpoint_of "a1" "ListUsers" "/api/users" GET];
     mkCollection "c2" "Orders" [endpoint_of "a2" "ListOrders" "/api/orders" GET]]
  /\ Permutation
       (Visualizer.allApis
          (ApisWindow.apiCollections
             (fst (ApisWindow.deleteCollection tick "c1" three_collections 4))))
       (Visualizer.allApis (ApisWindow.apiCollections three_collections)).
Proof.
  split; [reflexivity|].
  refine (proj1 (proj2 (proj1 (deleteCollection_moves_endpoints tick three_collections
            (mkCollection "c1" "Users" [endpoint_of "a1" "ListUsers" "/api/users" GET])
            4 _ _ _ _) _ _))).
  - distinct_names.
  - now left.
  - reflexivity.
  - reflexivity.
  - reflexivity.
  - cbn. discriminate.
Defined.

(** ** The endpoints of the window: deleting, moving, merging *)

Module EndpointFacts.
Import ApisWindow.

Lemma without_absent apiId (apis : list Api) :
  (forall a, In a apis -> item_id a <> apiId) ->
  filter (fun x => negb (String.eqb (item_id x) apiId)) apis = apis.
Proof.
  intros Habs. apply forallb_filter_id. apply forallb_forall. intros a Ha.
  apply negb_true_iff. apply String.eqb_neq. now apply Habs.
Qed.

Lemma without_one (a : Api) apis :
  NoDup (map item_id apis) -> In a apis ->
  Permutation (a :: filter (fun x => negb (String.eqb (item_id x) (item_id a))) apis)
              apis.
Proof.
  induction apis as [|x apis IH]; [contradiction|].
  cbn [map]. intros Hnd Ha. inversion Hnd as [|? ? Hx Hnd']; subst.
  cbn [filter].
  destruct (String.eqb_spec (item_id x) (item_id a)) as [E|Hne]; cbn [negb].
  - assert (x = a) as ->.
    { destruct Ha as [->|Ha]; auto. exfalso. apply Hx. rewrite E. now apply in_map. }
    rewrite without_absent; auto.
    intros b Hb E'. apply Hx. rewrite <- E'. now apply in_map.
  - destruct Ha as [->|Ha]; [congruence|].
    etransitivity; [apply perm_swap|]. apply perm_skip. now apply IH.
Qed.

Lemma find_one (a : Api) apis :
  NoDup (map item_id apis) -> In a apis ->
  find (fun x => String.eqb (item_id x) (item_id a)) apis = Some a.
Proof.
  induction apis as [|x apis IH]; [contradiction|].
  cbn [map]. intros Hnd Ha. inversion Hnd as [|? ? Hx Hnd']; subst.
  cbn [find]. destruct (String.eqb_spec (item_id x) (item_id a)) as [E|Hne].
  - destruct Ha as [->|Ha]; auto. exfalso. apply Hx. rewrite E. now apply in_map.
  - destruct Ha as [->|Ha]; [congruence|]. now apply IH.
Qed.

Lemma find_absent apiId (apis : list Api) :
  (forall a, In a apis -> item_id a <> apiId) ->
  find (fun x => String.eqb (item_id x) apiId) apis = None.
Proof.
  induction apis as [|x apis IH]; intros Habs; [reflexivity|].
  cbn [find]. destruct (String.eqb_spec (item_id x) apiId) as [E|_].
  - exfalso. apply (Habs x); auto. now left.
  - apply IH. intros a Ha. apply Habs. now right.
Qed.

Lemma deleteApiUpdater_ids apiId from prev :
  map coll_id (deleteApiUpdater apiId from prev) = map coll_id prev.
Proof.
  unfold deleteApiUpdater. rewrite map_map. apply map_ext.
  intros c. now destruct (has_id from c).
Qed.

Lemma deleteApiUpdater_names apiId from prev :
  map coll_name (deleteApiUpdater apiId from prev) = map coll_name prev.
Proof.
  unfold deleteApiUpdater. rewrite map_map. apply map_ext.
  intros c. now destruct (has_id from c).
Qed.

Lemma deleteApiUpdater_other apiId from prev :
  (forall c, In c prev -> coll_id c <> from) ->
  deleteApiUpdater apiId from prev = prev.
Proof.
  intros Hids. unfold deleteApiUpdater. apply map_id_on. intros c Hc.
  unfold has_id. destruct (String.eqb_spec (coll_id c) from); auto.
  now apply Hids in Hc.
Qed.

Lemma deleteApiUpdater_absent apiId from prev :
  (forall c, In c prev -> coll_id c = from ->
             forall a, In a (coll_apis c) -> item_id a <> apiId) ->
  deleteApiUpdater apiId from prev = prev.
Proof.
  intros Habs. unfold deleteApiUpdater. apply map_id_on. intros c Hc.
  unfold has_id. destruct (String.eqb_spec (coll_id c) from) as [E|]; auto.
  rewrite without_absent by eauto.
  now destruct c.
Qed.

Lemma deleteApiUpdater_one src a prev :
  NoDup (map coll_id prev) -> In src prev ->
  NoDup (map item_id (coll_apis src)) -> In a (coll_apis src) ->
  Permutation
    (a :: Visualizer.allApis (deleteApiUpdater (item_id a) (coll_id src) prev))
    (Visualizer.allApis prev).
Proof.
  unfold Visualizer.allApis.
  induction prev as [|x prev IH]; [contradiction|].
  cbn [map]. intros Hnd Hsrc Hapis Ha. inversion Hnd as [|? ? Hx Hnd']; subst.
  cbn [deleteApiUpdater map flat_map]. unfold has_id at 1.
  destruct (String.eqb_spec (coll_id x) (coll_id src)) as [E|Hne].
  - assert (x = src) as ->.
    { destruct Hsrc as [->|Hsrc]; auto. exfalso. apply Hx. rewrite E. now apply in_map. }
    cbn [coll_apis].
    fold (deleteApiUpdater (item_id a) (coll_id src) prev).
    rewrite deleteApiUpdater_other.
    + rewrite app_comm_cons. apply Permutation_app_tail. now apply without_one.
    + intros c Hc E'. apply Hx. rewrite <- E'. now apply in_map.
  - destruct Hsrc as [->|Hsrc]; [congruence|].
    fold (deleteApiUpdater (item_id a) (coll_id src) prev).
    etransitivity; [apply Permutation_middle|].
    apply Permutation_app_head. now apply IH.
Qed.

Lemma removeFromSource_fst apiId from prev init :
  fst (removeFromSource apiId from prev init) = deleteApiUpdater apiId from prev.
Proof.
  revert init. induction prev as [|c prev IH]; intros init; [reflexivity|].
  cbn [removeFromSource deleteApiUpdater map].
  destruct (has_id from c); cbn [fst]; now rewrite IH.
Qed.

Lemma removeFromSource_other apiId from prev init :
  (forall c, In c prev -> coll_id c <> from) ->
  snd (removeFromSource apiId from prev init) = init.
Proof.
  revert init. induction prev as [|c prev IH]; intros init Hids; [reflexivity|].
  cbn [removeFromSource]. unfold has_id.
  destruct (String.eqb_spec (coll_id c) from) as [E|_].
  - exfalso. apply (Hids c); auto. now left.
  - cbn [snd]. apply IH. intros x Hx. apply Hids. now right.
Qed.

Lemma removeFromSource_snd apiId src prev init :
  NoDup (map coll_id prev) -> In src prev ->
  snd (removeFromSource apiId (coll_id src) prev init)
  = find (fun a => String.eqb (item_id a) apiId) (coll_apis src).
Proof.
  revert init. induction prev as [|x prev IH]; intros init; [contradiction|].
  cbn [map]. intros Hnd Hsrc. inversion Hnd as [|? ? Hx Hnd']; subst.
  cbn [removeFromSource]. unfold has_id.
  destruct (String.eqb_spec (coll_id x) (coll_id src)) as [E|Hne]; cbn [snd].
  - assert (x = src) as ->.
    { destruct Hsrc as [->|Hsrc]; auto. exfalso. apply Hx. rewrite E. now apply in_map. }
    apply removeFromSource_other.
    intros c Hc E'. apply Hx. rewrite <- E'. now apply in_map.
  - destruct Hsrc as [->|Hsrc]; [congruence|]. now apply IH.
Qed.

Lemma removeFromSource_absent apiId from prev init :
  (forall c, In c prev -> coll_id c = from ->
             forall a, In a (coll_apis c) -> item_id a <> apiId) ->
  init = None ->
  snd (removeFromSource apiId from prev init) = None.
Proof.
  revert init. induction prev as [|c prev IH]; intros init Habs Hinit; [assumption|].
  cbn [removeFromSource]. unfold has_id.
  destruct (String.eqb_spec (coll_id c) from) as [E|_]; cbn [snd].
  - apply IH; [intros x Hx; apply Habs; now right|].
    apply find_absent. apply (Habs c); auto. now left.
  - apply IH; auto. intros x Hx; apply Habs; now right.
Qed.

Lemma add_ids to (moved : list Api) colls :
  map coll_id
    (map (fun c => if has_id to c
                   then mkCollection (coll_id c) (coll_name c) (coll_apis c ++ moved)
                   else c) colls)
  = map coll_id colls.
Proof. rewrite map_map. apply map_ext. intros c. now destruct (has_id to c). Qed.

Lemma add_names to (moved : list Api) colls :
  map coll_name
    (map (fun c => if has_id to c
                   then mkCollection (coll_id c) (coll_name c) (coll_apis c ++ moved)
                   else c) colls)
  = map coll_name colls.
Proof. rewrite map_map. apply map_ext. intros c. now destruct (has_id to c). Qed.

Lemma In_ids_deleteApiUpdater apiId from prev c :
  In c prev ->
  exists c', In c' (deleteApiUpdater apiId from prev)
             /\ coll_id c' = coll_id c /\ coll_name c' = coll_name c.
Proof.
  intros Hc. eexists. split; [apply in_map, Hc|].
  now destruct (has_id from c).
Qed.

End EndpointFacts.

(** X1. In a window whose collections have distinct ids, moving an
    endpoint that its source collection holds (under an id that no other
    endpoint of the source has) to a collection of the window keeps the
    endpoints of the window, none lost, none repeated; the collections
    keep their ids, names and order; the endpoint becomes the last one of
    the destination, the source no longer holds it when the destination is
    another collection, and the collections that are neither the source
    nor the destination are left as they are. *)
Theorem moveUpdater_moves (prev : list ApiCollection) (src dst : ApiCollection)
    (a : Api) :
  NoDup (map coll_id prev) ->
  In src prev -> In dst prev ->
  NoDup (map item_id (coll_apis src)) ->
  In a (coll_apis src) ->
  let after := ApisWindow.moveUpdater (item_id a) (coll_id src) (coll_id dst) prev in
  Permutation (Visualizer.allApis after) (Visualizer.allApis prev)
  /\ map coll_id after = map coll_id prev
  /\ map coll_name after = map coll_name prev
  /\ (exists d' before,
        In d' after /\ coll_id d' = coll_id dst /\ coll_apis d' = before ++ [a])
  /\ (coll_id src <> coll_id dst ->
      forall s', In s' after -> coll_id s' = coll_id src -> ~ In a (coll_apis s'))
  /\ (forall c, In c prev -> coll_id c <> coll_id src -> coll_id c <> coll_id dst ->
                In c after).
Proof.
  intros Hnd Hsrc Hdst Hapis Ha after. unfold after, ApisWindow.moveUpdater.
  rewrite EndpointFacts.removeFromSource_fst.
  rewrite (EndpointFacts.removeFromSource_snd _ _ _ _ Hnd Hsrc).
  rewrite (EndpointFacts.find_one _ _ Hapis Ha).
  destruct (EndpointFacts.In_ids_deleteApiUpdater (item_id a) (coll_id src) _ _ Hdst)
    as [dd [Hdd [Edd _]]].
  split; [|split; [|split; [|split; [|split]]]].
  - rewrite <- Edd. unfold Visualizer.allApis.
    etransitivity; [apply ApisWindowFacts.moved_apis; auto|].
    + now rewrite EndpointFacts.deleteApiUpdater_ids.
    + etransitivity; [symmetry; apply Permutation_cons_append|].
      now apply EndpointFacts.deleteApiUpdater_one.
  - now rewrite EndpointFacts.add_ids, EndpointFacts.deleteApiUpdater_ids.
  - now rewrite EndpointFacts.add_names, EndpointFacts.deleteApiUpdater_names.
  - exists (mkCollection (coll_id dd) (coll_name dd) (coll_apis dd ++ [a])),
           (coll_apis dd).
    split; [|split; auto].
    apply in_map_iff. exists dd. split; auto.
    unfold ApisWindow.has_id. rewrite Edd. now rewrite String.eqb_refl.
  - intros Hne s' Hs' Es'.
    apply in_map_iff in Hs' as [c' [E Hc']].
    apply in_map_iff in Hc' as [c [E' Hc]].
    unfold ApisWindow.has_id in E, E'.
    destruct (String.eqb_spec (coll_id c) (coll_id src)) as [Ec|Ec].
    + subst c'. cbn [coll_id] in E.
      destruct (String.eqb_spec (coll_id c) (coll_id dst)) as [Ed|_]; [congruence|].
      subst s'. cbn [coll_apis]. intros Hin. apply filter_In in Hin as [_ Hin].
      now rewrite String.eqb_refl in Hin.
    + subst c'. destruct (String.eqb_spec (coll_id c) (coll_id dst));
        subst s'; cbn [coll_id] in Es'; congruence.
  - intros c Hc Hs Hd.
    apply in_map_iff. exists c. split.
    + unfold ApisWindow.has_id.
      now destruct (String.eqb_spec (coll_id c) (coll_id dst)).
    + apply in_map_iff. exists c. split; auto.
      unfold ApisWindow.has_id.
      now destruct (String.eqb_spec (coll_id c) (coll_id src)).
Qed.

Lemma moveUpdater_moves_witness :
  ApisWindow.moveUpdater "a1" "c1" "c2" (ApisWindow.apiCollections three_collections)
  = [mkCollection "c1" "Users" [];
     mkCollection "c0" "Uncategorized" [endpoint_of "a0" "Ping" "/api/ping" GET];
     mkCollection "c2" "Orders" [endpoint_of "a2" "ListOrders" "/api/orders" GET;
                                 endpoint_of "a1" "ListUsers" "/api/users" GET]]
  /\ Permutation
       (Visualizer.allApis
          (ApisWindow.moveUpdater "a1" "c1" "c2"
             (ApisWindow.apiCollections three_collections)))
       (Visualizer.allApis (ApisWindow.apiCollections three_collections)).
Proof.
  split; [reflexivity|].
  refine (proj1 (moveUpdater_moves (ApisWindow.apiCollections three_collections)
            (mkCollection "c1" "Users" [endpoint_of "a1" "ListUsers" "/api/users" GET])
            (mkCollection "c2" "Orders" [endpoint_of "a2" "ListOrders" "/api/orders" GET])
            (endpoint_of "a1" "ListUsers" "/api/users" GET) _ _ _ _ _)).
  - distinct_names.
  - now left.
  - right. right. now left.
  - distinct_names.
  - now left.
Defined.

(** X2. Moving an endpoint to an id that no collection of the window has
    does what deleting it from the source does: the endpoint is taken out
    of the source and added nowhere.  Moving or deleting an endpoint that
    no collection of the source id holds leaves the collections as they
    are. *)
Theorem moveUpdater_unknown_destination (apiId from to : string)
    (prev : list ApiCollection) :
  ((forall c, In c prev -> coll_id c <> to) ->
   ApisWindow.moveUpdater apiId from to prev
   = ApisWindow.deleteApiUpdater apiId from prev)
  /\ ((forall c, In c prev -> coll_id c = from ->
                 forall a, In a (coll_apis c) -> item_id a <> apiId) ->
      ApisWindow.moveUpdater apiId from to prev = prev
      /\ ApisWindow.deleteApiUpdater apiId from prev = prev).
Proof.
  split.
  - intros Hto. unfold ApisWindow.moveUpdater.
    rewrite EndpointFacts.removeFromSource_fst.
    destruct (snd _) as [a|]; auto.
    apply map_id_on. intros c Hc. unfold ApisWindow.has_id.
    destruct (String.eqb_spec (coll_id c) to) as [E|]; auto.
    apply in_map_iff in Hc as [x [Ex Hx]]. exfalso. apply (Hto x Hx).
    rewrite <- E, <- Ex. now destruct (ApisWindow.has_id from x).
  - intros Habs. unfold ApisWindow.moveUpdater.
    rewrite EndpointFacts.removeFromSource_fst.
    rewrite EndpointFacts.removeFromSource_absent; auto.
    split; now apply EndpointFacts.deleteApiUpdater_absent.
Qed.

Lemma moveUpdater_unknown_destination_witness :
  ApisWindow.moveUpdater "a1" "c1" "c9" (ApisWindow.apiCollections three_collections)
  = [mkCollection "c1" "Users" [];
     mkCollection "c0" "Uncategorized" [endpoint_of "a0" "Ping" "/api/ping" GET];
     mkCollection "c2" "Orders" [endpoint_of "a2" "ListOrders" "/api/orders" GET]]
  /\ ApisWindow.moveUpdater "a7" "c1" "c2" (ApisWindow.apiCollections three_collections)
     = ApisWindow.apiCollections three_collections.
Proof.
  split.
  - rewrite (proj1 (moveUpdater_unknown_destination "a1" "c1" "c9"
                      (ApisWindow.apiCollections three_collections))).
    + reflexivity.
    + cbn. intuition (subst; discriminate).
  - apply (proj2 (moveUpdater_unknown_destination "a7" "c1" "c2"
                    (ApisWindow.apiCollections three_collections))).
    cbn. intros c [<-|[<-|[<-|[]]]] E a; cbn; try discriminate.
    intros [<-|[]]. cbn. discriminate.
Defined.

(** X3. In a window whose collections have distinct ids, deleting an
    endpoint that its collection holds (under an id that no other endpoint
    of the collection has) takes exactly that endpoint out of the
    endpoints of the window; the collections keep their ids, names and
    order, and deleting it a second time changes nothing. *)
Theorem deleteApiUpdater_removes_one (prev : list ApiCollection)
    (src : ApiCollection) (a : Api) :
  NoDup (map coll_id prev) ->
  In src prev ->
  NoDup (map item_id (coll_apis src)) ->
  In a (coll_apis src) ->
  let after := ApisWindow.deleteApiUpdater (item_id a) (coll_id src) prev in
  Permutation (a :: Visualizer.allApis after) (Visualizer.allApis prev)
  /\ map coll_id after = map coll_id prev
  /\ map coll_name after = map coll_name prev
  /\ ApisWindow.deleteApiUpdater (item_id a) (coll_id src) after = after.
Proof.
  intros Hnd Hsrc Hapis Ha after. unfold after.
  split; [|split; [|split]].
  - now apply EndpointFacts.deleteApiUpdater_one.
  - apply EndpointFacts.deleteApiUpdater_ids.
  - apply EndpointFacts.deleteApiUpdater_names.
  - apply EndpointFacts.deleteApiUpdater_absent.
    intros c Hc Ec x Hx.
    apply in_map_iff in Hc as [c0 [E Hc0]].
    unfold ApisWindow.has_id in E.
    destruct (String.eqb_spec (coll_id c0) (coll_id src)) as [E0|E0].
    + subst c. cbn [coll_apis] in Hx. apply filter_In in Hx as [_ Hx].
      apply negb_true_iff in Hx. now apply String.eqb_neq in Hx.
    + subst c. congruence.
Qed.

Lemma deleteApiUpdater_removes_one_witness :
  Permutation
    (endpoint_of "a1" "ListUsers" "/api/users" GET
     :: Visualizer.allApis
          (ApisWindow.deleteApiUpdater "a1" "c1"
             (ApisWindow.apiCollections three_collections)))
    (Visualizer.allApis (ApisWindow.apiCollections three_collections)).
Proof.
  refine (proj1 (deleteApiUpdater_removes_one
            (ApisWindow.apiCollections three_collections)
            (mkCollection "c1" "Users" [endpoint_of "a1" "ListUsers" "/api/users" GET])
            (endpoint_of "a1" "ListUsers" "/api/users" GET) _ _ _ _)).
  - distinct_names.
  - now left.
  - distinct_names.
  - now left.
Defined.

(** ** The collections of the window: catch-all, adding, merging *)

Module CollectionFacts.
Import ApisWindow.

Lemma find_app_fresh (p : ApiCollection -> bool) colls x :
  (forall c, In c colls -> p c = false) ->
  find p (colls ++ [x]) = find p [x].
Proof.
  induction colls as [|c colls IH]; intros Hp; [reflexivity|].
  cbn [app find]. rewrite (Hp c) by now left.
  apply IH. intros y Hy. apply Hp. now right.
Qed.

Lemma existsb_find (p : ApiCollection -> bool) colls :
  existsb p colls = true -> exists u, find p colls = Some u /\ p u = true /\ In u colls.
Proof.
  induction colls as [|c colls IH]; [discriminate|].
  cbn [existsb find]. destruct (p c) eqn:E.
  - intros _. exists c. repeat split; auto. now left.
  - cbn [orb]. intros H. destruct (IH H) as [u [Hf [Hu Hin]]].
    exists u. repeat split; auto. now right.
Qed.

Lemma push_apis_headers i apis updated :
  map (fun c => (coll_id c, coll_name c)) (push_apis i apis updated)
  = map (fun c => (coll_id c, coll_name c)) updated.
Proof.
  revert i. induction updated as [|c updated IH]; intros [|i]; cbn; auto.
  now rewrite IH.
Qed.

Lemma push_apis_endpoints i apis updated :
  (i < List.length updated)%nat ->
  Permutation (flat_map coll_apis (push_apis i apis updated))
              (flat_map coll_apis updated ++ apis).
Proof.
  revert i. induction updated as [|c updated IH]; intros i Hi; cbn in Hi; [lia|].
  destruct i as [|i]; cbn [push_apis flat_map coll_apis].
  - rewrite <- !app_assoc. apply Permutation_app_head. apply Permutation_app_comm.
  - rewrite <- app_assoc. apply Permutation_app_head. apply IH. lia.
Qed.

Lemma collectionMap_index (prev : list ApiCollection) k i :
  JsMap.get k
    (JsMap.of_entries
       (map (fun ic : nat * ApiCollection => (coll_name (snd ic), fst ic))
            (combine (seq 0 (List.length prev)) prev))) = Some i ->
  (i < List.length prev)%nat.
Proof.
  intros Hget. apply JsMapFacts.get_In, JsMapFacts.In_of_entries in Hget.
  apply in_map_iff in Hget as [[j c] [E Hin]]. cbn in E. inversion E; subst.
  apply in_combine_l in Hin. apply in_seq in Hin. lia.
Qed.

Lemma merge_loop (collectionMap : JsMap.t nat) (bound : nat) newCollections :
  (forall k i, JsMap.get k collectionMap = Some i -> (i < bound)%nat) ->
  forall updated, (bound <= List.length updated)%nat ->
  let merged :=
    fold_left
      (fun updated newCollection =>
         match JsMap.get (coll_name newCollection) collectionMap with
         | Some existing => push_apis existing (coll_apis newCollection) updated
         | None => updated ++ [newCollection]
         end)
      newCollections updated in
  Permutation (flat_map coll_apis merged)
              (flat_map coll_apis updated ++ flat_map coll_apis newCollections)
  /\ exists added,
       map (fun c => (coll_id c, coll_name c)) merged
       = map (fun c => (coll_id c, coll_name c)) updated ++ added.
Proof.
  intros Hidx.
  induction newCollections as [|nc newCollections IH]; intros updated Hlen.
  - cbn. rewrite app_nil_r. split; auto. exists []. now rewrite app_nil_r.
  - cbn [fold_left flat_map].
    destruct (JsMap.get (coll_name nc) collectionMap) as [i|] eqn:Hget.
    + apply Hidx in Hget.
      destruct (IH (push_apis i (coll_apis nc) updated)) as [Hperm [added Hadded]].
      { rewrite <- (length_map (fun c => (coll_id c, coll_name c))).
        rewrite push_apis_headers, length_map. lia. }
      split.
      * cbn zeta. rewrite Hperm. rewrite app_assoc. apply Permutation_app_tail.
        apply push_apis_endpoints. lia.
      * exists added. cbn zeta. now rewrite Hadded, push_apis_headers.
    + destruct (IH (updated ++ [nc])) as [Hperm [added Hadded]].
      { rewrite length_app. lia. }
      split.
      * cbn zeta. rewrite Hperm. rewrite flat_map_app. cbn [flat_map].
        rewrite app_nil_r. now rewrite <- app_assoc.
      * exists ((coll_id nc, coll_name nc) :: added).
        cbn zeta. rewrite Hadded, map_app. cbn [map]. now rewrite <- app_assoc.
Qed.

Lemma mergeUpdater_spec newCollections prev :
  Permutation (flat_map coll_apis (mergeUpdater newCollections prev))
              (flat_map coll_apis prev ++ flat_map coll_apis newCollections)
  /\ exists added,
       map (fun c => (coll_id c, coll_name c)) (mergeUpdater newCollections prev)
       = map (fun c => (coll_id c, coll_name c)) prev ++ added.
Proof.
  unfold mergeUpdater.
  apply (merge_loop _ (List.length prev)); [|lia].
  apply collectionMap_index.
Qed.

Lemma ensure_catch_all clock st n :
  let st' := fst (fst (ensureUncategorizedCollection clock st n)) in
  existsb is_uncategorized (apiCollections st') = true
  /\ exists extra,
       apiCollections st' = apiCollections st ++ extra
       /\ flat_map coll_apis extra = [].
Proof.
  unfold ensureUncategorizedCollection.
  destruct (existsb is_uncategorized (apiCollections st)) eqn:Hhas; cbn [negb].
  - cbn [ret fst]. split; auto. exists []. now rewrite app_nil_r.
  - rewrite bind_run. cbn [Date_now ret fst apiCollections].
    rewrite existsb_app. cbn [existsb]. rewrite orb_true_r.
    split; [reflexivity|]. eexists. split; reflexivity.
Qed.

End CollectionFacts.

(** X4. After [ensureUncategorizedCollection] the window has a catch-all
    collection; the collections it had are kept, in place, and what is
    appended holds no endpoint; the id returned is the id of a catch-all
    of the window; and a second call changes nothing, reads no clock and
    returns the same id. *)
Theorem ensureUncategorizedCollection_ensures (clock : nat -> Z)
    (st : ApisWindow.State) (n : nat) :
  let r := ApisWindow.ensureUncategorizedCollection clock st n in
  let st' := fst (fst r) in
  existsb ApisWindow.is_uncategorized (ApisWindow.apiCollections st') = true
  /\ (exists extra,
        ApisWindow.apiCollections st' = ApisWindow.apiCollections st ++ extra
        /\ Visualizer.allApis extra = [])
  /\ (forall id, snd (fst r) = Some id ->
        exists c, In c (ApisWindow.apiCollections st')
                  /\ coll_id c = id /\ ApisWindow.is_uncategorized c = true)
  /\ ApisWindow.ensureUncategorizedCollection clock st' (snd r) = r.
Proof.
  unfold ApisWindow.ensureUncategorizedCollection.
  destruct (existsb ApisWindow.is_uncategorized (ApisWindow.apiCollections st))
    eqn:Hhas; cbn [negb].
  - cbn [ret fst snd]. rewrite Hhas. cbn [negb].
    split; [reflexivity|split; [|split; [|reflexivity]]].
    + exists []. now rewrite app_nil_r.
    + intros id Hid.
      destruct (CollectionFacts.existsb_find _ _ Hhas) as [u [Hf [Hu Hin]]].
      rewrite Hf in Hid. cbn in Hid.
      destruct (String.eqb (coll_id u) EmptyString); inversion Hid; subst.
      now exists u.
  - rewrite bind_run. cbn [Date_now ret fst snd ApisWindow.apiCollections].
    assert (Hnone : forall c, In c (ApisWindow.apiCollections st) ->
                              ApisWindow.is_uncategorized c = false).
    { intros c Hc. destruct (ApisWindow.is_uncategorized c) eqn:E; auto.
      assert (existsb ApisWindow.is_uncategorized (ApisWindow.apiCollections st) = true)
        by (apply existsb_exists; eauto).
      congruence. }
    rewrite existsb_app. cbn [existsb]. rewrite orb_true_r.
    split; [reflexivity|split; [|split]].
    + eexists. split; reflexivity.
    + intros id Hid. inversion Hid; subst. eexists.
      split; [apply in_or_app; right; now left|]. split; reflexivity.
    + cbn [negb ret]. rewrite CollectionFacts.find_app_fresh by assumption.
      reflexivity.
Qed.

(** X5. A collection added by [handleAddCollection] becomes the active
    one and is not the catch-all.  When the window has a catch-all and no
    collection has the id of the added one, deleting the added collection
    through the window gives back the collections as they were before it
    was added; the deletion reads the clock once, for the id of the toast
    that reports it. *)
Theorem handleAddCollection_then_delete (clock : nat -> Z)
    (st : ApisWindow.State) (n k : nat) :
  let newId := ("coll-" ++ JsString.of_Z (clock n))%string in
  existsb ApisWindow.is_uncategorized (ApisWindow.apiCollections st) = true ->
  ~ In newId (map coll_id (ApisWindow.apiCollections st)) ->
  let added := fst (ApisWindow.handleAddCollection clock st n) in
  ApisWindow.activeCollectionId added = Some newId
  /\ (exists c, ApisWindow.apiCollections added = ApisWindow.apiCollections st ++ [c]
                /\ coll_id c = newId /\ coll_apis c = []
                /\ ApisWindow.is_uncategorized c = false)
  /\ ApisWindow.apiCollections (fst (ApisWindow.deleteCollection clock newId added k))
     = ApisWindow.apiCollections st
  /\ snd (ApisWindow.deleteCollection clock newId added k) = S k
  /\ exists message,
       ApisWindow.toasts (fst (ApisWindow.deleteCollection clock newId added k))
       = ApisWindow.toasts st ++ [mkToast (clock k) message success].
Proof.
  intros newId Hhas Hfresh added.
  unfold added, ApisWindow.handleAddCollection.
  rewrite bind_run. cbn [Date_now ret fst ApisWindow.activeCollectionId
                         ApisWindow.apiCollections coll_id].
  fold newId.
  set (c := mkCollection newId _ []).
  assert (Hc : ApisWindow.is_uncategorized c = false) by reflexivity.
  split; [reflexivity|split].
  { exists c. repeat split; auto. }
  assert (Hfind : find (ApisWindow.has_id newId) (ApisWindow.apiCollections st ++ [c])
                  = Some c).
  { rewrite CollectionFacts.find_app_fresh.
    - cbn [find]. unfold ApisWindow.has_id. cbn [coll_id c].
      now rewrite String.eqb_refl.
    - intros x Hx. unfold ApisWindow.has_id. apply String.eqb_neq.
      intros E. apply Hfresh. rewrite <- E. now apply in_map. }
  unfold ApisWindow.deleteCollection, ApisWindow.requestDeleteCollection.
  cbn [ApisWindow.apiCollections]. rewrite Hfind, Hc.
  unfold ApisWindow.handleConfirmCollectionDelete.
  cbn [ApisWindow.collectionConfirmationState ApisWindow.collectionId
       ApisWindow.truthy_id].
  replace (String.eqb newId EmptyString) with false by reflexivity.
  rewrite bind_run. cbn [ApisWindow.apiCollections ApisWindow.activeCollectionId].
  unfold ApisWindow.deleteUpdater. rewrite Hfind.
  assert (Hrem : filter (fun x => negb (ApisWindow.has_id newId x))
                        (ApisWindow.apiCollections st ++ [c])
                 = ApisWindow.apiCollections st).
  { rewrite filter_app. cbn [filter]. unfold ApisWindow.has_id at 2.
    cbn [coll_id c]. rewrite String.eqb_refl. cbn [negb]. rewrite app_nil_r.
    apply forallb_filter_id. apply forallb_forall. intros x Hx.
    apply negb_true_iff. unfold ApisWindow.has_id. apply String.eqb_neq.
    intros E. apply Hfresh. rewrite <- E. now apply in_map. }
  rewrite Hrem.
  destruct (CollectionFacts.existsb_find _ _ Hhas) as [u [Hu _]].
  rewrite Hu. unfold addToast. rewrite !bind_run.
  cbn [ret fst snd coll_apis c Date_now].
  cbn [ApisWindow.handleCancelCollectionDelete ApisWindow.apiCollections
       ApisWindow.toasts].
  split; [|split; [reflexivity|eexists; reflexivity]].
  apply map_id_on. intros x Hx.
  destruct (ApisWindow.has_id (coll_id u) x); auto.
  rewrite app_nil_r. now destruct x.
Qed.

Lemma handleAddCollection_then_delete_witness :
  ApisWindow.apiCollections
    (fst (ApisWindow.deleteCollection tick "coll-4"
            (fst (ApisWindow.handleAddCollection tick three_collections 4)) 5))
  = ApisWindow.apiCollections three_collections.
Proof.
  refine (proj1 (proj2 (proj2
            (handleAddCollection_then_delete tick three_collections 4 5 _ _)))).
  - reflexivity.
  - cbn. intuition discriminate.
Defined.

(** X6. When there is at least one schema and the generation service
    answers with collections, [handleSendMessage] leaves a window that has
    a catch-all and whose endpoints are the endpoints it had and the
    generated ones, none lost, none repeated; the collections that the
    window had keep their ids, names and places. *)
Theorem handleSendMessage_merges (clock : nat -> Z) (models : list Model)
    (newCollections : list ApiCollection) (st : ApisWindow.State) (n : nat) :
  models <> [] ->
  let st' :=
    fst (ApisWindow.handleSendMessage clock models
           (ApisWindow.Collections newCollections) st n) in
  Permutation (Visualizer.allApis (ApisWindow.apiCollections st'))
              (Visualizer.allApis (ApisWindow.apiCollections st)
               ++ Visualizer.allApis newCollections)
  /\ existsb ApisWindow.is_uncategorized (ApisWindow.apiCollections st') = true
  /\ exists added,
       map (fun c => (coll_id c, coll_name c)) (ApisWindow.apiCollections st')
       = map (fun c => (coll_id c, coll_name c)) (ApisWindow.apiCollections st)
         ++ added.
Proof.
  intros Hmodels st'. unfold st', ApisWindow.handleSendMessage.
  destruct models as [|m models]; [congruence|]. cbn [List.length Nat.eqb].
  rewrite bind_run.
  pose proof (CollectionFacts.ensure_catch_all clock st n) as He.
  destruct (ApisWindow.ensureUncategorizedCollection clock st n) as [[st1 rid] n1].
  cbn [fst snd] in He. destruct He as [Hhas [extra [Hextra Hnone]]].
  unfold ApisWindow.raise. rewrite bind_run.
  cbn [fst ret ApisWindow.apiCollections].
  destruct (CollectionFacts.mergeUpdater_spec newCollections
              (ApisWindow.apiCollections st1)) as [Hperm [added Hadded]].
  split; [|split].
  - unfold Visualizer.allApis in *. rewrite Hperm, Hextra, flat_map_app, Hnone.
    now rewrite app_nil_r.
  - apply existsb_exists in Hhas as [u [Hu Hname]].
    apply existsb_exists.
    assert (Hin : In (coll_id u, coll_name u)
                     (map (fun c => (coll_id c, coll_name c))
                          (ApisWindow.mergeUpdater newCollections
                             (ApisWindow.apiCollections st1)))).
    { rewrite Hadded. apply in_or_app. left.
      now apply (in_map (fun c => (coll_id c, coll_name c))). }
    apply in_map_iff in Hin as [c [E Hc]]. inversion E.
    exists c. split; auto. unfold ApisWindow.is_uncategorized in *. congruence.
  - exists (map (fun c => (coll_id c, coll_name c)) extra ++ added).
    now rewrite Hadded, Hextra, map_app, <- app_assoc.
Qed.

Lemma handleSendMessage_merges_witness :
  map coll_apis
    (ApisWindow.apiCollections
       (fst (ApisWindow.handleSendMessage tick [schema "m1" "User"]
               (ApisWindow.Collections
                  [mkCollection "g1" "Orders"
                     [endpoint_of "a3" "CreateOrder" "/api/orders" POST];
                   mkCollection "g2" "Billing"
                     [endpoint_of "a4" "ListBills" "/api/bills" GET]])
               three_collections 4)))
  = [[endpoint_of "a1" "ListUsers" "/api/users" GET];
     [endpoint_of "a0" "Ping" "/api/ping" GET];
     [endpoint_of "a2" "ListOrders" "/api/orders" GET;
      endpoint_of "a3" "CreateOrder" "/api/orders" POST];
     [endpoint_of "a4" "ListBills" "/api/bills" GET]]
  /\ Permutation
       (Visualizer.allApis
          (ApisWindow.apiCollections
             (fst (ApisWindow.handleSendMessage tick [schema "m1" "User"]
                     (ApisWindow.Collections
                        [mkCollection "g1" "Orders"
                           [endpoint_of "a3" "CreateOrder" "/api/orders" POST];
                         mkCollection "g2" "Billing"
                           [endpoint_of "a4" "ListBills" "/api/bills" GET]])
                     three_collections 4))))
       (Visualizer.allApis (ApisWindow.apiCollections three_collections)
        ++ Visualizer.allApis
             [mkCollection "g1" "Orders"
                [endpoint_of "a3" "CreateOrder" "/api/orders" POST];
              mkCollection "g2" "Billing"
                [endpoint_of "a4" "ListBills" "/api/bills" GET]]).
Proof.
  split; [reflexivity|].
  apply (handleSendMessage_merges tick [schema "m1" "User"]).
  discriminate.
Defined.

(** ** Versioning of the endpoints *)

#[export] Instance ApiData_ContentLaws : ContentLaws ApiData.
Proof.
  constructor. intros a b. cbn. unfold ApiData_eqb. split.
  - intros E. repeat (apply andb_true_iff in E as [E ?]).
    destruct a as [n1 e1 m1 d1 c1 q1 r1], b as [n2 e2 m2 d2 c2 q2 r2]. cbn in *.
    repeat match goal with
           | H : String.eqb _ _ = true |- _ => apply String.eqb_eq in H
           end.
    assert (m1 = m2) by (destruct m1, m2; cbn in *; congruence).
    assert (q1 = q2).
    { destruct q1, q2; cbn in *; try discriminate; auto.
      f_equal. now apply String.eqb_eq. }
    assert (r1 = r2).
    { destruct r1, r2; cbn in *; try discriminate; auto.
      f_equal. now apply String.eqb_eq. }
    congruence.
  - intros <-. rewrite !String.eqb_refl.
    destruct (api_requestBodyExample a), (api_responseBodyExample a); cbn;
      now rewrite ?String.eqb_refl.
Qed.

Module ApiVersioningFacts.

Lemma handleCommitApis_collections clock message colls n :
  flat_map coll_apis colls <> [] ->
  handleCommitApis clock message colls n
  = ((map (fun c => mkCollection (coll_id c) (coll_name c)
                      (map (commit_item (clock n) message) (coll_apis c))) colls,
      mkToast (clock (S n)) "Committed APIs." success),
     S (S n)).
Proof.
  intros Hne. unfold handleCommitApis.
  destruct (flat_map coll_apis colls) as [|a l] eqn:E; [congruence|].
  cbn [List.length Nat.eqb]. rewrite bind_run. reflexivity.
Qed.

Lemma revertApiOne_revertOne clock apiId target (a : Api) n :
  revertApiOne clock apiId target a n = revertOne clock apiId target a n.
Proof. reflexivity. Qed.

Lemma mapM_revertApiOne clock apiId target (apis : list Api) n :
  mapM (revertApiOne clock apiId target) apis n
  = mapM (revertOne clock apiId target) apis n.
Proof.
  revert n. induction apis as [|a apis IH]; intros n; [reflexivity|].
  rewrite !mapM_cons, revertApiOne_revertOne. now rewrite IH.
Qed.

Lemma revertApi_other clock cid aid target colls n :
  (forall c, In c colls -> coll_id c <> cid) ->
  revertApi clock cid aid target colls n
  = ((colls, mkToast (clock n) "API reverted successfully!" success), S n).
Proof.
  intros Hids. unfold revertApi. rewrite bind_run.
  rewrite (mapM_pure _ (fun c => c)).
  - cbn [fst snd]. rewrite bind_run. cbn [addToast fst snd].
    unfold addToast. rewrite bind_run. cbn [Date_now ret fst snd].
    now rewrite map_id.
  - intros c m Hc. destruct (String.eqb_spec (coll_id c) cid); [|reflexivity].
    now apply Hids in Hc.
Qed.

Lemma ret_run {A} (a : A) n : ret a n = (a, n).
Proof. reflexivity. Qed.

Lemma mapM_collections clock aid target colls c :
  NoDup (map coll_id colls) -> In c colls -> forall n,
  mapM (fun collection =>
          if String.eqb (coll_id collection) (coll_id c) then
            updatedApis <- mapM (revertApiOne clock aid target)
                                (coll_apis collection) ;;
            ret (mkCollection (coll_id collection) (coll_name collection)
                              updatedApis)
          else ret collection) colls n
  = (map (fun x => if String.eqb (coll_id x) (coll_id c)
                   then mkCollection (coll_id x) (coll_name x)
                          (fst (mapM (revertOne clock aid target) (coll_apis c) n))
                   else x) colls,
     snd (mapM (revertOne clock aid target) (coll_apis c) n)).
Proof.
  induction colls as [|x colls IH]; intros Hnd Hc n; [contradiction|].
  cbn [map] in Hnd. inversion Hnd as [|? ? Hx Hnd']; subst.
  rewrite mapM_cons. cbn [map].
  destruct (String.eqb_spec (coll_id x) (coll_id c)) as [E|Hne].
  - assert (x = c) as ->.
    { destruct Hc as [->|Hc]; auto. exfalso. apply Hx. rewrite E. now apply in_map. }
    rewrite bind_run, ret_run. cbn [fst snd].
    rewrite mapM_revertApiOne.
    match goal with
    | |- context [mapM ?F colls _] =>
        assert (Hrest : forall m, mapM F colls m = (colls, m))
    end.
    { intros m. rewrite (mapM_pure _ (fun c => c)); [now rewrite map_id|].
      intros y k Hy.
      destruct (String.eqb_spec (coll_id y) (coll_id c)) as [E'|]; auto.
      exfalso. apply Hx. rewrite <- E'. now apply in_map. }
    rewrite !Hrest. cbn [fst snd]. f_equal. f_equal.
    symmetry. apply map_id_on. intros y Hy.
    destruct (String.eqb_spec (coll_id y) (coll_id c)) as [E'|]; auto.
    exfalso. apply Hx. rewrite <- E'. now apply in_map.
  - destruct Hc as [->|Hc]; [congruence|]. rewrite ret_run. cbn [fst snd].
    now rewrite IH.
Qed.

End ApiVersioningFacts.

(** X7. When the collections hold no endpoint, [handleCommitApis] changes
    nothing and raises an error toast, for whose id it reads the clock
    once.  Otherwise it reads the clock twice, for the timestamp of the
    entries and then for the id of the toast, and commits the endpoints of
    every collection as [handleCommit] commits a collection at the first
    reading: the collections keep their ids and names, the endpoints keep
    their ids and contents, the top snapshot of every endpoint then equals
    its content, and committing again changes nothing. *)
Theorem handleCommitApis_commits (clock : nat -> Z) (message : string)
    (colls : list ApiCollection) (n : nat) :
  (Visualizer.allApis colls = [] ->
   handleCommitApis clock message colls n
   = ((colls, mkToast (clock n) "Nothing to commit." error), S n))
  /\ (Visualizer.allApis colls <> [] ->
      let r := handleCommitApis clock message colls n in
      let after := fst (fst r) in
      snd r = S (S n)
      /\ snd (fst r) = mkToast (clock (S n)) "Committed APIs." success
      /\ after
         = map (fun c => mkCollection (coll_id c) (coll_name c)
                           (fst (fst (handleCommit clock message (coll_apis c) n))))
               colls
      /\ map (fun a => (item_id a, item_rest a)) (Visualizer.allApis after)
         = map (fun a => (item_id a, item_rest a)) (Visualizer.allApis colls)
      /\ Forall committed (Visualizer.allApis after)
      /\ forall message' k,
           fst (fst (handleCommitApis clock message' after k)) = after).
Proof.
  unfold Visualizer.allApis. split.
  - intros E. unfold handleCommitApis. now rewrite E.
  - intros Hne.
    rewrite ApiVersioningFacts.handleCommitApis_collections by assumption.
    cbn [fst snd].
    assert (Hcommitted :
              Forall committed
                (flat_map coll_apis
                   (map (fun c => mkCollection (coll_id c) (coll_name c)
                                    (map (commit_item (clock n) message) (coll_apis c)))
                        colls))).
    { apply Forall_forall. intros a Ha. apply in_flat_map in Ha as [c' [Hc' Ha]].
      apply in_map_iff in Hc' as [c [<- _]]. cbn [coll_apis] in Ha.
      apply in_map_iff in Ha as [a0 [<- _]]. apply committed_commit_item. }
    split; [reflexivity|split; [reflexivity|split; [|split; [|split]]]].
    + apply map_ext. intros c. now rewrite handleCommit_map.
    + clear Hne Hcommitted. induction colls as [|c colls IH]; [reflexivity|].
      cbn [map flat_map coll_apis]. rewrite !map_app. f_equal; [|exact IH].
      rewrite map_map. apply map_ext. intros a. unfold commit_item.
      destruct (item_history a) as [|h0 tl]; [reflexivity|].
      now destruct (same_json (data h0) (item_rest a)).
    + exact Hcommitted.
    + intros message' k.
      set (after' := map _ colls) in *.
      destruct (flat_map coll_apis after') as [|a l] eqn:E.
      * unfold handleCommitApis. now rewrite E.
      * rewrite ApiVersioningFacts.handleCommitApis_collections
          by (rewrite E; discriminate).
        cbn [fst]. apply map_id_on. intros c Hc.
        rewrite (map_id_on (commit_item (clock k) message')).
        -- now destruct c.
        -- intros a0 Ha0. apply commit_item_committed.
           rewrite Forall_forall in Hcommitted. apply Hcommitted.
           rewrite <- E. apply in_flat_map. eauto.
Qed.

Lemma handleCommitApis_commits_witness :
  snd (handleCommitApis tick "first" (ApisWindow.apiCollections three_collections) 4) = 6
  /\ Forall committed
       (Visualizer.allApis
          (fst (fst (handleCommitApis tick "first"
                       (ApisWindow.apiCollections three_collections) 4))))
  /\ handleCommitApis tick "first" [mkCollection "c1" "Users" []] 4
     = (([mkCollection "c1" "Users" []], mkToast 4 "Nothing to commit." error), 5).
Proof.
  pose proof (handleCommitApis_commits tick "first"
                (ApisWindow.apiCollections three_collections) 4) as [_ H].
  destruct H as [H1 [_ [_ [_ [H4 _]]]]]; [discriminate|].
  split; [exact H1|split; [exact H4|]].
  apply (proj1 (handleCommitApis_commits tick "first" [mkCollection "c1" "Users" []] 4)).
  reflexivity.
Defined.

(** X8. In collections of distinct ids, [revertApi] does inside the
    collection it names what [revertItem] does to a collection of
    artifacts, with the same readings of the clock, the last of them for
    the id of the toast, and leaves the other collections as they are.
    When no collection has the id named, it changes nothing, and the
    toast, for whose id it reads the clock once, still reports a
    success. *)
Theorem revertApi_in_collection (clock : nat -> Z) (cid aid : string) (target : Z)
    (colls : list ApiCollection) (n : nat) :
  (NoDup (map coll_id colls) ->
   forall c, In c colls -> coll_id c = cid ->
     let r0 := revertItem clock aid target (coll_apis c) n in
     revertApi clock cid aid target colls n
     = ((map (fun x => if String.eqb (coll_id x) cid
                       then mkCollection (coll_id x) (coll_name x) (fst (fst r0))
                       else x) colls,
         mkToast (toast_id (snd (fst r0))) "API reverted successfully!" success),
        snd r0))
  /\ ((forall c, In c colls -> coll_id c <> cid) ->
      revertApi clock cid aid target colls n
      = ((colls, mkToast (clock n) "API reverted successfully!" success), S n)).
Proof.
  split; [|apply ApiVersioningFacts.revertApi_other].
  intros Hnd c Hc Hcid r0. unfold r0. clear r0. subst cid.
  rewrite revertItem_run. cbn [fst snd toast_id].
  unfold revertApi. rewrite bind_run.
  rewrite ApiVersioningFacts.mapM_collections by assumption.
  cbn [fst snd]. unfold addToast. now rewrite !bind_run.
Qed.

Lemma revertApi_in_collection_witness :
  revertApi tick "c1" "a1" 7 [mkCollection "c1" "Users" [versioned_endpoint]] 9
  = (([mkCollection "c1" "Users"
         [mkItem "a1" (api_data "ListUsers" "/api/users" GET "x")
            [mkEntry 9%Z (api_data "ListUsers" "/api/users" GET "y") (Some "Reverted");
             mkEntry 2%Z (api_data "ListUsers" "/api/users" GET "w") None]]],
      mkToast 10 "API reverted successfully!" success), 11)
  /\ revertApi tick "c9" "a1" 7 [mkCollection "c1" "Users" [versioned_endpoint]] 9
     = (([mkCollection "c1" "Users" [versioned_endpoint]],
         mkToast 9 "API reverted successfully!" success), 10).
Proof.
  split.
  - rewrite (proj1 (revertApi_in_collection tick "c1" "a1" 7
                      [mkCollection "c1" "Users" [versioned_endpoint]] 9)
               ltac:(distinct_names)
               (mkCollection "c1" "Users" [versioned_endpoint])
               ltac:(now left) eq_refl).
    reflexivity.
  - apply (proj2 (revertApi_in_collection tick "c9" "a1" 7
                    [mkCollection "c1" "Users" [versioned_endpoint]] 9)).
    intros c [<-|[]]. discriminate.
Defined.

(** ** The sort of an array *)

Module JsArrayFacts.
Section Sort.
Context {A : Type}.
Variables (key : A -> Z) (compare : A -> A -> Z).
Hypothesis compare_key : forall a b, (compare a b <= 0)%Z <-> (key a <= key b)%Z.

Lemma In_insert x y l : In x (JsArray.insert compare y l) <-> x = y \/ In x l.
Proof.
  induction l as [|z l IH]; cbn [JsArray.insert In].
  - intuition.
  - destruct (compare y z <=? 0)%Z; cbn [In]; rewrite ?IH; intuition.
Qed.

Lemma In_sort x l : In x (JsArray.sort compare l) <-> In x l.
Proof.
  induction l as [|y l IH]; cbn [JsArray.sort fold_right In]; [tauto|].
  fold (JsArray.sort compare l). rewrite In_insert, IH. intuition.
Qed.

Lemma insert_sorted x l :
  StronglySorted (fun a b => (key a <= key b)%Z) l ->
  StronglySorted (fun a b => (key a <= key b)%Z) (JsArray.insert compare x l).
Proof.
  induction l as [|y l IH]; intros Hs; cbn [JsArray.insert].
  - repeat constructor.
  - inversion Hs as [|? ? Hs' Hy]; subst.
    destruct (Z.leb_spec (compare x y) 0) as [Hle|Hgt].
    + apply compare_key in Hle. constructor; auto. constructor; [exact Hle|].
      eapply Forall_impl; [|exact Hy]. intros a Ha. cbn beta in *. lia.
    + assert (Hyx : (key y <= key x)%Z).
      { destruct (Z.le_gt_cases (key x) (key y)) as [H|H]; [|lia].
        apply compare_key in H. lia. }
      constructor; auto. apply Forall_forall. intros z Hz.
      apply In_insert in Hz as [->|Hz]; [exact Hyx|].
      rewrite Forall_forall in Hy. now apply Hy.
Qed.

Lemma sort_sorted l :
  StronglySorted (fun a b => (key a <= key b)%Z) (JsArray.sort compare l).
Proof.
  induction l as [|x l IH]; cbn [JsArray.sort fold_right]; [constructor|].
  fold (JsArray.sort compare l). now apply insert_sorted.
Qed.

Lemma insert_NoDup x l : ~ In x l -> NoDup l -> NoDup (JsArray.insert compare x l).
Proof.
  induction l as [|y l IH]; intros Hx Hnd; cbn [JsArray.insert].
  - repeat constructor. tauto.
  - destruct (compare x y <=? 0)%Z.
    + now constructor.
    + inversion Hnd; subst. constructor.
      * rewrite In_insert. intros [->|Hy]; [apply Hx; now left|contradiction].
      * apply IH; auto. intros Hi. apply Hx. now right.
Qed.

Lemma sort_NoDup l : NoDup l -> NoDup (JsArray.sort compare l).
Proof.
  induction l as [|x l IH]; intros Hnd; cbn [JsArray.sort fold_right]; [constructor|].
  fold (JsArray.sort compare l).
  inversion Hnd; subst. apply insert_NoDup; [now rewrite In_sort|now apply IH].
Qed.

Lemma insert_perm x l : Permutation (JsArray.insert compare x l) (x :: l).
Proof.
  induction l as [|y l IH]; cbn [JsArray.insert]; [reflexivity|].
  destruct (compare x y <=? 0)%Z; [reflexivity|].
  etransitivity; [apply perm_skip, IH|]. apply perm_swap.
Qed.

Lemma sort_perm l : Permutation (JsArray.sort compare l) l.
Proof.
  induction l as [|x l IH]; cbn [JsArray.sort fold_right]; [constructor|].
  fold (JsArray.sort compare l).
  etransitivity; [apply insert_perm|]. now apply perm_skip.
Qed.

End Sort.
End JsArrayFacts.

(** ** The window bar *)

Module WindowBarFacts.
Import WindowBar.

Lemma same_spec a b : same a b = true <-> a = b.
Proof. destruct a, b; cbn; split; intros E; try reflexivity; discriminate E. Qed.

Lemma same_refl a : same a a = true.
Proof. now apply same_spec. Qed.

Lemma rank_inj a b : rank a = rank b -> a = b.
Proof. destruct a, b; cbn; intros E; try reflexivity; discriminate E. Qed.

Lemma includes_In l w : includes l w = true <-> In w l.
Proof.
  unfold includes. rewrite existsb_exists. split.
  - intros [x [Hx E]]. apply same_spec in E. now subst.
  - intros Hw. exists w. split; auto. apply same_refl.
Qed.

Lemma all_values w : In w values.
Proof. destruct w; cbn; tauto. Qed.

Lemma compare_rank_key a b : (compare_rank a b <= 0)%Z <-> (rank a <= rank b)%Z.
Proof. unfold compare_rank, rank. lia. Qed.

Lemma In_by_rank x l : In x (JsArray.sort compare_rank l) <-> In x l.
Proof. apply JsArrayFacts.In_sort. Qed.

Lemma by_rank_sorted l :
  StronglySorted (fun a b => (rank a <= rank b)%Z) (JsArray.sort compare_rank l).
Proof. apply (JsArrayFacts.sort_sorted rank compare_rank compare_rank_key). Qed.

Lemma by_rank_NoDup l : NoDup l -> NoDup (JsArray.sort compare_rank l).
Proof. apply JsArrayFacts.sort_NoDup. Qed.

Lemma strictly l :
  StronglySorted (fun a b => (rank a <= rank b)%Z) l -> NoDup l ->
  StronglySorted (fun a b => (rank a < rank b)%Z) l.
Proof.
  induction l as [|x l IH]; intros Hs Hnd; [constructor|].
  inversion Hs as [|? ? Hs' Hx]; subst. inversion Hnd as [|? ? Hn Hnd']; subst.
  constructor; auto. apply Forall_forall. intros y Hy.
  rewrite Forall_forall in Hx. specialize (Hx y Hy).
  destruct (Z.eq_dec (rank x) (rank y)) as [E|]; [|lia].
  apply rank_inj in E. now subst.
Qed.

Lemma strict_NoDup l :
  StronglySorted (fun a b => (rank a < rank b)%Z) l -> NoDup l.
Proof.
  induction 1 as [|x l Hs IH Hx]; constructor; auto.
  intros Hi. rewrite Forall_forall in Hx. specialize (Hx x Hi). lia.
Qed.

Lemma strict_weaken l :
  StronglySorted (fun a b => (rank a < rank b)%Z) l ->
  StronglySorted (fun a b => (rank a <= rank b)%Z) l.
Proof.
  induction 1 as [|x l Hs IH Hx]; constructor; auto.
  eapply Forall_impl; [|exact Hx]. intros a Ha. cbn beta in *. lia.
Qed.

Lemma filter_sorted (R : WindowType -> WindowType -> Prop) (keep : WindowType -> bool)
    (l : list WindowType) (Hsorted : StronglySorted R l) :
  StronglySorted R (filter keep l).
Proof.
  induction Hsorted as [|x l Hs IH Hx]; cbn [filter]; [constructor|].
  destruct (keep x); auto. constructor; auto.
  apply Forall_forall. intros y Hy. apply filter_In in Hy as [Hy _].
  rewrite Forall_forall in Hx. now apply Hx.
Qed.

(** Two lists in strictly increasing order with the same elements. *)
Lemma strict_unique l1 : forall l2,
  StronglySorted (fun a b => (rank a < rank b)%Z) l1 ->
  StronglySorted (fun a b => (rank a < rank b)%Z) l2 ->
  (forall x, In x l1 <-> In x l2) -> l1 = l2.
Proof.
  induction l1 as [|a l1 IH]; intros [|b l2] H1 H2 Hin.
  - reflexivity.
  - exfalso. apply (Hin b). now left.
  - exfalso. apply (Hin a). now left.
  - inversion H1 as [|? ? H1' Ha]; subst. inversion H2 as [|? ? H2' Hb]; subst.
    rewrite Forall_forall in Ha, Hb.
    assert (a = b) as ->.
    { destruct (proj1 (Hin a) (or_introl eq_refl)) as [E|Ha2]; auto.
      destruct (proj2 (Hin b) (or_introl eq_refl)) as [E|Hb1]; auto.
      specialize (Ha b Hb1). specialize (Hb a Ha2). lia. }
    f_equal. apply IH; auto. intros x. split; intros Hx.
    + destruct (proj1 (Hin x) (or_intror Hx)) as [E|]; auto.
      subst x. specialize (Ha b Hx). lia.
    + destruct (proj2 (Hin x) (or_intror Hx)) as [E|]; auto.
      subst x. specialize (Hb b Hx). lia.
Qed.

Lemma toggleWindow_shown window prev :
  In window prev ->
  toggleWindow window prev = filter (fun w => negb (same w window)) prev.
Proof.
  intros Hw. unfold toggleWindow. now rewrite (proj2 (includes_In prev window) Hw).
Qed.

Lemma toggleWindow_hidden window prev :
  ~ In window prev ->
  toggleWindow window prev = JsArray.sort compare_rank (prev ++ [window]).
Proof.
  intros Hw. unfold toggleWindow.
  destruct (includes prev window) eqn:E; [|reflexivity].
  now apply includes_In in E.
Qed.

Lemma In_toggleWindow window prev w :
  In w (toggleWindow window prev)
  <-> (w = window /\ ~ In window prev) \/ (w <> window /\ In w prev).
Proof.
  destruct (in_dec (fun a b => match Bool.bool_dec (same a b) true with
                               | left E => left (proj1 (same_spec a b) E)
                               | right N => right (fun E => N (proj2 (same_spec a b) E))
                               end) window prev) as [Hw|Hw].
  - rewrite toggleWindow_shown by assumption. rewrite filter_In, negb_true_iff.
    split.
    + intros [Hi Hs]. right. split; auto. intros ->. now rewrite same_refl in Hs.
    + intros [[_ Hn]|[Hne Hi]]; [contradiction|]. split; auto.
      destruct (same w window) eqn:E; auto. now apply same_spec in E.
  - rewrite toggleWindow_hidden by assumption. rewrite In_by_rank, in_app_iff.
    cbn [In]. split.
    + intros [Hi|[<-|[]]]; [right|left; auto]. split; auto. now intros ->.
    + intros [[-> _]|[_ Hi]]; auto.
Qed.

Lemma toggleWindow_NoDup window prev : NoDup prev -> NoDup (toggleWindow window prev).
Proof.
  intros Hnd. destruct (includes prev window) eqn:E.
  - unfold toggleWindow. rewrite E. now apply NoDup_filter.
  - assert (Hw : ~ In window prev).
    { intros Hi. apply includes_In in Hi. congruence. }
    rewrite toggleWindow_hidden by assumption.
    apply by_rank_NoDup. apply NoDup_app; auto.
    + repeat constructor. tauto.
    + intros x Hx [<-|[]]. contradiction.
Qed.

End WindowBarFacts.

(** X9. Toggling a window of the bar changes whether that window is
    shown and of no other window; the windows offered for adding are then
    exactly the windows not shown.  When the window was hidden, the windows
    come out in the order of the enumeration.  A bar without a repeated
    window stays without one. *)
Theorem toggleWindow_flips (window : WindowBar.WindowType)
    (prev : list WindowBar.WindowType) :
  let next := WindowBar.toggleWindow window prev in
  (In window next <-> ~ In window prev)
  /\ (forall w, w <> window -> (In w next <-> In w prev))
  /\ (forall w, In w (WindowBar.availableWindowsToAdd next) <-> ~ In w next)
  /\ (~ In window prev ->
      StronglySorted (fun a b => (WindowBar.rank a <= WindowBar.rank b)%Z) next)
  /\ (NoDup prev -> NoDup next).
Proof.
  cbn zeta. split; [|split; [|split; [|split]]].
  - rewrite WindowBarFacts.In_toggleWindow. intuition.
  - intros w Hne. rewrite WindowBarFacts.In_toggleWindow. intuition.
  - intros w. unfold WindowBar.availableWindowsToAdd.
    rewrite filter_In, negb_true_iff. split.
    + intros [_ E] Hi. apply WindowBarFacts.includes_In in Hi. congruence.
    + intros Hn. split; [apply WindowBarFacts.all_values|].
      destruct (WindowBar.includes _ w) eqn:E; auto.
      now apply WindowBarFacts.includes_In in E.
  - intros Hw. rewrite WindowBarFacts.toggleWindow_hidden by assumption.
    apply WindowBarFacts.by_rank_sorted.
  - apply WindowBarFacts.toggleWindow_NoDup.
Qed.

Lemma toggleWindow_flips_witness :
  WindowBar.toggleWindow WindowBar.Controllers [WindowBar.Routes; WindowBar.Models]
  = [WindowBar.Models; WindowBar.Controllers; WindowBar.Routes]
  /\ StronglySorted (fun a b => (WindowBar.rank a <= WindowBar.rank b)%Z)
       (WindowBar.toggleWindow WindowBar.Controllers
          [WindowBar.Routes; WindowBar.Models]).
Proof.
  split; [reflexivity|].
  apply (proj1 (proj2 (proj2 (proj2
           (toggleWindow_flips WindowBar.Controllers
              [WindowBar.Routes; WindowBar.Models]))))).
  cbn. intuition discriminate.
Defined.

(** X10. On a bar whose windows stand in the order of the enumeration,
    each at most once, toggling a window twice gives back the bar. *)
Theorem toggleWindow_twice (window : WindowBar.WindowType)
    (prev : list WindowBar.WindowType) :
  StronglySorted (fun a b => (WindowBar.rank a < WindowBar.rank b)%Z) prev ->
  WindowBar.toggleWindow window (WindowBar.toggleWindow window prev) = prev.
Proof.
  intros Hs.
  pose proof (WindowBarFacts.strict_NoDup _ Hs) as Hnd.
  apply WindowBarFacts.strict_unique; auto.
  - apply WindowBarFacts.strictly.
    + destruct (WindowBar.includes prev window) eqn:E.
      * apply WindowBarFacts.includes_In in E.
        rewrite (WindowBarFacts.toggleWindow_shown _ _ E).
        rewrite WindowBarFacts.toggleWindow_hidden.
        -- apply WindowBarFacts.by_rank_sorted.
        -- rewrite filter_In, WindowBarFacts.same_refl. cbn. intuition discriminate.
      * assert (Hw : ~ In window prev).
        { intros Hi. apply WindowBarFacts.includes_In in Hi. congruence. }
        rewrite (WindowBarFacts.toggleWindow_hidden _ _ Hw).
        rewrite WindowBarFacts.toggleWindow_shown.
        -- apply WindowBarFacts.filter_sorted, WindowBarFacts.by_rank_sorted.
        -- rewrite WindowBarFacts.In_by_rank, in_app_iff. right. now left.
    + now apply WindowBarFacts.toggleWindow_NoDup, WindowBarFacts.toggleWindow_NoDup.
  - intros x. rewrite !WindowBarFacts.In_toggleWindow.
    assert (Hdec : In window prev \/ ~ In window prev).
    { destruct (WindowBar.includes prev window) eqn:E.
      - left. now apply WindowBarFacts.includes_In.
      - right. intros Hi. apply WindowBarFacts.includes_In in Hi. congruence. }
    destruct (WindowBar.same x window) eqn:E.
    + apply WindowBarFacts.same_spec in E. subst x. intuition.
    + assert (x <> window).
      { intros ->. now rewrite WindowBarFacts.same_refl in E. }
      intuition.
Qed.

Lemma toggleWindow_twice_witness :
  WindowBar.toggleWindow WindowBar.Controllers
    [WindowBar.Models; WindowBar.Routes]
  = [WindowBar.Models; WindowBar.Controllers; WindowBar.Routes]
  /\ WindowBar.toggleWindow WindowBar.Controllers
       (WindowBar.toggleWindow WindowBar.Controllers
          [WindowBar.Models; WindowBar.Routes])
     = [WindowBar.Models; WindowBar.Routes].
Proof.
  split; [reflexivity|].
  apply toggleWindow_twice.
  repeat (constructor; [|repeat constructor; cbn; lia]). constructor.
Defined.

(** ** The layout of the graph *)

Module LayoutFacts.
Import Visualizer Graph.

Lemma same_type_spec a b : same_type a b = true <-> a = b.
Proof. destruct a, b; cbn; split; intros E; try reflexivity; discriminate E. Qed.

Lemma colX_apart a b :
  a <> b -> (NODE_WIDTH <= Z.abs (colX a - colX b))%Z.
Proof.
  unfold NODE_WIDTH. intros Hne.
  destruct a, b; try congruence; cbn; lia.
Qed.

Lemma column_snoc type before nd :
  List.length (column type (before ++ [nd]))
  = (List.length (column type before)
     + if same_type (node_type nd) type then 1 else 0)%nat.
Proof.
  unfold column. rewrite filter_app, length_app. cbn [filter].
  now destruct (same_type (node_type nd) type).
Qed.

(** The row of a node in its column. *)
Lemma position_rows nodes rest : forall before,
  Forall (fun p =>
            exists i : nat,
              (List.length (column (node_type p) before) <= i)%nat
              /\ node_x p = colX (node_type p)
              /\ node_y p
                 = (Z.of_nat i * ROW_GAP
                    - Z.of_nat (List.length (column (node_type p) nodes)) * ROW_GAP / 2)%Z)
         (position nodes before rest).
Proof.
  induction rest as [|nd rest IH]; intros before; cbn [position]; constructor.
  - cbn [node_type node_x node_y]. eexists. repeat split. apply Nat.le_refl.
  - eapply Forall_impl; [|apply IH]. intros p [i [Hi Hxy]].
    exists i. split; auto. rewrite column_snoc in Hi. lia.
Qed.

Lemma position_apart nodes rest : forall before,
  ForallOrdPairs apart (position nodes before rest).
Proof.
  induction rest as [|nd rest IH]; intros before; cbn [position]; constructor; auto.
  pose proof (position_rows nodes rest (before ++ [nd])) as Hrows.
  eapply Forall_impl; [|exact Hrows]. intros p [i [Hi [Hx Hy]]].
  unfold apart. cbn [node_x node_y]. rewrite Hx, Hy.
  destruct (same_type (node_type nd) (node_type p)) eqn:E.
  - right. rewrite column_snoc, E in Hi. apply same_type_spec in E. rewrite E.
    unfold NODE_HEIGHT, ROW_GAP. lia.
  - left. apply colX_apart. intros Heq. rewrite Heq in E.
    now rewrite (proj2 (same_type_spec _ _) eq_refl) in E.
Qed.

Lemma position_labels nodes rest : forall before,
  map (fun p => (node_id p, node_type p, node_label p)) (position nodes before rest)
  = map (fun p => (node_id p, node_type p, node_label p)) rest.
Proof.
  induction rest as [|nd rest IH]; intros before; cbn [position map]; [reflexivity|].
  now rewrite IH.
Qed.

End LayoutFacts.

(** X11. In the layout of the graph the boxes of two nodes never meet:
    two nodes of different kinds stand in columns at least a box width
    apart, two nodes of one kind in rows at least a box height apart.  The
    layout keeps the nodes, their order, ids, kinds and labels, and the
    column of a node depends on its kind only. *)
Theorem layout_no_overlap (nodes : list Visualizer.GraphNode) :
  ForallOrdPairs Graph.apart (Graph.layout nodes)
  /\ map (fun p => (Visualizer.node_id p, Visualizer.node_type p,
                    Visualizer.node_label p)) (Graph.layout nodes)
     = map (fun p => (Visualizer.node_id p, Visualizer.node_type p,
                      Visualizer.node_label p)) nodes
  /\ Forall (fun p => Visualizer.node_x p = Graph.colX (Visualizer.node_type p))
            (Graph.layout nodes).
Proof.
  unfold Graph.layout. split; [|split].
  - apply LayoutFacts.position_apart.
  - apply LayoutFacts.position_labels.
  - eapply Forall_impl; [|apply LayoutFacts.position_rows].
    intros p [i [_ [Hx _]]]. exact Hx.
Qed.

(** ** Grouping by a key with a [Map] *)

Lemma In_first_occurrences (ks : list string) k :
  In k (first_occurrences ks) <-> In k ks.
Proof.
  induction ks as [|a ks IH]; cbn [first_occurrences In]; [tauto|].
  rewrite filter_In, IH, negb_true_iff.
  destruct (String.eqb_spec k a) as [->|Hne]; intuition.
Qed.

Section GroupBy.
Context {S X : Type}.
Variables (key : X -> string) (keys : S -> list string) (step : S -> X -> S).
Hypothesis step_keys : forall s x,
  keys (step s x)
  = if existsb (String.eqb (key x)) (keys s) then keys s else keys s ++ [key x].

(** The keys come in the order of their first items. *)
Lemma fold_keys (xs : list X) (s0 : S) :
  keys s0 = [] -> keys (fold_left step xs s0) = first_occurrences (map key xs).
Proof.
  intros H0. induction xs as [|x xs IH] using rev_ind; [exact H0|].
  rewrite fold_left_app, map_app. cbn [fold_left map].
  rewrite first_occurrences_snoc, step_keys, IH.
  now rewrite (existsb_eqb_ext _ _ _ (In_first_occurrences (map key xs) (key x))).
Qed.

Context {Acc : Type}.
Variables (acc : string -> S -> Acc) (upd : X -> Acc -> Acc).
Hypothesis step_acc : forall s x k,
  acc k (step s x) = if String.eqb (key x) k then upd x (acc k s) else acc k s.

(** What is kept under a key is made from the items of that key, in
    their order. *)
Lemma fold_acc (xs : list X) : forall (s0 : S) k,
  acc k (fold_left step xs s0)
  = fold_left (fun a x => upd x a) (filter (fun x => String.eqb (key x) k) xs)
              (acc k s0).
Proof.
  induction xs as [|x xs IH]; intros s0 k; [reflexivity|].
  cbn [fold_left filter]. rewrite IH, step_acc.
  now destruct (String.eqb (key x) k).
Qed.

End GroupBy.

Lemma fold_left_snoc {A B} (f : B -> A) (l : list B) (a0 : list A) :
  fold_left (fun a x => a ++ [f x]) l a0 = a0 ++ map f l.
Proof.
  revert a0. induction l as [|x l IH]; intros a0; cbn [fold_left map].
  - now rewrite app_nil_r.
  - rewrite IH, <- app_assoc. reflexivity.
Qed.

Lemma forEachM_fold {A St} (body : A -> St -> Clocked St) (l : list A) :
  forall (s : St) n,
  Generation.forEachM body l s n
  = fold_left (fun sn a => body a (fst sn) (snd sn)) l (s, n).
Proof.
  induction l as [|a l IH]; intros s n; [reflexivity|].
  cbn [Generation.forEachM fold_left]. rewrite bind_run, IH. cbn [fst snd].
  now destruct (body a s n).
Qed.


Lemma NoDup_first_occurrences (ks : list string) : NoDup (first_occurrences ks).
Proof.
  induction ks as [|a ks IH]; cbn [first_occurrences]; constructor.
  - rewrite filter_In, String.eqb_refl. cbn. intuition discriminate.
  - now apply NoDup_filter.
Qed.

(** ** The grouping of the generated endpoints *)

Module GenerateApisFacts.
Import Generation.

Section Grouping.
Variable clock : nat -> Z.
Variable random : nat -> string.

Lemma rawBody_keys (sn : JsMap.t ApiCollection * nat) (x : RawApi) :
  JsMap.keys (fst (rawBody clock random x (fst sn) (snd sn)))
  = if existsb (String.eqb (collectionName x)) (JsMap.keys (fst sn))
    then JsMap.keys (fst sn)
    else JsMap.keys (fst sn) ++ [collectionName x].
Proof.
  destruct sn as [m n]. cbn [fst snd]. unfold rawBody. rewrite bind_run.
  destruct (JsMap.get (collectionName x) m) as [c0|] eqn:Hget.
  - cbn [ret fst snd]. rewrite Hget. rewrite bind_run. cbn [ret fst].
    rewrite JsMapFacts.keys_set.
    assert (Hin : In (collectionName x) (JsMap.keys m)).
    { apply JsMapFacts.get_In in Hget. unfold JsMap.keys.
      now apply (in_map fst _ (collectionName x, c0)). }
    now rewrite (proj2 (existsb_eqb_In _ _) Hin).
  - rewrite bind_run. cbn [ret fst snd]. rewrite get_set, String.eqb_refl.
    rewrite bind_run. cbn [ret fst]. rewrite !JsMapFacts.keys_set.
    apply JsMapFacts.get_None in Hget.
    destruct (existsb (String.eqb (collectionName x)) (JsMap.keys m)) eqn:E.
    + apply existsb_eqb_In in E. contradiction.
    + rewrite existsb_app. cbn [existsb]. rewrite String.eqb_refl.
      now rewrite orb_true_r.
Qed.

Lemma rawBody_kept (sn : JsMap.t ApiCollection * nat) (x : RawApi) k :
  option_map (fun c => (coll_name c,
                        map (fun a => (item_rest a, item_history a)) (coll_apis c)))
             (JsMap.get k (fst (rawBody clock random x (fst sn) (snd sn))))
  = if String.eqb (collectionName x) k
    then match option_map (fun c => (coll_name c,
                                     map (fun a => (item_rest a, item_history a))
                                         (coll_apis c)))
                          (JsMap.get k (fst sn)) with
         | Some (nm, l) => Some (nm, l ++ [(apiData x, [])])
         | None => Some (collectionName x, [(apiData x, [])])
         end
    else option_map (fun c => (coll_name c,
                               map (fun a => (item_rest a, item_history a))
                                   (coll_apis c)))
                    (JsMap.get k (fst sn)).
Proof.
  destruct sn as [m n]. cbn [fst snd]. unfold rawBody. rewrite bind_run.
  destruct (JsMap.get (collectionName x) m) as [c0|] eqn:Hget.
  - cbn [ret fst snd]. rewrite Hget. rewrite bind_run. cbn [ret fst].
    rewrite get_set.
    destruct (String.eqb_spec (collectionName x) k) as [<-|]; [|reflexivity].
    rewrite Hget. cbn [option_map coll_name coll_apis].
    now rewrite map_app.
  - rewrite bind_run. cbn [ret fst snd]. rewrite get_set, String.eqb_refl.
    rewrite bind_run. cbn [ret fst]. rewrite !get_set.
    destruct (String.eqb_spec (collectionName x) k) as [<-|]; [|reflexivity].
    now rewrite Hget.
Qed.

Lemma kept_fold (l : list RawApi) : forall nm (l0 : list (ApiData * list (HistoryEntry ApiData))),
  fold_left
    (fun a x =>
       match a with
       | Some (nm, l) => Some (nm, l ++ [(apiData x, [])])
       | None => Some (collectionName x, [(apiData x, @nil (HistoryEntry ApiData))])
       end) l (Some (nm, l0))
  = Some (nm, l0 ++ map (fun x => (apiData x, [])) l).
Proof.
  induction l as [|x l IH]; intros nm l0; cbn [fold_left map].
  - now rewrite app_nil_r.
  - rewrite IH, <- app_assoc. reflexivity.
Qed.

End Grouping.
End GenerateApisFacts.

(** X12. [generateApis] groups the endpoints of the answer by their
    collection name: the collections come in the order in which their
    names first occur in the answer, one for each name; the endpoints of a
    collection are the endpoints of the answer under its name, in the order
    of the answer, each with an empty history; no collection is empty. *)
Theorem generateApis_groups (clock : nat -> Z) (random : nat -> string)
    (raw : list Generation.RawApi) (n : nat) :
  exists colls,
    fst (Generation.generateApis clock random (Some raw) n) = Some colls
    /\ map coll_name colls = first_occurrences (map Generation.collectionName raw)
    /\ forall c, In c colls ->
         map item_rest (coll_apis c)
         = map Generation.apiData
               (filter (fun item => String.eqb (Generation.collectionName item)
                                               (coll_name c)) raw)
         /\ Forall (fun a => item_history a = []) (coll_apis c)
         /\ coll_apis c <> [].
Proof.
  unfold Generation.generateApis. rewrite bind_run, forEachM_fold.
  cbn [ret fst].
  set (final := fold_left _ raw (JsMap.empty, n)).
  pose proof (fold_keys Generation.collectionName (fun sn => JsMap.keys (fst sn)) _
                (GenerateApisFacts.rawBody_keys clock random) raw (JsMap.empty, n)
                eq_refl) as Hkeys.
  pose proof (fun k =>
                fold_acc Generation.collectionName
                  (fun sn x => Generation.rawBody clock random x (fst sn) (snd sn))
                  (fun k sn =>
                     option_map
                       (fun c => (coll_name c,
                                  map (fun a => (item_rest a, item_history a))
                                      (coll_apis c)))
                       (JsMap.get k (fst sn)))
                  (fun x a =>
                     match a with
                     | Some (nm, l) => Some (nm, l ++ [(Generation.apiData x, [])])
                     | None => Some (Generation.collectionName x,
                                     [(Generation.apiData x, [])])
                     end)
                  (GenerateApisFacts.rawBody_kept clock random)
                  raw (JsMap.empty, n) k) as Hacc.
  cbn beta in Hkeys, Hacc. fold final in Hkeys, Hacc. cbn [fst JsMap.get JsMap.empty option_map] in Hacc.
  assert (Hentry : forall k c, In (k, c) (fst final) ->
            coll_name c = k
            /\ map (fun a => (item_rest a, item_history a)) (coll_apis c)
               = map (fun x => (Generation.apiData x, []))
                     (filter (fun x => String.eqb (Generation.collectionName x) k) raw)
            /\ coll_apis c <> []).
  { intros k c Hin.
    assert (Hget : JsMap.get k (fst final) = Some c).
    { apply get_keys; auto. rewrite Hkeys. apply NoDup_first_occurrences. }
    specialize (Hacc k). rewrite Hget in Hacc. cbn [option_map] in Hacc.
    assert (Hk : In k (map Generation.collectionName raw)).
    { apply In_first_occurrences. rewrite <- Hkeys. unfold JsMap.keys.
      now apply (in_map fst _ (k, c)). }
    destruct (filter (fun x => String.eqb (Generation.collectionName x) k) raw)
      as [|x l] eqn:Hf.
    - exfalso. apply in_map_iff in Hk as [x [E Hx]].
      assert (Hx' : In x (filter (fun x => String.eqb (Generation.collectionName x) k)
                                 raw)).
      { apply filter_In. split; auto. now apply String.eqb_eq. }
      now rewrite Hf in Hx'.
    - assert (Hx : Generation.collectionName x = k).
      { assert (Hi : In x (x :: l)) by now left.
        rewrite <- Hf in Hi. apply filter_In in Hi as [_ E].
        now apply String.eqb_eq. }
      cbn [fold_left] in Hacc. rewrite GenerateApisFacts.kept_fold in Hacc.
      inversion Hacc as [[Hname Hl]]. split; [congruence|]. split.
      + rewrite Hl. reflexivity.
      + intros E. rewrite E in Hl. discriminate Hl. }
  exists (map snd (fst final)). split; [reflexivity|]. split.
  - rewrite <- Hkeys. unfold JsMap.keys. rewrite map_map.
    apply map_ext_in. intros [k c] Hin. cbn [fst snd].
    now destruct (Hentry k c Hin).
  - intros c Hc. apply in_map_iff in Hc as [[k c'] [E Hin]]. cbn [snd] in E. subst c'.
    destruct (Hentry k c Hin) as [Hname [Hl Hne]]. subst k.
    split; [|split; auto].
    + apply (f_equal (map fst)) in Hl. rewrite !map_map in Hl. exact Hl.
    + apply (f_equal (map snd)) in Hl. rewrite !map_map in Hl. cbn [snd] in Hl.
      apply Forall_forall. intros a Ha.
      assert (Hi : In (item_history a) (map (fun a => item_history a) (coll_apis c)))
        by now apply in_map.
      rewrite Hl in Hi. apply in_map_iff in Hi as [x [E _]]. now symmetry.
Qed.

(** ** The grouping of the handlers into controller files *)

Module GenerateControllersFacts.
Import Generation.

Section Casing.
Variable toLowerCase : string -> string.

Lemma groupBody_keys models (m : JsMap.t ControllerData) (a : Api) :
  JsMap.keys (groupBody toLowerCase models a m)
  = if existsb (String.eqb (Grouping.controllerName toLowerCase models a)) (JsMap.keys m)
    then JsMap.keys m
    else JsMap.keys m ++ [Grouping.controllerName toLowerCase models a].
Proof.
  unfold groupBody.
  destruct (JsMap.get (Grouping.controllerName toLowerCase models a) m) as [d|] eqn:Hget.
  - rewrite Hget, JsMapFacts.keys_set.
    assert (Hin : In (Grouping.controllerName toLowerCase models a) (JsMap.keys m)).
    { apply JsMapFacts.get_In in Hget. unfold JsMap.keys.
      now apply (in_map fst _ (Grouping.controllerName toLowerCase models a, d)). }
    now rewrite (proj2 (existsb_eqb_In _ _) Hin).
  - rewrite get_set, String.eqb_refl, !JsMapFacts.keys_set.
    apply JsMapFacts.get_None in Hget.
    destruct (existsb (String.eqb (Grouping.controllerName toLowerCase models a)) (JsMap.keys m))
      eqn:E.
    + apply existsb_eqb_In in E. contradiction.
    + rewrite existsb_app. cbn [existsb]. rewrite String.eqb_refl.
      now rewrite orb_true_r.
Qed.

Lemma groupBody_get models (m : JsMap.t ControllerData) (a : Api) k :
  JsMap.get k (groupBody toLowerCase models a m)
  = if String.eqb (Grouping.controllerName toLowerCase models a) k
    then
      let d := match JsMap.get k m with
               | Some d => d
               | None => mkControllerData [] []
               end in
      Some (mkControllerData
              (fold_left (fun s x => Set_add x s)
                         (Patterns.modelRequires (api_code (item_rest a)))
                         (modelNames d))
              (functions d ++ [handler_of toLowerCase a]))
    else JsMap.get k m.
Proof.
  unfold groupBody.
  destruct (JsMap.get (Grouping.controllerName toLowerCase models a) m) as [d|] eqn:Hget.
  - rewrite Hget, get_set.
    destruct (String.eqb_spec (Grouping.controllerName toLowerCase models a) k) as [<-|];
      [|reflexivity].
    now rewrite Hget.
  - rewrite get_set, String.eqb_refl, !get_set.
    destruct (String.eqb_spec (Grouping.controllerName toLowerCase models a) k) as [<-|];
      [|reflexivity].
    now rewrite Hget.
Qed.

Lemma data_fold (group : list Api) : forall d,
  fold_left
    (fun (acc : option ControllerData) a =>
       let d := match acc with
                | Some d => d
                | None => mkControllerData [] []
                end in
       Some (mkControllerData
               (fold_left (fun s x => Set_add x s)
                          (Patterns.modelRequires (api_code (item_rest a)))
                          (modelNames d))
               (functions d ++ [handler_of toLowerCase a])))
    group (Some d)
  = Some (mkControllerData
            (fold_left (fun s x => Set_add x s)
                       (flat_map (fun a => Patterns.modelRequires
                                             (api_code (item_rest a))) group)
                       (modelNames d))
            (functions d ++ map (handler_of toLowerCase) group)).
Proof.
  induction group as [|a group IH]; intros d; cbn [fold_left flat_map map].
  - rewrite app_nil_r. now destruct d.
  - rewrite IH. cbn [modelNames functions].
    now rewrite fold_left_app, <- app_assoc.
Qed.

Lemma controllerName_no_models (a : Api) :
  Grouping.controllerName toLowerCase [] a = "generalController.js".
Proof.
  unfold Grouping.controllerName, Grouping.controllerFileBaseName.
  assert (H1 : Grouping.fromEndpoint toLowerCase [] a = None).
  { unfold Grouping.fromEndpoint.
    destruct (Grouping.getBaseNameFromEndpoint _) as [b|]; [|reflexivity].
    now destruct (Grouping.truthy b). }
  rewrite H1. reflexivity.
Qed.

Lemma first_occurrences_constant {A} (f : A -> string) (l : list A) k :
  l <> [] -> (forall a, In a l -> f a = k) -> first_occurrences (map f l) = [k].
Proof.
  intros Hne Hf. destruct l as [|a l]; [congruence|].
  cbn [map first_occurrences]. rewrite (Hf a) by now left. f_equal.
  apply filter_none. intros x Hx. apply (proj1 (In_first_occurrences _ _)) in Hx.
  apply in_map_iff in Hx as [y [<- Hy]]. rewrite Hf by now right.
  now rewrite String.eqb_refl.
Qed.

Lemma generateControllers_files clock random models apis n :
  let controllers := fst (generateControllers toLowerCase clock random models apis n) in
  map (fun c => file_name (item_rest c)) controllers
  = first_occurrences (map (Grouping.controllerName toLowerCase models) apis)
  /\ forall c, In c controllers ->
       file_code (item_rest c)
       = controllerCode (controllerData_of toLowerCase models apis (file_name (item_rest c)))
       /\ group_of toLowerCase models apis (file_name (item_rest c)) <> []
       /\ item_history c = [].
Proof.
  intros controllers.
  unfold controllers, Generation.generateControllers. clear controllers.
  destruct (List.length apis =? 0)%nat eqn:Hlen.
  { destruct apis; [split; [reflexivity|contradiction]|discriminate]. }
  clear Hlen.
  set (final := fold_left _ apis JsMap.empty).
  pose proof (fold_keys (Grouping.controllerName toLowerCase models) JsMap.keys
                (fun m a => Generation.groupBody toLowerCase models a m)
                (fun m a => groupBody_keys models m a)
                apis JsMap.empty eq_refl) as Hkeys.
  pose proof (fun k =>
                fold_acc (Grouping.controllerName toLowerCase models)
                  (fun m a => Generation.groupBody toLowerCase models a m)
                  (fun k m => JsMap.get k m)
                  (fun a (acc : option Generation.ControllerData) =>
                     let d := match acc with
                              | Some d => d
                              | None => Generation.mkControllerData [] []
                              end in
                     Some (Generation.mkControllerData
                             (fold_left (fun s x => Generation.Set_add x s)
                                (Patterns.modelRequires (api_code (item_rest a)))
                                (Generation.modelNames d))
                             (Generation.functions d ++ [Generation.handler_of toLowerCase a])))
                  (fun m a k => groupBody_get models m a k)
                  apis JsMap.empty k) as Hacc.
  fold final in Hkeys, Hacc. cbn [JsMap.get JsMap.empty] in Hacc.
  assert (Hentry : forall k d, In (k, d) final ->
            d = Generation.controllerData_of toLowerCase models apis k
            /\ Generation.group_of toLowerCase models apis k <> []).
  { intros k d Hin.
    assert (Hget : JsMap.get k final = Some d).
    { apply get_keys; auto. rewrite Hkeys. apply NoDup_first_occurrences. }
    specialize (Hacc k). rewrite Hget in Hacc.
    assert (Hk : In k (map (Grouping.controllerName toLowerCase models) apis)).
    { apply In_first_occurrences. rewrite <- Hkeys. unfold JsMap.keys.
      now apply (in_map fst _ (k, d)). }
    unfold Generation.controllerData_of, Generation.imports_of, Generation.group_of.
    destruct (filter (fun a => String.eqb (Grouping.controllerName toLowerCase models a) k) apis)
      as [|x l] eqn:Hf.
    - exfalso. apply in_map_iff in Hk as [x [E Hx]].
      assert (Hx' : In x (filter (fun a => String.eqb (Grouping.controllerName toLowerCase models a) k)
                                 apis)).
      { apply filter_In. split; auto. now apply String.eqb_eq. }
      now rewrite Hf in Hx'.
    - split; [|discriminate].
      cbn [fold_left] in Hacc. cbn zeta in Hacc.
      rewrite data_fold in Hacc.
      cbn [Generation.modelNames Generation.functions] in Hacc.
      inversion Hacc as [Hd]. cbn [flat_map map].
      now rewrite fold_left_app. }
  split.
  - rewrite <- Hkeys. unfold JsMap.keys.
    apply mapM_fst_map. intros [k d] m _. reflexivity.
  - intros c Hc. apply mapM_In_inv in Hc as [[k d] [m [Hin ->]]].
    rewrite bind_run. cbn [ret fst snd item_rest item_history file_name file_code].
    destruct (Hentry k d Hin) as [-> Hne]. auto. 
Qed.

End Casing.

End GenerateControllersFacts.

(** X13. [generateControllers] makes one controller file for each
    controller name of the endpoints, in the order in which the names first
    occur, so that no two files have the same name; the file of a name
    holds the handlers of the endpoints of that name, in their order, after
    the imports of the schemas that these handlers import, each once; its
    history is empty.  Without endpoints no file is made; without schemas
    every endpoint goes to [generalController.js]. *)
Theorem generateControllers_groups (toLowerCase : string -> string)
    (clock : nat -> Z) (random : nat -> string)
    (models : list Model) (apis : list Api) (n : nat) :
  let controllers := fst (Generation.generateControllers toLowerCase clock random models apis n) in
  map (fun c => file_name (item_rest c)) controllers
  = first_occurrences (map (Grouping.controllerName toLowerCase models) apis)
  /\ NoDup (map (fun c => file_name (item_rest c)) controllers)
  /\ (forall c, In c controllers ->
        file_code (item_rest c)
        = Generation.controllerCode
            (Generation.controllerData_of toLowerCase models apis (file_name (item_rest c)))
        /\ Generation.group_of toLowerCase models apis (file_name (item_rest c)) <> []
        /\ item_history c = [])
  /\ (models = [] -> apis <> [] ->
      map (fun c => file_name (item_rest c)) controllers = ["generalController.js"]).
Proof.
  intros controllers.
  pose proof (GenerateControllersFacts.generateControllers_files toLowerCase
                clock random models apis n) as Hnames.
  cbn zeta in Hnames. fold controllers in Hnames.
  destruct Hnames as [Hnames Hfiles].
  split; [exact Hnames|split; [|split; [exact Hfiles|]]].
  - rewrite Hnames. apply NoDup_first_occurrences.
  - intros -> Hne. rewrite Hnames.
    apply GenerateControllersFacts.first_occurrences_constant; auto.
    intros a _. apply GenerateControllersFacts.controllerName_no_models.
Qed.

Lemma generateControllers_groups_witness :
  map (fun c => file_name (item_rest c))
      (fst (Generation.generateControllers JsString.lower_ascii tick dice [] [list_users] 0))
  = ["generalController.js"]
  /\ map (fun c => file_name (item_rest c)) generated_controllers
     = ["userController.js"].
Proof.
  split; [|reflexivity].
  apply (proj2 (proj2 (proj2
           (generateControllers_groups JsString.lower_ascii tick dice [] [list_users] 0))));
    [reflexivity|discriminate].
Defined.


(** ** Texts and patterns *)

Module PatternFacts.
Import JsString Patterns.

Lemma after_inv lit : forall s r, Visualizer.after lit s = Some r -> s = (lit ++ r)%string.
Proof.
  induction lit as [|a lit IH]; intros s r; cbn [Visualizer.after append].
  - now intros [= ->].
  - destruct s as [|b s]; [discriminate|].
    destruct (Ascii.eqb_spec a b) as [->|]; [|discriminate].
    intros H. now rewrite (IH _ _ H).
Qed.

Lemma after_append lit r : Visualizer.after lit (lit ++ r) = Some r.
Proof.
  induction lit as [|a lit IH]; cbn [Visualizer.after append]; [reflexivity|].
  now rewrite Ascii.eqb_refl.
Qed.

(** Two ways of cutting one text. *)
Lemma append_split (a : string) : forall b c d : string,
  (a ++ b = c ++ d)%string ->
  (exists e, a = (c ++ e)%string /\ d = (e ++ b)%string)
  \/ (exists e, c = (a ++ e)%string /\ b = (e ++ d)%string).
Proof.
  induction a as [|x a IH]; intros b c d E; cbn [append] in E.
  - right. exists c. split; auto.
  - destruct c as [|y c]; cbn [append] in E.
    + left. exists (String x a). split; auto.
    + inversion E as [[Exy E']]. destruct (IH _ _ _ E') as [[e [-> ->]]|[e [-> ->]]].
      * left. exists e. split; auto.
      * right. exists e. split; auto.
Qed.

Lemma no_char_append c (a b : string) :
  no_char c (a ++ b) = no_char c a && no_char c b.
Proof.
  induction a as [|x a IH]; cbn [append no_char]; [reflexivity|].
  now rewrite IH, andb_assoc.
Qed.

(** A text [v] without the character [c], followed by a character [x],
    does not start with a text that has [c] after a part without [x]. *)
Lemma no_start (A : string) (c x : ascii) (B v tail : string) :
  no_char c v = true -> no_char x A = true -> x <> c ->
  (v ++ String x tail)%string <> (A ++ String c B)%string.
Proof.
  intros Hv HA Hxc E.
  destruct (append_split _ _ _ _ E) as [[e [Ev Ee]]|[e [EA Ee]]].
  - destruct e as [|y e]; cbn [append] in Ee.
    + inversion Ee. congruence.
    + inversion Ee; subst. rewrite no_char_append in Hv. cbn [no_char] in Hv.
      rewrite Ascii.eqb_refl in Hv. cbn in Hv. now rewrite andb_false_r in Hv.
  - destruct e as [|y e]; cbn [append] in Ee.
    + inversion Ee. congruence.
    + inversion Ee; subst. rewrite no_char_append in HA. cbn [no_char] in HA.
      rewrite Ascii.eqb_refl in HA. cbn in HA. now rewrite andb_false_r in HA.
Qed.

(** The scan of a pattern. *)
Lemma matchAll_skip {A} (m : string -> option (A * nat)) (a rest : string) :
  matchAll m (String.length a) (a ++ rest) = matchAll m 0 rest.
Proof.
  induction a as [|c a IH]; cbn [String.length append].
  - now destruct rest.
  - cbn [matchAll]. exact IH.
Qed.

Lemma matchAll_hit {A} (m : string -> option (A * nat)) (a rest : string) (x : A) :
  a <> EmptyString ->
  m (a ++ rest)%string = Some (x, String.length a) ->
  matchAll m 0 (a ++ rest) = x :: matchAll m 0 rest.
Proof.
  intros Ha Hm. destruct a as [|c a]; [congruence|].
  cbn [append] in *. cbn [matchAll]. rewrite Hm. f_equal.
  cbn [String.length Nat.sub]. rewrite Nat.sub_0_r. apply matchAll_skip.
Qed.

Lemma matchAll_pass {A} (m : string -> option (A * nat)) (p : string) :
  forall rest,
  (forall u v, p = (u ++ v)%string -> v <> EmptyString -> m (v ++ rest)%string = None) ->
  matchAll m 0 (p ++ rest) = matchAll m 0 rest.
Proof.
  induction p as [|c p IH]; intros rest Hnone; [reflexivity|].
  cbn [append matchAll].
  pose proof (Hnone EmptyString (String c p) eq_refl) as H0.
  cbn [append] in H0. rewrite H0 by discriminate.
  apply IH. intros u v -> Hv. apply (Hnone (String c u) v); auto.
Qed.

Lemma first_match_pass {A} (m : string -> option A) (p : string) : forall rest,
  (forall u v, p = (u ++ v)%string -> v <> EmptyString -> m (v ++ rest)%string = None) ->
  first_match m (p ++ rest) = first_match m rest.
Proof.
  induction p as [|c p IH]; intros rest Hnone; [reflexivity|].
  cbn [append]. cbn [first_match]. fold (@first_match A).
  pose proof (Hnone EmptyString (String c p) eq_refl) as H0.
  cbn [append] in H0. rewrite H0 by discriminate.
  apply IH. intros u v -> Hv. apply (Hnone (String c u) v); auto.
Qed.

(** The same for the scan of the route registrations. *)
Lemma routeDefinitions_pass (p : string) : forall rest,
  (forall u v, p = (u ++ v)%string -> v <> EmptyString ->
               Visualizer.match_here (v ++ rest)%string = None) ->
  Visualizer.routeDefinitions (p ++ rest) = Visualizer.routeDefinitions rest.
Proof.
  induction p as [|c p IH]; intros rest Hnone; [reflexivity|].
  cbn [append]. rewrite VisualizerFacts.routeDefinitions_other.
  - apply IH. intros u v -> Hv. apply (Hnone (String c u) v); auto.
  - apply (Hnone EmptyString (String c p) eq_refl). discriminate.
Qed.

(** What a match of a pattern starts with. *)
Lemma match_model_starts s r :
  match_model s = Some r -> exists t, s = ("require" ++ String "("%char t)%string.
Proof.
  unfold match_model.
  destruct (Visualizer.after "require(" s) as [t|] eqn:Ha; [|discriminate].
  intros _. apply after_inv in Ha. now exists t.
Qed.

Lemma match_controller_starts s r :
  match_controller s = Some r -> exists t, s = ("require" ++ String "("%char t)%string.
Proof.
  unfold match_controller.
  destruct (Visualizer.after "require(" s) as [t|] eqn:Ha; [|discriminate].
  intros _. apply after_inv in Ha. now exists t.
Qed.

Lemma match_verbs_starts vs : forall s r,
  Visualizer.match_verbs vs s = Some r ->
  exists v t, In v vs /\ s = (v ++ String "("%char t)%string.
Proof.
  induction vs as [|v vs IH]; intros s r; cbn [Visualizer.match_verbs]; [discriminate|].
  destruct (Visualizer.after v s) as [s'|] eqn:Ha.
  - destruct (Visualizer.match_args s') as [path|] eqn:Hm.
    + intros _. apply after_inv in Ha. unfold Visualizer.match_args in Hm.
      destruct s' as [|p [|q s']]; try discriminate.
      destruct (Ascii.eqb_spec p "("%char) as [->|]; [|discriminate].
      exists v, (String q s'). split; [now left|exact Ha].
    + intros H. destruct (IH _ _ H) as [v' [t [Hv E]]]. exists v', t. split; auto.
      now right.
  - intros H. destruct (IH _ _ H) as [v' [t [Hv E]]]. exists v', t. split; auto.
    now right.
Qed.

Lemma match_here_starts s r :
  Visualizer.match_here s = Some r ->
  exists v t, In v Visualizer.verbs
              /\ s = (("router." ++ v) ++ String "("%char t)%string.
Proof.
  unfold Visualizer.match_here.
  destruct (Visualizer.after "router." s) as [s'|] eqn:Ha; [|discriminate].
  intros H. apply after_inv in Ha.
  destruct (match_verbs_starts _ _ _ H) as [v [t [Hv E]]].
  exists v, t. split; auto. rewrite Ha, E. now rewrite VisualizerFacts.append_assoc.
Qed.

(** No import starts in a text without parenthesis that a character
    which is not in [require] follows. *)
Lemma match_model_none (v : string) (x : ascii) (tail : string) :
  no_char "("%char v = true -> no_char x "require" = true -> x <> "("%char ->
  match_model (v ++ String x tail) = None.
Proof.
  intros Hv Hx Hne. destruct (match_model _) as [r|] eqn:Hm; [|reflexivity].
  destruct (match_model_starts _ _ Hm) as [t E].
  now apply no_start in E.
Qed.

Lemma match_controller_none (v : string) (x : ascii) (tail : string) :
  no_char "("%char v = true -> no_char x "require" = true -> x <> "("%char ->
  match_controller (v ++ String x tail) = None.
Proof.
  intros Hv Hx Hne. destruct (match_controller _) as [r|] eqn:Hm; [|reflexivity].
  destruct (match_controller_starts _ _ Hm) as [t E].
  now apply no_start in E.
Qed.

Lemma match_here_none (v : string) (x : ascii) (tail : string) :
  no_char "("%char v = true -> no_char x "router.getpostputdeletepatch" = true ->
  x <> "("%char ->
  Visualizer.match_here (v ++ String x tail) = None.
Proof.
  intros Hv Hx Hne. destruct (Visualizer.match_here _) as [r|] eqn:Hm; [|reflexivity].
  destruct (match_here_starts _ _ Hm) as [verb [t [Hverb E]]].
  cbn in Hverb. cbn [no_char] in Hx.
  repeat (apply andb_true_iff in Hx as [? Hx]).
  exfalso. revert E. apply no_start; auto.
  destruct Hverb as [<-|[<-|[<-|[<-|[<-|[]]]]]]; cbn [append no_char];
    repeat (apply andb_true_iff; split); auto.
Qed.

Lemma no_char_suffix c (u v : string) :
  no_char c (u ++ v) = true -> no_char c v = true.
Proof. rewrite no_char_append. now intros [_ H]%andb_true_iff. Qed.

End PatternFacts.

(** ** The imports of a controller file *)

Module ImportFacts.
Import JsString Patterns Generation PatternFacts.

Lemma matchAll_step {A} (m : string -> option (A * nat)) c s :
  m (String c s) = None -> matchAll m 0 (String c s) = matchAll m 0 s.
Proof. intros Hm. cbn [matchAll]. now rewrite Hm. Qed.

Lemma is_word_no_paren c : is_word c = true -> Ascii.eqb c "("%char = false.
Proof.
  intros Hw. destruct (Ascii.eqb_spec c "("%char) as [->|]; [discriminate Hw|reflexivity].
Qed.

Lemma word_no_paren w : word w = true -> no_char "("%char w = true.
Proof.
  induction w as [|c w IH]; cbn [word no_char]; [reflexivity|].
  intros [Hc Hw]%andb_true_iff. rewrite (is_word_no_paren _ Hc). now rewrite IH.
Qed.

Lemma word_append (u v : string) : word (u ++ v) = word u && word v.
Proof.
  induction u as [|c u IH]; cbn [append word]; [reflexivity|].
  now rewrite IH, andb_assoc.
Qed.

Lemma word_run_word w x t :
  word w = true -> is_word x = false -> word_run (w ++ String x t) = (w, String x t).
Proof.
  intros Hw Hx. induction w as [|c w IH]; cbn [append word_run].
  - now rewrite Hx.
  - cbn [word] in Hw. apply andb_true_iff in Hw as [Hc Hw].
    now rewrite Hc, IH.
Qed.

Lemma word_run_is_word s : word (fst (word_run s)) = true.
Proof.
  induction s as [|c s IH]; cbn [word_run]; [reflexivity|].
  destruct (is_word c) eqn:Hc; [|reflexivity].
  destruct (word_run s) as [w r]. cbn [fst word] in *. now rewrite Hc.
Qed.

(** The group of a match is a name. *)
Lemma match_model_word s w len :
  match_model s = Some (w, len) -> word w = true /\ w <> EmptyString.
Proof.
  unfold match_model.
  destruct (Visualizer.after "require(" s) as [[|q1 s1]|]; try discriminate.
  destruct (is_quote2 q1); [|discriminate].
  destruct (Visualizer.after "../models/" s1) as [s2|]; [|discriminate].
  pose proof (word_run_is_word s2) as Hw.
  destruct (word_run s2) as [w' s3]. cbn [fst] in Hw.
  destruct w' as [|c w']; [discriminate|].
  destruct s3 as [|q2 [|p s3]]; try discriminate.
  destruct (is_quote2 q2 && Ascii.eqb p ")"%char); [|discriminate].
  intros [= <- _]. split; [exact Hw|discriminate].
Qed.

Lemma matchAll_Forall {A} (m : string -> option (A * nat)) (P : A -> Prop) :
  (forall s a len, m s = Some (a, len) -> P a) ->
  forall s skip, Forall P (matchAll m skip s).
Proof.
  intros Hm. induction s as [|c s IH]; intros skip; cbn [matchAll]; [constructor|].
  destruct skip as [|k]; [|apply IH].
  destruct (m (String c s)) as [[a len]|] eqn:E; [|apply IH].
  constructor; [eapply Hm; eauto|apply IH].
Qed.

Lemma modelRequires_words code :
  Forall (fun w => word w = true /\ w <> EmptyString) (modelRequires code).
Proof. apply matchAll_Forall. intros s a len. apply match_model_word. Qed.

Lemma Set_add_fold_incl (l : list string) : forall s x,
  In x (fold_left (fun s m => Set_add m s) l s) -> In x s \/ In x l.
Proof.
  induction l as [|m l IH]; intros s x Hx; cbn [fold_left] in Hx; auto.
  destruct (IH _ _ Hx) as [Hs|Hl]; [|right; now right].
  unfold Set_add in Hs. destruct (existsb (String.eqb m) s); auto.
  apply in_app_or in Hs as [Hs|[<-|[]]]; auto. right. now left.
Qed.

Lemma imports_of_words group :
  Forall (fun w => word w = true /\ w <> EmptyString) (imports_of group).
Proof.
  apply Forall_forall. intros x Hx. unfold imports_of in Hx.
  apply Set_add_fold_incl in Hx as [[]|Hx].
  apply in_flat_map in Hx as [a [_ Hx]].
  pose proof (modelRequires_words (api_code (item_rest a))) as Hw.
  rewrite Forall_forall in Hw. now apply Hw.
Qed.

(** A match at an import statement. *)
Lemma match_model_import w rest :
  word w = true -> w <> EmptyString ->
  match_model (("require('../models/" ++ w ++ "')") ++ rest)
  = Some (w, String.length ("require('../models/" ++ w ++ "')")).
Proof.
  intros Hw Hne. unfold match_model. cbn [append Visualizer.after Ascii.eqb Bool.eqb].
  cbn [is_quote2 Ascii.eqb Bool.eqb orb].
  rewrite VisualizerFacts.append_assoc. cbn [append].
  rewrite word_run_word by (auto; reflexivity).
  destruct w as [|c w]; [congruence|].
  cbn [is_quote2 Ascii.eqb Bool.eqb orb andb]. f_equal. f_equal.
  cbn [String.length]. rewrite !JsStringFacts.length_append. cbn [String.length]. lia.
Qed.

Lemma match_model_first c s :
  Ascii.eqb c "r"%char = false -> match_model (String c s) = None.
Proof.
  intros Hc. unfold match_model. cbn [Visualizer.after].
  rewrite Ascii.eqb_sym in Hc. now rewrite Hc.
Qed.

Lemma modelRequires_pass (p rest : string) :
  no_char "r"%char p = true ->
  matchAll match_model 0 (p ++ rest) = matchAll match_model 0 rest.
Proof.
  intros Hp. apply matchAll_pass. intros u v -> Hv.
  apply no_char_suffix in Hp. destruct v as [|c v]; [congruence|].
  cbn [no_char] in Hp. apply andb_true_iff in Hp as [Hc _].
  apply negb_true_iff in Hc. cbn [append]. now apply match_model_first.
Qed.

Lemma requireStatement_parts w rest :
  (requireStatement w ++ rest)%string
  = ("const " ++ w ++ " = " ++ ("require('../models/" ++ w ++ "')") ++ ";" ++ rest)%string.
Proof.
  unfold requireStatement. rewrite !VisualizerFacts.append_assoc. cbn [append].
  rewrite ?VisualizerFacts.append_assoc. reflexivity.
Qed.

(** The scan of an import statement of the preamble. *)
Lemma modelRequires_statement w rest :
  word w = true -> w <> EmptyString ->
  modelRequires (requireStatement w ++ rest) = w :: modelRequires rest.
Proof.
  intros Hw Hne. unfold modelRequires. rewrite requireStatement_parts.
  rewrite modelRequires_pass by reflexivity.
  rewrite matchAll_pass.
  - rewrite modelRequires_pass by reflexivity.
    rewrite matchAll_hit with (x := w).
    + now rewrite modelRequires_pass by reflexivity.
    + discriminate.
    + now apply match_model_import.
  - intros u v -> Hv. cbn [append].
    apply match_model_none; [|reflexivity|discriminate].
    apply word_no_paren in Hw. now apply no_char_suffix in Hw.
Qed.

Lemma modelRequires_preamble names : forall rest,
  Forall (fun w => word w = true /\ w <> EmptyString) names ->
  modelRequires (join nl (map requireStatement names) ++ rest)
  = names ++ modelRequires rest.
Proof.
  induction names as [|x names IH]; intros rest Hnames; [reflexivity|].
  inversion Hnames as [|? ? [Hw Hne] Hnames']; subst.
  cbn [map join]. destruct names as [|y names].
  - cbn [map app]. now apply modelRequires_statement.
  - cbn [map] in *. rewrite !VisualizerFacts.append_assoc.
    rewrite modelRequires_statement by assumption. cbn [app]. f_equal.
    unfold modelRequires at 1. rewrite modelRequires_pass by reflexivity.
    now apply IH.
Qed.

Lemma append_nil_r (s : string) : (s ++ EmptyString)%string = s.
Proof. induction s as [|c s IH]; cbn [append]; congruence. Qed.

(** The imports written at the head of a controller file are read back
    first. *)
Lemma modelRequires_controllerCode data :
  Forall (fun w => word w = true /\ w <> EmptyString) (modelNames data) ->
  exists more, modelRequires (controllerCode data) = modelNames data ++ more.
Proof.
  intros Hnames. destruct (modelNames data) as [|x names] eqn:Hn.
  - eexists. reflexivity.
  - unfold controllerCode. rewrite Hn. cbn [filter].
    assert (Ht : Grouping.truthy (join nl (map requireStatement (x :: names))) = true).
    { cbn [map join]. now destruct names. }
    rewrite Ht.
    destruct (Grouping.truthy (join (nl ++ nl) (map exportStatement (functions data)))).
    + cbn [join]. eexists. now apply modelRequires_preamble.
    + cbn [join]. eexists.
      rewrite <- (append_nil_r (join nl (map requireStatement (x :: names)))).
      now apply modelRequires_preamble.
Qed.

End ImportFacts.

(** ** The edges of the imports *)

Module GraphFacts.
Import JsString Patterns Visualizer Graph PatternFacts.

Lemma append_inj_l (a b s : string) : (a ++ s = b ++ s)%string -> a = b.
Proof.
  intros E.
  assert (Hlen : String.length a = String.length b).
  { apply (f_equal String.length) in E. rewrite !JsStringFacts.length_append in E. lia. }
  revert b E Hlen. induction a as [|x a IH]; intros [|y b] E Hlen;
    cbn [String.length] in Hlen; try discriminate; [reflexivity|].
  cbn [append] in E. inversion E; subst. f_equal. apply IH; auto.
Qed.

(** The node that a map of nodes holds under a label. *)
Lemma get_by_label {A} (mk : A -> GraphNode) (l : list A) (x : A) :
  NoDup (map (fun a => node_label (mk a)) l) -> In x l ->
  JsMap.get (node_label (mk x))
    (JsMap.of_entries (map (fun n => (node_label n, n)) (map mk l)))
  = Some (mk x).
Proof.
  intros Hnd Hx.
  assert (Hfst : map fst (map (fun n => (node_label n, n)) (map mk l))
                 = map (fun a => node_label (mk a)) l)
    by (rewrite !map_map; reflexivity).
  rewrite JsMapFacts.of_entries_NoDup by (now rewrite Hfst).
  apply get_keys.
  - unfold JsMap.keys. now rewrite Hfst.
  - rewrite map_map. apply in_map_iff. now exists x.
Qed.

Lemma get_label_inv {A} (mk : A -> GraphNode) (l : list A) k node :
  JsMap.get k (JsMap.of_entries (map (fun n => (node_label n, n)) (map mk l)))
  = Some node ->
  exists x, In x l /\ node = mk x /\ node_label (mk x) = k.
Proof.
  intros Hget. apply JsMapFacts.get_In, JsMapFacts.In_of_entries in Hget.
  rewrite map_map in Hget. apply in_map_iff in Hget as [x [E Hx]].
  inversion E; subst. now exists x.
Qed.

Lemma NoDup_suffixed (suffix : string) (names : list string) :
  NoDup names -> NoDup (map (fun s => (s ++ suffix)%string) names).
Proof.
  induction 1 as [|k names Hk Hnd IH]; cbn [map]; constructor; auto.
  intros Hin. apply in_map_iff in Hin as [k' [E Hk']].
  apply append_inj_l in E. now subst.
Qed.

Lemma NoDup_model_labels (models : list Model) :
  NoDup (map (fun m => model_name (item_rest m)) models) ->
  NoDup (map (fun m => (model_name (item_rest m) ++ ".js")%string) models).
Proof.
  intros Hnd.
  rewrite <- (map_map (fun m => model_name (item_rest m))
                      (fun s => (s ++ ".js")%string)).
  now apply NoDup_suffixed.
Qed.

Lemma controller_node (controllers : list Controller) (c : Controller) :
  NoDup (map (fun c => file_name (item_rest c)) controllers) -> In c controllers ->
  JsMap.get (file_name (item_rest c))
    (JsMap.of_entries (map (fun n => (node_label n, n)) (controllerNodes controllers)))
  = Some (mkNode (item_id c) controller (file_name (item_rest c)) 0 0).
Proof.
  intros Hnd Hc.
  exact (get_by_label (fun c => mkNode (item_id c) controller
                                  (file_name (item_rest c)) 0 0) controllers c Hnd Hc).
Qed.

Lemma routes_node (routes : list Route) (r : Route) :
  NoDup (map (fun r => file_name (item_rest r)) routes) -> In r routes ->
  JsMap.get (file_name (item_rest r))
    (JsMap.of_entries (map (fun n => (node_label n, n)) (routeNodes routes)))
  = Some (mkNode (item_id r) route (file_name (item_rest r)) 0 0).
Proof.
  intros Hnd Hr.
  exact (get_by_label (fun r => mkNode (item_id r) route
                                  (file_name (item_rest r)) 0 0) routes r Hnd Hr).
Qed.

Lemma model_node (models : list Model) (m : Model) :
  NoDup (map (fun m => model_name (item_rest m)) models) -> In m models ->
  JsMap.get (model_name (item_rest m) ++ ".js")%string
    (JsMap.of_entries (map (fun n => (node_label n, n)) (modelNodes models)))
  = Some (mkNode (item_id m) model (model_name (item_rest m) ++ ".js")%string 0 0).
Proof.
  intros Hnd Hm.
  exact (get_by_label (fun m => mkNode (item_id m) model
                                  (model_name (item_rest m) ++ ".js")%string 0 0)
                      models m (NoDup_model_labels _ Hnd) Hm).
Qed.

Lemma modelControllerEdges_has (models : list Model) (controllers : list Controller)
    (m : Model) (c : Controller) :
  NoDup (map (fun m => model_name (item_rest m)) models) ->
  NoDup (map (fun c => file_name (item_rest c)) controllers) ->
  In m models -> In c controllers ->
  In (model_name (item_rest m)) (modelRequires (file_code (item_rest c))) ->
  In (mkEdge (item_id m ++ "-" ++ item_id c)%string (item_id m) (item_id c))
     (modelControllerEdges models controllers).
Proof.
  intros Hm Hc Hmin Hcin Hw. unfold modelControllerEdges.
  apply in_flat_map. exists c. split; auto.
  rewrite (controller_node controllers c Hc Hcin).
  apply in_flat_map. exists (model_name (item_rest m)). split; auto.
  rewrite (model_node models m Hm Hmin). now left.
Qed.

Lemma controllerRouteEdges_has (controllers : list Controller) (routes : list Route)
    (c : Controller) (r : Route) :
  NoDup (map (fun c => file_name (item_rest c)) controllers) ->
  NoDup (map (fun r => file_name (item_rest r)) routes) ->
  In c controllers -> In r routes ->
  controllerRequire (file_code (item_rest r)) = Some (file_name (item_rest c)) ->
  In (mkEdge (item_id c ++ "-" ++ item_id r)%string (item_id c) (item_id r))
     (controllerRouteEdges controllers routes).
Proof.
  intros Hc Hr Hcin Hrin Hreq. unfold controllerRouteEdges.
  apply in_flat_map. exists r. split; auto.
  rewrite (routes_node routes r Hr Hrin), Hreq.
  rewrite (controller_node controllers c Hc Hcin). now left.
Qed.

End GraphFacts.

(** X14. When the schemas have distinct names and the controller files
    distinct names, the graph has an edge from a schema to a controller
    file exactly for the imports of the file that name a schema: one edge
    for each import that the scan of the file finds. *)
Theorem modelControllerEdges_extracts (models : list Model)
    (controllers : list Controller) (e : Visualizer.GraphEdge) :
  NoDup (map (fun m => model_name (item_rest m)) models) ->
  NoDup (map (fun c => file_name (item_rest c)) controllers) ->
  In e (Graph.modelControllerEdges models controllers)
  <-> exists m c,
        In m models /\ In c controllers
        /\ In (model_name (item_rest m))
              (Patterns.modelRequires (file_code (item_rest c)))
        /\ e = Visualizer.mkEdge (item_id m ++ "-" ++ item_id c)%string
                                 (item_id m) (item_id c).
Proof.
  intros Hm Hc. unfold Graph.modelControllerEdges. rewrite in_flat_map. split.
  - intros [c [Hin He]].
    rewrite (GraphFacts.controller_node controllers c Hc Hin) in He.
    apply in_flat_map in He as [w [Hw He]].
    destruct (JsMap.get _ _) as [src|] eqn:Hget; [|contradiction].
    apply GraphFacts.get_label_inv in Hget as [m [Hmin [-> Hlabel]]].
    cbn [Visualizer.node_label] in Hlabel.
    apply GraphFacts.append_inj_l in Hlabel.
    destruct He as [<-|[]]. exists m, c. repeat split; auto. now rewrite Hlabel.
  - intros [m [c [Hmin [Hcin [Hw ->]]]]].
    apply in_flat_map. now apply GraphFacts.modelControllerEdges_has.
Qed.

Lemma modelControllerEdges_extracts_witness :
  In (Visualizer.mkEdge "m1-ctrl-0-0.5" "m1" "ctrl-0-0.5")
     (Graph.modelControllerEdges [user_schema] generated_controllers).
Proof.
  apply (proj2 (modelControllerEdges_extracts [user_schema] generated_controllers
                  (Visualizer.mkEdge "m1-ctrl-0-0.5" "m1" "ctrl-0-0.5")
                  ltac:(distinct_names) ltac:(distinct_names))).
  exists user_schema, generated_controller.
  split; [now left|]. split; [now left|]. split; [|reflexivity].
  vm_compute. now left.
Defined.


(** X15. When the controller files have distinct names and the route
    files distinct names, the graph has an edge from a controller file to a
    route file exactly when the first controller import that the scan of
    the route file finds names the controller file. *)
Theorem controllerRouteEdges_extracts (controllers : list Controller)
    (routes : list Route) (e : Visualizer.GraphEdge) :
  NoDup (map (fun c => file_name (item_rest c)) controllers) ->
  NoDup (map (fun r => file_name (item_rest r)) routes) ->
  In e (Graph.controllerRouteEdges controllers routes)
  <-> exists c r,
        In c controllers /\ In r routes
        /\ Patterns.controllerRequire (file_code (item_rest r))
           = Some (file_name (item_rest c))
        /\ e = Visualizer.mkEdge (item_id c ++ "-" ++ item_id r)%string
                                 (item_id c) (item_id r).
Proof.
  intros Hc Hr. unfold Graph.controllerRouteEdges. rewrite in_flat_map. split.
  - intros [r [Hin He]].
    rewrite (GraphFacts.routes_node routes r Hr Hin) in He.
    destruct (Patterns.controllerRequire _) as [cn|] eqn:Hreq; [|contradiction].
    destruct (JsMap.get _ _) as [src|] eqn:Hget; [|contradiction].
    apply GraphFacts.get_label_inv in Hget as [c [Hcin [-> Hlabel]]].
    cbn [Visualizer.node_label] in Hlabel.
    destruct He as [<-|[]]. exists c, r. repeat split; auto. now rewrite Hlabel.
  - intros [c [r [Hcin [Hrin [Hreq ->]]]]].
    apply in_flat_map. now apply GraphFacts.controllerRouteEdges_has.
Qed.

Lemma controllerRouteEdges_extracts_witness :
  In (Visualizer.mkEdge "ctrl-0-0.5-route-2-0.5" "ctrl-0-0.5" "route-2-0.5")
     (Graph.controllerRouteEdges generated_controllers generated_routes).
Proof.
  apply (proj2 (controllerRouteEdges_extracts generated_controllers generated_routes
                  (Visualizer.mkEdge "ctrl-0-0.5-route-2-0.5" "ctrl-0-0.5" "route-2-0.5")
                  ltac:(distinct_names) ltac:(distinct_names))).
  exists generated_controller, generated_route.
  split; [now left|]. split; [now left|]. split; reflexivity.
Defined.


(** ** From the generated files to the graph *)

Module RoundTripFacts.
Import JsString Patterns Generation PatternFacts.

(** The controller import of a route file. *)
Lemma first_match_step {A} (m : string -> option A) c s :
  m (String c s) = None -> first_match m (String c s) = first_match m s.
Proof. intros Hm. cbn [first_match]. now rewrite Hm. Qed.

Lemma first_match_here {A} (m : string -> option A) s a :
  m s = Some a -> first_match m s = Some a.
Proof. intros Hm. destruct s; cbn [first_match]; now rewrite Hm. Qed.

Lemma plain_no_quote2 c :
  Visualizer.is_quote c = false -> is_quote2 c = false.
Proof.
  unfold Visualizer.is_quote, is_quote2.
  intros H. apply orb_false_iff in H as [H _]. exact H.
Qed.

Lemma lazy_to_close_plain (path rest : string) :
  Visualizer.plain path = true ->
  lazy_to_close (path ++ String "'"%char (String ")"%char rest)) = Some path.
Proof.
  induction path as [|c path IH]; intros Hp; [reflexivity|].
  cbn [Visualizer.plain] in Hp.
  apply andb_true_iff in Hp as [Hc Hp]. apply andb_true_iff in Hc as [Hq Ht].
  apply negb_true_iff in Hq, Ht.
  cbn [append lazy_to_close closes].
  assert (Hnot : closes (String c (path ++ String "'"%char (String ")"%char rest)))
                 = false).
  { cbn [closes]. destruct (path ++ _)%string; [reflexivity|].
    now rewrite (plain_no_quote2 _ Hq). }
  cbn [closes] in Hnot. rewrite Hnot, Ht, IH by assumption. reflexivity.
Qed.

Lemma match_controller_import cname rest :
  Visualizer.plain cname = true ->
  match_controller (("require('" ++ ("../controllers/" ++ cname) ++ "')") ++ rest)
  = Some cname.
Proof.
  intros Hp. unfold match_controller.
  cbn [append Visualizer.after Ascii.eqb Bool.eqb].
  cbn [is_quote2 Ascii.eqb Bool.eqb orb].
  rewrite VisualizerFacts.append_assoc. cbn [append].
  now apply lazy_to_close_plain.
Qed.

Lemma routeCode_parts data :
  routeCode data
  = ("const express = require('express');" ++ nl
     ++ "const router = express.Router();" ++ nl
     ++ "const " ++ controllerVarName data ++ " = "
     ++ ("require('" ++ controllerImportPath data ++ "')") ++ ";" ++ nl ++ nl
     ++ join nl (map (routeStatement (controllerVarName data)) (routeEntries data))
     ++ nl ++ nl ++ "module.exports = router;")%string.
Proof.
  unfold routeCode. cbn zeta. rewrite !VisualizerFacts.append_assoc. cbn [append].
  rewrite ?VisualizerFacts.append_assoc. reflexivity.
Qed.

(** No match starts in a text that is written out: every end of the
    text is tried. *)
Ltac no_match_in_literal :=
  let u := fresh "u" in
  let v := fresh "v" in
  let E := fresh "E" in
  let Hv := fresh "Hv" in
  intros u v E Hv;
  repeat (destruct u as [|? u]; cbn [append] in E;
          [subst v; first [reflexivity | congruence]
          |first [discriminate E | injection E as _ E]]).

Lemma controllerRequire_routeCode fn var cname entries :
  no_char "("%char var = true -> Visualizer.plain cname = true ->
  controllerRequire
    (routeCode (mkRouteData fn var ("../controllers/" ++ cname) entries))
  = Some cname.
Proof.
  intros Hvar Hp. unfold controllerRequire. rewrite routeCode_parts.
  cbn [controllerVarName controllerImportPath routeEntries].
  rewrite first_match_pass by no_match_in_literal.
  rewrite first_match_pass by (unfold nl; no_match_in_literal).
  rewrite first_match_pass by no_match_in_literal.
  rewrite first_match_pass by (unfold nl; no_match_in_literal).
  rewrite first_match_pass by no_match_in_literal.
  rewrite first_match_pass.
  - rewrite first_match_pass by no_match_in_literal.
    apply first_match_here. now apply match_controller_import.
  - intros u v -> Hv. cbn [append].
    apply match_controller_none; [|reflexivity|discriminate].
    now apply no_char_suffix in Hvar.
Qed.

(** The registrations of a route file. *)
Lemma routeStatement_parts var r rest :
  (routeStatement var r ++ rest)%string
  = (Visualizer.statement (route_method r) "'"%char (route_endpoint r) "'"%char
     ++ ", " ++ (var ++ "." ++ route_handler r) ++ ");" ++ rest)%string.
Proof.
  unfold routeStatement, Visualizer.statement.
  repeat (progress (rewrite ?VisualizerFacts.append_assoc; cbn [append])).
  reflexivity.
Qed.

Lemma routeDefinitions_routeStatement var r rest :
  readable var r ->
  Visualizer.routeDefinitions (routeStatement var r ++ rest)
  = (route_method r, route_endpoint r) :: Visualizer.routeDefinitions rest.
Proof.
  intros [Hverb [Hpath [Hvar Hhandler]]]. rewrite routeStatement_parts.
  rewrite VisualizerFacts.routeDefinitions_statement by (auto; reflexivity).
  f_equal.
  rewrite routeDefinitions_pass by no_match_in_literal.
  rewrite routeDefinitions_pass.
  - now rewrite routeDefinitions_pass by no_match_in_literal.
  - intros u v E Hv. cbn [append].
    apply match_here_none; [|reflexivity|discriminate].
    assert (Hu : no_char "("%char (var ++ "." ++ route_handler r) = true).
    { rewrite !no_char_append, Hvar, Hhandler. reflexivity. }
    rewrite E in Hu. now apply no_char_suffix in Hu.
Qed.

Lemma routeDefinitions_join var entries : forall rest,
  Forall (readable var) entries ->
  Visualizer.routeDefinitions (join nl (map (routeStatement var) entries) ++ rest)
  = map (fun r => (route_method r, route_endpoint r)) entries
    ++ Visualizer.routeDefinitions rest.
Proof.
  induction entries as [|r entries IH]; intros rest Hr; [reflexivity|].
  inversion Hr as [|? ? Hr1 Hr']; subst.
  cbn [map join]. destruct entries as [|r' entries].
  - cbn [map app]. now apply routeDefinitions_routeStatement.
  - cbn [map] in *. rewrite !VisualizerFacts.append_assoc.
    rewrite routeDefinitions_routeStatement by assumption. cbn [app]. f_equal.
    rewrite routeDefinitions_pass by (unfold nl; no_match_in_literal).
    now apply IH.
Qed.

Lemma routeDefinitions_routeCode data :
  no_char "("%char (controllerVarName data) = true ->
  no_char "("%char (controllerImportPath data) = true ->
  Forall (readable (controllerVarName data)) (routeEntries data) ->
  Visualizer.routeDefinitions (routeCode data)
  = map (fun r => (route_method r, route_endpoint r)) (routeEntries data).
Proof.
  intros Hvar Hpath Hentries. rewrite routeCode_parts.
  rewrite routeDefinitions_pass by no_match_in_literal.
  rewrite routeDefinitions_pass by (unfold nl; no_match_in_literal).
  rewrite routeDefinitions_pass by no_match_in_literal.
  rewrite routeDefinitions_pass by (unfold nl; no_match_in_literal).
  rewrite routeDefinitions_pass by no_match_in_literal.
  rewrite routeDefinitions_pass.
  2:{ intros u v E Hv. cbn [append].
      apply match_here_none; [|reflexivity|discriminate].
      rewrite E in Hvar. now apply no_char_suffix in Hvar. }
  rewrite routeDefinitions_pass by no_match_in_literal.
  rewrite !VisualizerFacts.append_assoc.
  rewrite routeDefinitions_pass by no_match_in_literal.
  rewrite routeDefinitions_pass.
  2:{ intros u v E Hv. cbn [append].
      apply match_here_none; [|reflexivity|discriminate].
      rewrite E in Hpath. now apply no_char_suffix in Hpath. }
  rewrite routeDefinitions_pass by no_match_in_literal.
  rewrite routeDefinitions_pass by no_match_in_literal.
  rewrite routeDefinitions_pass by (unfold nl; no_match_in_literal).
  rewrite routeDefinitions_pass by (unfold nl; no_match_in_literal).
  rewrite routeDefinitions_join by assumption.
  replace (Visualizer.routeDefinitions (nl ++ nl ++ "module.exports = router;"))
    with (@nil (string * string)) by reflexivity.
  now rewrite app_nil_r.
Qed.

End RoundTripFacts.

(** ** The route files of [generateRoutes] *)

Module GenerateRoutesFacts.
Import JsString Patterns Generation PatternFacts.

Section Casing.
Variable toLowerCase : string -> string.

Lemma no_char_remove_first c pat : forall s,
  no_char c s = true -> no_char c (remove_first pat s) = true.
Proof.
  induction s as [|x s IH]; intros Hs; cbn [remove_first].
  - destruct (Visualizer.after pat EmptyString) as [rest|] eqn:Ha; [|reflexivity].
    apply after_inv in Ha. destruct pat; [|discriminate Ha].
    cbn [append] in Ha. now subst.
  - destruct (Visualizer.after pat (String x s)) as [rest|] eqn:Ha.
    + apply after_inv in Ha. rewrite Ha in Hs. now apply no_char_suffix in Hs.
    + cbn [no_char] in *. apply andb_true_iff in Hs as [Hx Hs].
      now rewrite Hx, IH.
Qed.

Lemma init_entries (controllers : list Controller) (k : string) (d : RouteData) :
  In (k, d)
     (fold_left (fun m c => JsMap.set (file_name (item_rest c)) (routeData_of c) m)
                controllers JsMap.empty) ->
  exists c, In c controllers /\ d = routeData_of c.
Proof.
  assert (Hfold : forall (l : list Controller) (m : JsMap.t RouteData),
            fold_left (fun m c => JsMap.set (file_name (item_rest c)) (routeData_of c) m)
                      l m
            = fold_left (fun m kv => JsMap.set (fst kv) (snd kv) m)
                        (map (fun c => (file_name (item_rest c), routeData_of c)) l) m).
  { induction l as [|c l IH]; intros m; cbn [fold_left map]; [reflexivity|].
    now rewrite IH. }
  rewrite Hfold. intros Hin. apply JsMapFacts.In_of_entries in Hin.
  apply in_map_iff in Hin as [c [E Hc]]. inversion E; subst. now exists c.
Qed.

Section Assign.
Variable RegExp : string -> option (string -> bool).
Variables (controllers : list Controller) (apis : list Api).

Lemma assignRoute_from a cs : forall m m',
  In a apis ->
  (forall k d, In (k, d) m -> routeData_from toLowerCase controllers apis d) ->
  assignRoute RegExp a (Grouping.lowerFirst toLowerCase (api_name (item_rest a))) cs m = Some m' ->
  forall k d, In (k, d) m' -> routeData_from toLowerCase controllers apis d.
Proof.
  induction cs as [|c cs IH]; intros m m' Ha Hm; cbn [assignRoute].
  - intros [= <-]. exact Hm.
  - destruct (RegExp _) as [exportRegex|]; [|discriminate].
    destruct (exportRegex (file_code (item_rest c))).
    + destruct (JsMap.get (file_name (item_rest c)) m) as [routeData|] eqn:Hget.
      * intros [= <-] k d Hin. apply JsMapFacts.In_set in Hin as [E|Hin]; eauto.
        inversion E; subst.
        apply JsMapFacts.get_In in Hget.
        destruct (Hm _ _ Hget) as [c0 [Hc0 [Hf [Hv [Hp He]]]]].
        exists c0. cbn [routeFileName controllerVarName controllerImportPath routeEntries].
        repeat split; auto. apply Forall_app. split; auto.
        constructor; [|constructor]. exists a. split; auto.
      * intros [= <-]. exact Hm.
    + now apply IH.
Qed.

Lemma assignRoutes_from l : forall m m',
  incl l apis ->
  (forall k d, In (k, d) m -> routeData_from toLowerCase controllers apis d) ->
  assignRoutes toLowerCase RegExp l controllers m = Some m' ->
  forall k d, In (k, d) m' -> routeData_from toLowerCase controllers apis d.
Proof.
  induction l as [|a l IH]; intros m m' Hl Hm; cbn [assignRoutes].
  - intros [= <-]. exact Hm.
  - destruct (assignRoute _ _ _ _ _) as [m1|] eqn:Ha; [|discriminate].
    apply IH.
    + intros x Hx. apply Hl. now right.
    + eapply assignRoute_from; eauto. apply Hl. now left.
Qed.

End Assign.

(** What a route file of the result is made from. *)
Lemma generateRoutes_files clock random RegExp controllers apis n routes :
  fst (generateRoutes toLowerCase clock random RegExp controllers apis n) = Some routes ->
  forall r, In r routes ->
    exists d, routeData_from toLowerCase controllers apis d
              /\ routeEntries d <> []
              /\ item_rest r = mkCodeFile (routeFileName d) (routeCode d)
              /\ item_history r = [].
Proof.
  unfold generateRoutes.
  destruct ((List.length controllers =? 0)%nat || (List.length apis =? 0)%nat).
  { intros [= <-] r []. }
  destruct (assignRoutes toLowerCase _ _ _ _) as [m'|] eqn:Ha; [|discriminate].
  rewrite bind_run. cbn [ret fst]. intros [= <-] r Hr.
  apply mapM_In_inv in Hr as [d [k [Hd ->]]].
  apply filter_In in Hd as [Hd Hne].
  apply in_map_iff in Hd as [[key d'] [E Hin]]. cbn [snd] in E. subst d'.
  exists d. split; [|split; [|split]].
  - eapply assignRoutes_from; eauto.
    + apply incl_refl.
    + intros k0 d0 H0. apply init_entries in H0 as [c [Hc ->]].
      exists c. repeat split; auto.
  - intros E. now rewrite E in Hne.
  - rewrite bind_run. reflexivity.
  - rewrite bind_run. reflexivity.
Qed.

Lemma entry_of_verb (a : Api) : In (route_method (entry_of toLowerCase a)) Visualizer.verbs.
Proof.
  unfold entry_of. cbn [route_method].
  destruct (api_method (item_rest a)); cbn; tauto.
Qed.

Lemma entry_of_serves (a : Api) :
  Visualizer.serves (route_method (entry_of toLowerCase a)) (route_endpoint (entry_of toLowerCase a)) a = true.
Proof.
  unfold Visualizer.serves, entry_of. cbn [route_method route_endpoint].
  rewrite String.eqb_refl, andb_true_r.
  now destruct (api_method (item_rest a)).
Qed.

(** The texts of a value made from controllers and endpoints of simple
    names. *)
Lemma routeData_from_readable controllers apis d :
  (forall c, In c controllers ->
     Visualizer.plain (file_name (item_rest c)) = true
     /\ no_char "("%char (file_name (item_rest c)) = true) ->
  (forall a, In a apis ->
     Visualizer.plain (api_endpoint (item_rest a)) = true
     /\ no_char "("%char (Grouping.lowerFirst toLowerCase (api_name (item_rest a))) = true) ->
  routeData_from toLowerCase controllers apis d ->
  exists c, In c controllers
    /\ routeFileName d
       = (remove_first "Controller.js" (file_name (item_rest c)) ++ "Routes.js")%string
    /\ controllerRequire (routeCode d) = Some (file_name (item_rest c))
    /\ Visualizer.routeDefinitions (routeCode d)
       = map (fun e => (route_method e, route_endpoint e)) (routeEntries d)
    /\ Forall (fun e => exists a, In a apis /\ e = entry_of toLowerCase a) (routeEntries d).
Proof.
  intros Hcs Has [c [Hc [Hf [Hv [Hp He]]]]].
  destruct (Hcs c Hc) as [Hplain Hparen].
  assert (Hvar : no_char "("%char (controllerVarName d) = true).
  { rewrite Hv. cbn [routeData_of controllerVarName].
    rewrite no_char_append, no_char_remove_first by assumption. reflexivity. }
  exists c. split; [exact Hc|]. split; [exact Hf|]. split; [|split; [|exact He]].
  - destruct d as [fn var path entries].
    cbn [controllerVarName controllerImportPath] in *.
    rewrite Hp. cbn [routeData_of controllerImportPath].
    now apply RoundTripFacts.controllerRequire_routeCode.
  - apply RoundTripFacts.routeDefinitions_routeCode; auto.
    + rewrite Hp. cbn [routeData_of controllerImportPath].
      rewrite no_char_append, Hparen. reflexivity.
    + eapply Forall_impl; [|exact He]. intros e [a [Ha ->]].
      destruct (Has a Ha) as [Hendpoint Hhandler].
      split; [apply entry_of_verb|]. split; [exact Hendpoint|]. split; assumption.
Qed.

End Casing.

End GenerateRoutesFacts.

(** X16. A controller file made by [generateControllers] is linked in
    the graph to every schema that one of its handlers imports: when the
    schemas have distinct names, the graph of the schemas and of the
    generated controller files has an edge from the schema to the file. *)
Theorem generated_controllers_linked (toLowerCase : string -> string)
    (clock : nat -> Z) (random : nat -> string)
    (models : list Model) (apis : list Api) (n : nat) (c : Controller) (m : Model) :
  NoDup (map (fun m => model_name (item_rest m)) models) ->
  let controllers := fst (Generation.generateControllers toLowerCase clock random models apis n) in
  In c controllers -> In m models ->
  In (model_name (item_rest m))
     (Generation.imports_of
        (Generation.group_of toLowerCase models apis (file_name (item_rest c)))) ->
  In (model_name (item_rest m)) (Patterns.modelRequires (file_code (item_rest c)))
  /\ In (Visualizer.mkEdge (item_id m ++ "-" ++ item_id c)%string
                           (item_id m) (item_id c))
        (Graph.modelControllerEdges models controllers).
Proof.
  intros Hm controllers Hc Hmin Himport.
  pose proof (GenerateControllersFacts.generateControllers_files toLowerCase
                clock random models apis n) as [Hnames Hfiles].
  fold controllers in Hnames, Hfiles.
  destruct (Hfiles c Hc) as [Hcode _].
  assert (Hscan : In (model_name (item_rest m))
                     (Patterns.modelRequires (file_code (item_rest c)))).
  { rewrite Hcode.
    destruct (ImportFacts.modelRequires_controllerCode
                (Generation.controllerData_of toLowerCase models apis (file_name (item_rest c))))
      as [more Hmore].
    - cbn [Generation.controllerData_of Generation.modelNames].
      apply ImportFacts.imports_of_words.
    - rewrite Hmore. apply in_or_app. now left. }
  split; [exact Hscan|].
  apply GraphFacts.modelControllerEdges_has; auto.
  rewrite Hnames. apply NoDup_first_occurrences.
Qed.

Lemma generated_controllers_linked_witness :
  In "User" (Patterns.modelRequires (file_code (item_rest generated_controller)))
  /\ In (Visualizer.mkEdge "m1-ctrl-0-0.5" "m1" "ctrl-0-0.5")
        (Graph.modelControllerEdges [user_schema] generated_controllers).
Proof.
  apply (generated_controllers_linked JsString.lower_ascii tick dice [user_schema] [list_users] 0
           generated_controller user_schema).
  - distinct_names.
  - now left.
  - now left.
  - vm_compute. now left.
Defined.


(** X17. The route files made by [generateRoutes] from controller files
    and endpoints of simple names (no quote, no line break and no opening
    parenthesis in the names of the files; no quote and no line break in
    the paths; no opening parenthesis in the names of the handlers) are
    read back by the scans of the graph: the controller import found in a
    route file is the name of a controller file, after which the route file
    is named; the file has at least one registration, and every
    registration found in it is served by one of the endpoints. *)
Theorem generateRoutes_read_back (toLowerCase : string -> string)
    (clock : nat -> Z) (random : nat -> string)
    (RegExp : string -> option (string -> bool))
    (controllers : list Controller) (apis : list Api) (n : nat)
    (routes : list Route) :
  (forall c, In c controllers ->
     Visualizer.plain (file_name (item_rest c)) = true
     /\ JsString.no_char "("%char (file_name (item_rest c)) = true) ->
  (forall a, In a apis ->
     Visualizer.plain (api_endpoint (item_rest a)) = true
     /\ JsString.no_char "("%char
          (Grouping.lowerFirst toLowerCase (api_name (item_rest a))) = true) ->
  fst (Generation.generateRoutes toLowerCase clock random RegExp controllers apis n)
  = Some routes ->
  forall r, In r routes ->
    (exists c, In c controllers
       /\ Patterns.controllerRequire (file_code (item_rest r))
          = Some (file_name (item_rest c))
       /\ file_name (item_rest r)
          = (Generation.remove_first "Controller.js" (file_name (item_rest c))
             ++ "Routes.js")%string)
    /\ Visualizer.routeDefinitions (file_code (item_rest r)) <> []
    /\ (forall verb path,
          In (verb, path) (Visualizer.routeDefinitions (file_code (item_rest r))) ->
          exists a, In a apis /\ Visualizer.serves verb path a = true)
    /\ item_history r = [].
Proof.
  intros Hcs Has Hroutes r Hr.
  destruct (GenerateRoutesFacts.generateRoutes_files _ _ _ _ _ _ _ _ Hroutes r Hr)
    as [d [Hd [Hne [Hrest Hhist]]]].
  destruct (GenerateRoutesFacts.routeData_from_readable _ _ _ _ Hcs Has Hd)
    as [c [Hc [Hname [Hreq [Hdefs Hentries]]]]].
  rewrite Hrest. cbn [file_name file_code].
  split; [|split; [|split; [|exact Hhist]]].
  - exists c. auto.
  - rewrite Hdefs. destruct (Generation.routeEntries d); [congruence|discriminate].
  - intros verb path Hin. rewrite Hdefs in Hin.
    apply in_map_iff in Hin as [e [E He]]. inversion E; subst.
    rewrite Forall_forall in Hentries. destruct (Hentries e He) as [a [Ha ->]].
    exists a. split; auto. apply GenerateRoutesFacts.entry_of_serves.
Qed.

Lemma generateRoutes_read_back_witness :
  Visualizer.routeDefinitions (file_code (item_rest generated_route))
  = [("get", "/api/users")]
  /\ Patterns.controllerRequire (file_code (item_rest generated_route))
     = Some "userController.js"
  /\ Visualizer.routeDefinitions (file_code (item_rest generated_route)) <> [].
Proof.
  split; [reflexivity|]. split; [reflexivity|].
  refine (proj1 (proj2
            (generateRoutes_read_back JsString.lower_ascii tick dice finds_export generated_controllers
               [list_users] 2 generated_routes _ _ _ generated_route _))).
  - intros c [<-|[]]. split; reflexivity.
  - intros a [<-|[]]. split; reflexivity.
  - reflexivity.
  - now left.
Defined.


(** X18. Under the same conditions on the names, when moreover the
    controller files have distinct names and the route files made by
    [generateRoutes] distinct names, the graph links every route file made
    to a controller file, and has, for every registration found in the
    route file, an edge from the route file to an endpoint. *)
Theorem generated_routes_linked (toLowerCase : string -> string)
    (clock : nat -> Z) (random : nat -> string)
    (RegExp : string -> option (string -> bool))
    (controllers : list Controller) (colls : list ApiCollection) (n : nat)
    (routes : list Route) :
  (forall c, In c controllers ->
     Visualizer.plain (file_name (item_rest c)) = true
     /\ JsString.no_char "("%char (file_name (item_rest c)) = true) ->
  (forall a, In a (Visualizer.allApis colls) ->
     Visualizer.plain (api_endpoint (item_rest a)) = true
     /\ JsString.no_char "("%char
          (Grouping.lowerFirst toLowerCase (api_name (item_rest a))) = true) ->
  NoDup (map (fun c => file_name (item_rest c)) controllers) ->
  fst (Generation.generateRoutes toLowerCase clock random RegExp controllers
         (Visualizer.allApis colls) n) = Some routes ->
  NoDup (map (fun r => file_name (item_rest r)) routes) ->
  forall r, In r routes ->
    (exists c, In c controllers
       /\ In (Visualizer.mkEdge (item_id c ++ "-" ++ item_id r)%string
                                (item_id c) (item_id r))
             (Graph.controllerRouteEdges controllers routes))
    /\ (forall verb path,
          In (verb, path) (Visualizer.routeDefinitions (file_code (item_rest r))) ->
          exists a, In a (Visualizer.allApis colls)
                    /\ Visualizer.serves verb path a = true
                    /\ In (Visualizer.edge_between r a)
                          (Visualizer.routeApiEdges routes colls)).
Proof.
  intros Hcs Has Hcnd Hroutes Hrnd r Hr.
  destruct (GenerateRoutesFacts.generateRoutes_files _ _ _ _ _ _ _ _ Hroutes r Hr)
    as [d [Hd [Hne [Hrest Hhist]]]].
  destruct (GenerateRoutesFacts.routeData_from_readable _ _ _ _ Hcs Has Hd)
    as [c [Hc [Hname [Hreq [Hdefs Hentries]]]]].
  split.
  - exists c. split; auto. apply GraphFacts.controllerRouteEdges_has; auto.
    rewrite Hrest. exact Hreq.
  - intros verb path Hin.
    assert (Hserved : exists a0, In a0 (Visualizer.allApis colls)
                                 /\ Visualizer.serves verb path a0 = true).
    { rewrite Hrest in Hin. cbn [file_code] in Hin. rewrite Hdefs in Hin.
      apply in_map_iff in Hin as [e [E He]]. inversion E; subst.
      rewrite Forall_forall in Hentries. destruct (Hentries e He) as [a [Ha ->]].
      exists a. split; auto. apply GenerateRoutesFacts.entry_of_serves. }
    destruct Hserved as [a0 [Ha0 Hs0]].
    destruct (find (Visualizer.serves verb path) (Visualizer.allApis colls))
      as [a|] eqn:Hfind.
    + apply find_some in Hfind as Hfound. destruct Hfound as [Ha Hs].
      exists a. repeat split; auto.
      rewrite VisualizerFacts.routeApiEdges_distinct by assumption.
      apply in_flat_map. exists r. split; auto.
      unfold Visualizer.edges_of_route. apply in_flat_map.
      exists (verb, path). split; auto. cbn [fst snd]. rewrite Hfind. now left.
    + exfalso. pose proof (find_none _ _ Hfind a0 Ha0) as Hn. congruence.
Qed.

Lemma generated_routes_linked_witness :
  exists c, In c generated_controllers
    /\ In (Visualizer.mkEdge (item_id c ++ "-" ++ item_id generated_route)%string
                             (item_id c) (item_id generated_route))
          (Graph.controllerRouteEdges generated_controllers generated_routes).
Proof.
  refine (proj1
            (generated_routes_linked JsString.lower_ascii tick dice finds_export generated_controllers
               [mkCollection "c1" "Users" [list_users]] 2 generated_routes
               _ _ _ _ _ generated_route _)).
  - intros c [<-|[]]. split; reflexivity.
  - intros a [<-|[]]. split; reflexivity.
  - distinct_names.
  - reflexivity.
  - distinct_names.
  - now left.
Defined.

(** ** More on reverting and reconciling *)

Module VersioningMore.

(** The collection after the revert of one artifact. *)
Lemma revertItem_at (clock : nat -> Z) {D : Type}
    (id : string) (target : Z) (e : HistoryEntry D) (it : Item D)
    (pre post : list (Item D)) (n : nat) :
  item_id it = id ->
  (forall x, In x (pre ++ post) -> item_id x <> id) ->
  find (fun h => Z.eqb (timestamp h) target) (item_history it) = Some e ->
  fst (fst (revertItem clock id target (pre ++ it :: post) n))
  = pre ++ mkItem id (data e)
             (mkEntry (clock n) (item_rest it) (Some "Reverted")
              :: filter (fun h => negb (Z.eqb (timestamp h) target)) (item_history it))
           :: post.
Proof.
  intros Hid Hothers Hfind.
  rewrite revertItem_run. cbn [fst].
  rewrite mapM_app. cbn [fst].
  rewrite (mapM_pure _ (fun x => x) pre).
  2:{ intros a m Ha. apply revertOne_other. apply Hothers. apply in_or_app. now left. }
  cbn [fst snd]. rewrite map_id. f_equal.
  rewrite mapM_cons.
  rewrite (revertOne_found clock id target it e n Hid Hfind).
  cbn [fst snd]. rewrite Hid. f_equal.
  rewrite (mapM_pure _ (fun x => x) post).
  - cbn [fst]. apply map_id.
  - intros a m Ha. apply revertOne_other. apply Hothers. apply in_or_app. now right.
Qed.

Lemma filter_all {A} (keep : A -> bool) (xs : list A) :
  (forall x, In x xs -> keep x = true) -> filter keep xs = xs.
Proof.
  intros Hk. apply forallb_filter_id. now apply forallb_forall.
Qed.

End VersioningMore.

(** X19. A revert can be undone by a revert: after an artifact is
    reverted to an entry of its history at a reading of the clock that no
    entry of the history has as its timestamp, reverting it to that
    reading, at any later call, gives back the content that the first
    revert replaced.  The snapshot of the entry is then kept in a new entry
    tagged "Reverted": the entry itself, with its timestamp and message, is
    not put back.  The other artifacts are left as they are. *)
Theorem revertItem_undo (clock : nat -> Z) {D : Type}
    (id : string) (e : HistoryEntry D) (it : Item D)
    (pre post : list (Item D)) (n k : nat) :
  item_id it = id ->
  (forall x, In x (pre ++ post) -> item_id x <> id) ->
  In e (item_history it) ->
  (forall e', In e' (item_history it) -> timestamp e' = timestamp e -> e' = e) ->
  (forall e', In e' (item_history it) -> timestamp e' <> clock n) ->
  let reverted :=
    fst (fst (revertItem clock id (timestamp e) (pre ++ it :: post) n)) in
  let newHistory :=
    filter (fun h => negb (Z.eqb (timestamp h) (timestamp e))) (item_history it) in
  fst (fst (revertItem clock id (clock n) reverted k))
  = pre ++ mkItem id (item_rest it)
             (mkEntry (clock k) (data e) (Some "Reverted") :: newHistory)
           :: post.
Proof.
  intros Hid Hothers Hin Huniq Hfresh reverted newHistory. unfold reverted.
  rewrite (VersioningMore.revertItem_at clock id (timestamp e) e it pre post n
             Hid Hothers (find_timestamp _ _ Hin Huniq)).
  fold newHistory.
  rewrite (VersioningMore.revertItem_at clock id (clock n)
             (mkEntry (clock n) (item_rest it) (Some "Reverted"))
             (mkItem id (data e)
                (mkEntry (clock n) (item_rest it) (Some "Reverted") :: newHistory))
             pre post k eq_refl Hothers).
  - cbn [item_rest item_history data filter timestamp].
    rewrite Z.eqb_refl. cbn [negb]. do 4 f_equal.
    apply VersioningMore.filter_all. intros x Hx.
    apply filter_In in Hx as [Hx _]. apply negb_true_iff, Z.eqb_neq.
    now apply Hfresh.
  - cbn [item_history find timestamp]. now rewrite Z.eqb_refl.
Qed.

Lemma revertItem_undo_witness :
  fst (fst (revertItem tick "1" 9
              (fst (fst (revertItem tick "1" 7 [updated_file; file "2" "B" "b" []] 9)))
              (snd (revertItem tick "1" 7 [updated_file; file "2" "B" "b" []] 9))))
  = [file "1" "A" "y"
       [mkEntry 11%Z (mkCodeFile "A" "x") (Some "Reverted");
        mkEntry 2%Z (mkCodeFile "A" "w") None];
     file "2" "B" "b" []].
Proof.
  refine (revertItem_undo tick "1"
            (mkEntry 7%Z (mkCodeFile "A" "x") (Some "Auto-saved on generation"))
            updated_file [] [file "2" "B" "b" []] 9 11 _ _ _ _ _).
  - reflexivity.
  - cbn. intros x [<-|[]]; cbn; discriminate.
  - cbn. now left.
  - cbn. intros e' [<-|[<-|[]]]; cbn; intros E; (reflexivity || discriminate E).
  - cbn. intros e' [<-|[<-|[]]]; cbn; discriminate.
Defined.

(** X20. Every artifact that a reconciliation returns carries the code
    that the batch gives for its name.  It is either an existing artifact
    of that name kept as it is; or an existing artifact of that name
    updated to the batch content, with one more entry on its history and
    with the id that the batch item carries (the generated artifacts carry
    one), its own id when the item carries none; or a new artifact made of
    the batch content, with an empty history and an id made of the name
    and a reading of the clock. *)
Theorem smartUpdate_takes_batch (clock : nat -> Z) {D : Type} `{Content D}
    (existing : list (Item D)) (newItems : list (NewItem D)) (n : nat) (x : Item D) :
  In x (fst (smartUpdate clock existing newItems n)) ->
  exists b,
    given newItems (item_name x) = Some b
    /\ item_code x = batch_code b
    /\ ((exists e, In e existing /\ item_name x = item_name e
                   /\ (x = e
                       \/ (item_id x = updated_id e b
                           /\ item_rest x = new_data b
                           /\ exists now,
                                item_history x = autosave now e :: item_history e)))
        \/ (item_rest x = new_data b /\ item_history x = []
            /\ exists now,
                 item_id x = (item_name x ++ "-" ++ JsString.of_Z now)%string)).
Proof.
  rewrite smartUpdate_first.
  rewrite smartUpdate_reconcile by apply NoDup_first_by_name.
  intros Hx.
  apply reconcile_In in Hx as [[e [b [m [He [Hg ->]]]]]|[b [m [Hg [_ ->]]]]].
  - assert (Hname : batch_name b = item_name e) by now apply given_name in Hg.
    assert (Hexisting : In e existing).
    { clear - He. induction existing as [|a l IH]; [contradiction|].
      cbn [first_by_name] in He. destruct He as [->|He]; [now left|].
      apply filter_In in He as [He _]. right. now apply IH. }
    exists b. rewrite reconcileOne_name_of by assumption.
    split; [exact Hg|]. unfold reconcileOne.
    destruct (String.eqb_spec (item_code e) (batch_code b)) as [E|Hne].
    + cbn [ret fst]. split; [exact E|]. left. exists e. auto.
    + rewrite bind_run. cbn [Date_now ret fst snd].
      split; [reflexivity|]. left. exists e. split; [exact Hexisting|].
      split; [reflexivity|]. right. split; [reflexivity|]. split; [reflexivity|].
      now exists (clock m).
  - exists b. unfold createOne. rewrite bind_run. cbn [Date_now ret fst snd].
    split; [exact Hg|]. split; [reflexivity|]. right.
    split; [reflexivity|]. split; [reflexivity|]. now exists (clock m).
Qed.

Lemma smartUpdate_takes_batch_witness :
  let x := nth 0 (fst (smartUpdate tick first_controllers second_batch 6))
               (file EmptyString EmptyString EmptyString []) in
  In x (fst (smartUpdate tick first_controllers second_batch 6))
  /\ item_id x = "ctrl-4-0.5"
  /\ exists b,
       given second_batch (item_name x) = Some b
       /\ item_code x = batch_code b
       /\ ((exists e, In e first_controllers /\ item_name x = item_name e
                      /\ (x = e
                          \/ (item_id x = updated_id e b
                              /\ item_rest x = new_data b
                              /\ exists now,
                                   item_history x = autosave now e :: item_history e)))
           \/ (item_rest x = new_data b /\ item_history x = []
               /\ exists now,
                    item_id x = (item_name x ++ "-" ++ JsString.of_Z now)%string)).
Proof.
  intros x. split; [now left|]. split; [reflexivity|].
  apply (smartUpdate_takes_batch tick first_controllers second_batch 6 x).
  now left.
Defined.

(** ** The store of the projects *)

Module ProjectServiceFacts.
Import ProjectService.

Lemma values_set (m : JsMap.t Project) k v q :
  In q (map snd (JsMap.set k v m)) -> q = v \/ In q (map snd m).
Proof.
  intros Hq. apply in_map_iff in Hq as [[k' q'] [E Hin]]. cbn [snd] in E. subst q'.
  apply JsMapFacts.In_set in Hin as [E|Hin].
  - left. now inversion E.
  - right. apply in_map_iff. now exists (k', q).
Qed.

Lemma value_of_set (m : JsMap.t Project) k v : In v (map snd (JsMap.set k v m)).
Proof.
  induction m as [|[k0 v0] m IH]; cbn [JsMap.set map snd]; [now left|].
  destruct (String.eqb k0 k); cbn [map snd]; [now left|now right].
Qed.

Lemma recent_first (l : list Project) :
  StronglySorted (fun a b => (lastModified b <= lastModified a)%Z)
    (JsArray.sort (fun a b => (lastModified b - lastModified a)%Z) l).
Proof.
  pose proof (JsArrayFacts.sort_sorted (fun p => (- lastModified p)%Z)
                (fun a b => (lastModified b - lastModified a)%Z)) as Hs.
  eapply StronglySorted_ind with (P := fun l' =>
    StronglySorted (fun a b => (lastModified b <= lastModified a)%Z) l');
    [constructor| |apply Hs; intros a b; lia].
  intros a l' _ IH Ha. constructor; auto.
  eapply Forall_impl; [|exact Ha]. intros b Hb. cbn beta in Hb. lia.
Qed.

End ProjectServiceFacts.

(** X21. When the write to the storage succeeds, a project that is saved
    is found again under its id, with the time of the reading of the clock
    made by the saving in place of the time it was given, and the projects
    of the other ids are found as before; a project that is deleted is
    found no more, and the others are found as before; a project that is
    created is stored under the id of the project returned, with the time
    of a later reading of the clock than the time of the project returned.
    When the write fails, the failure is not reported and the store is as
    it was: [createProject] still returns the project, which is not
    stored. *)
Theorem project_store_round_trip (setItem_succeeds :
      ProjectService.Storage -> JsMap.t ProjectService.Project -> bool)
    (clock : nat -> Z) (random : nat -> string)
    (storage : ProjectService.Storage) (n : nat) :
  (forall p,
     let storage' :=
       fst (ProjectService.saveProject setItem_succeeds clock p storage n) in
     (setItem_succeeds storage (ProjectService.with_saved (clock n) p storage) = true ->
      ProjectService.getProject (ProjectService.project_id p) storage'
      = Some (ProjectService.saved_at (clock n) p)
      /\ forall id, id <> ProjectService.project_id p ->
           ProjectService.getProject id storage'
           = ProjectService.getProject id storage)
     /\ (setItem_succeeds storage (ProjectService.with_saved (clock n) p storage) = false ->
         storage' = storage))
  /\ (forall id,
        let storage' := ProjectService.deleteProject setItem_succeeds id storage in
        (NoDup (JsMap.keys (ProjectService.getAllProjectsMap storage)) ->
         setItem_succeeds storage
           (JsMap.delete id (ProjectService.getAllProjectsMap storage)) = true ->
         ProjectService.getProject id storage' = None
         /\ forall id', id' <> id ->
              ProjectService.getProject id' storage'
              = ProjectService.getProject id' storage)
        /\ (setItem_succeeds storage
              (JsMap.delete id (ProjectService.getAllProjectsMap storage)) = false ->
            storage' = storage))
  /\ (forall name given,
        let r := ProjectService.createProject setItem_succeeds clock random
                   name given storage n in
        let p := fst (fst r) in
        exists m, (n + 2 < m)%nat /\ snd r = S m
          /\ ProjectService.project_name p = name
          /\ ProjectService.lastModified p = clock (n + 2)
          /\ (setItem_succeeds storage (ProjectService.with_saved (clock m) p storage)
              = true ->
              ProjectService.getProject (ProjectService.project_id p) (snd (fst r))
              = Some (ProjectService.saved_at (clock m) p))
          /\ (setItem_succeeds storage (ProjectService.with_saved (clock m) p storage)
              = false ->
              snd (fst r) = storage)).
Proof.
  split; [|split].
  - intros p storage'. unfold storage', ProjectService.saveProject.
    rewrite bind_run. cbn [Date_now ret fst snd].
    unfold ProjectService.saveAllProjectsMap, ProjectService.with_saved,
      ProjectService.saved_at.
    split; intros Hw; rewrite Hw; [|reflexivity].
    unfold ProjectService.getProject. cbn [ProjectService.getAllProjectsMap]. split.
    + now rewrite get_set, String.eqb_refl.
    + intros id Hne. rewrite get_set.
      destruct (String.eqb_spec (ProjectService.project_id p) id); congruence.
  - intros id storage'. unfold storage', ProjectService.deleteProject,
      ProjectService.saveAllProjectsMap.
    split; [intros Hnd Hw|intros Hw]; rewrite Hw; [|reflexivity].
    unfold ProjectService.getProject. cbn [ProjectService.getAllProjectsMap]. split.
    + now apply get_delete_same.
    + intros id' Hne. now apply JsMapFacts.get_delete_ne.
  - intros name given r p. unfold p, r, ProjectService.createProject.
    unfold Generation.stamped, Generation.Math_random.
    rewrite !bind_run. cbn [Date_now ret fst snd].
    destruct given as [s|].
    + exists (n + 3)%nat. cbn [ret fst snd].
      replace (S (S n)) with (n + 2)%nat by lia.
      unfold ProjectService.saveProject. rewrite !bind_run.
      cbn [Date_now ret fst snd ProjectService.lastModified ProjectService.project_id
           ProjectService.project_name].
      replace (S (n + 2)) with (n + 3)%nat by lia.
      split; [lia|]. split; [reflexivity|]. split; [reflexivity|].
      split; [reflexivity|].
      unfold ProjectService.saveAllProjectsMap, ProjectService.with_saved,
        ProjectService.saved_at.
      cbn [ProjectService.lastModified ProjectService.project_id
           ProjectService.project_name ProjectService.state].
      split; intros Hw; rewrite Hw; [|reflexivity].
      unfold ProjectService.getProject. cbn [ProjectService.getAllProjectsMap].
      now rewrite get_set, String.eqb_refl.
    + exists (n + 4)%nat. unfold ProjectService.getInitialProjectState.
      rewrite !bind_run. cbn [Date_now ret fst snd].
      replace (S (S n)) with (n + 2)%nat by lia.
      unfold ProjectService.saveProject. rewrite !bind_run.
      cbn [Date_now ret fst snd ProjectService.lastModified ProjectService.project_id
           ProjectService.project_name].
      replace (S (S (n + 2))) with (n + 4)%nat by lia.
      split; [lia|]. split; [reflexivity|]. split; [reflexivity|].
      split; [reflexivity|].
      unfold ProjectService.saveAllProjectsMap, ProjectService.with_saved,
        ProjectService.saved_at.
      cbn [ProjectService.lastModified ProjectService.project_id
           ProjectService.project_name ProjectService.state].
      split; intros Hw; rewrite Hw; [|reflexivity].
      unfold ProjectService.getProject. cbn [ProjectService.getAllProjectsMap].
      now rewrite get_set, String.eqb_refl.
Qed.

Lemma project_store_round_trip_witness :
  ProjectService.getProject "p1"
    (ProjectService.deleteProject room_for_two "p1" two_projects) = None
  /\ ProjectService.getProject "p2"
       (ProjectService.deleteProject room_for_two "p1" two_projects)
     = Some (ProjectService.mkProject "p2" "Blog" 8 empty_state)
  /\ fst (ProjectService.saveProject room_for_two tick
            (ProjectService.mkProject "p3" "Wiki" 0 empty_state) two_projects 9)
     = two_projects.
Proof.
  pose proof (project_store_round_trip room_for_two tick dice two_projects 9)
    as [Hsave [Hdelete _]].
  destruct (proj1 (Hdelete "p1") ltac:(distinct_names) eq_refl) as [Hgone Hothers].
  split; [exact Hgone|]. split.
  - rewrite Hothers by discriminate. reflexivity.
  - apply (proj2 (Hsave (ProjectService.mkProject "p3" "Wiki" 0 empty_state))).
    reflexivity.
Defined.

(** X22. The list of the projects holds the projects of the store, each
    once, the most recently modified first.  After a project is saved at a
    reading of the clock that is later than the times of all the projects
    of the store, and the write to the storage succeeds, it is the first of
    the list; when the write fails the list is as it was. *)
Theorem getProjects_recent_first (setItem_succeeds :
      ProjectService.Storage -> JsMap.t ProjectService.Project -> bool)
    (clock : nat -> Z)
    (storage : ProjectService.Storage) (p : ProjectService.Project) (n : nat) :
  StronglySorted
    (fun a b => (ProjectService.lastModified b <= ProjectService.lastModified a)%Z)
    (ProjectService.getProjects storage)
  /\ Permutation (ProjectService.getProjects storage)
                 (map snd (ProjectService.getAllProjectsMap storage))
  /\ ((forall q, In q (map snd (ProjectService.getAllProjectsMap storage)) ->
                 (ProjectService.lastModified q < clock n)%Z) ->
      setItem_succeeds storage (ProjectService.with_saved (clock n) p storage) = true ->
      exists rest,
        ProjectService.getProjects
          (fst (ProjectService.saveProject setItem_succeeds clock p storage n))
        = ProjectService.saved_at (clock n) p :: rest)
  /\ (setItem_succeeds storage (ProjectService.with_saved (clock n) p storage) = false ->
      ProjectService.getProjects
        (fst (ProjectService.saveProject setItem_succeeds clock p storage n))
      = ProjectService.getProjects storage).
Proof.
  split; [|split; [|split]].
  - apply ProjectServiceFacts.recent_first.
  - apply JsArrayFacts.sort_perm.
  - intros Hold Hw. unfold ProjectService.saveProject. rewrite bind_run.
    cbn [Date_now ret fst snd]. unfold ProjectService.saveAllProjectsMap.
    unfold ProjectService.with_saved, ProjectService.saved_at in Hw. rewrite Hw.
    unfold ProjectService.getProjects.
    cbn [ProjectService.getAllProjectsMap].
    set (m' := JsMap.set _ _ _).
    pose proof (ProjectServiceFacts.recent_first (map snd m')) as Hs.
    assert (Hin : In (ProjectService.saved_at (clock n) p)
                     (JsArray.sort (fun a b => (ProjectService.lastModified b
                                                - ProjectService.lastModified a)%Z)
                                   (map snd m'))).
    { apply JsArrayFacts.In_sort. apply ProjectServiceFacts.value_of_set. }
    destruct (JsArray.sort _ (map snd m')) as [|f rest] eqn:E; [contradiction|].
    exists rest. f_equal.
    assert (Hf : In f (map snd m')).
    { apply (JsArrayFacts.In_sort
               (fun a b => (ProjectService.lastModified b
                            - ProjectService.lastModified a)%Z)).
      rewrite E. now left. }
    apply ProjectServiceFacts.values_set in Hf as [Hf|Hf]; [exact Hf|].
    destruct Hin as [Hin|Hin]; [exact Hin|].
    inversion Hs as [|? ? _ Hall]; subst. rewrite Forall_forall in Hall.
    specialize (Hall _ Hin). specialize (Hold _ Hf).
    cbn [ProjectService.saved_at ProjectService.lastModified] in Hall. lia.
  - intros Hw. unfold ProjectService.saveProject. rewrite bind_run.
    cbn [Date_now ret fst snd]. unfold ProjectService.saveAllProjectsMap.
    unfold ProjectService.with_saved, ProjectService.saved_at in Hw. now rewrite Hw.
Qed.

Lemma getProjects_recent_first_witness :
  ProjectService.getProjects
    (fst (ProjectService.saveProject room_for_two tick
            (ProjectService.mkProject "p1" "Shop" 5 empty_state) two_projects 9))
  = [ProjectService.mkProject "p1" "Shop" 9 empty_state;
     ProjectService.mkProject "p2" "Blog" 8 empty_state]
  /\ (exists rest,
        ProjectService.getProjects
          (fst (ProjectService.saveProject room_for_two tick
                  (ProjectService.mkProject "p1" "Shop" 5 empty_state) two_projects 9))
        = ProjectService.mkProject "p1" "Shop" 9 empty_state :: rest)
  /\ ProjectService.getProjects
       (fst (ProjectService.saveProject room_for_two tick
               (ProjectService.mkProject "p3" "Wiki" 0 empty_state) two_projects 9))
     = ProjectService.getProjects two_projects.
Proof.
  split; [reflexivity|]. split.
  - apply (proj1 (proj2 (proj2 (getProjects_recent_first room_for_two tick two_projects
                                  (ProjectService.mkProject "p1" "Shop" 5 empty_state)
                                  9)))).
    + cbn. intros q [<-|[<-|[]]]; cbn; lia.
    + reflexivity.
  - apply (proj2 (proj2 (proj2 (getProjects_recent_first room_for_two tick two_projects
                                  (ProjectService.mkProject "p3" "Wiki" 0 empty_state)
                                  9)))).
    reflexivity.
Defined.

(** ** The shape of the graph *)

Module GraphShapeFacts.
Import Visualizer Graph.

Lemma node_of_map (nodes : list GraphNode) (key : GraphNode -> string) k node :
  JsMap.get k (JsMap.of_entries (map (fun n => (key n, n)) nodes)) = Some node ->
  In node nodes.
Proof.
  intros Hget. apply JsMapFacts.get_In, JsMapFacts.In_of_entries in Hget.
  apply in_map_iff in Hget as [x [E Hx]]. now inversion E; subst.
Qed.

(** The ends of the edges of each loop. *)
Lemma modelControllerEdges_ends models controllers e :
  In e (modelControllerEdges models controllers) ->
  exists sn tn, In sn (modelNodes models) /\ In tn (controllerNodes controllers)
    /\ e = mkEdge (node_id sn ++ "-" ++ node_id tn)%string (node_id sn) (node_id tn).
Proof.
  unfold modelControllerEdges. intros He.
  apply in_flat_map in He as [c [_ He]].
  destruct (JsMap.get (file_name (item_rest c)) _) as [tn|] eqn:Ht; [|contradiction].
  apply in_flat_map in He as [w [_ He]].
  destruct (JsMap.get (w ++ ".js")%string _) as [sn|] eqn:Hs; [|contradiction].
  destruct He as [<-|[]]. exists sn, tn.
  split; [now apply node_of_map in Hs|]. split; [now apply node_of_map in Ht|].
  reflexivity.
Qed.

Lemma controllerRouteEdges_ends controllers routes e :
  In e (controllerRouteEdges controllers routes) ->
  exists sn tn, In sn (controllerNodes controllers) /\ In tn (routeNodes routes)
    /\ e = mkEdge (node_id sn ++ "-" ++ node_id tn)%string (node_id sn) (node_id tn).
Proof.
  unfold controllerRouteEdges. intros He.
  apply in_flat_map in He as [r [_ He]].
  destruct (JsMap.get (file_name (item_rest r)) _) as [tn|] eqn:Ht; [|contradiction].
  destruct (Patterns.controllerRequire _) as [cn|]; [|contradiction].
  destruct (JsMap.get cn _) as [sn|] eqn:Hs; [|contradiction].
  destruct He as [<-|[]]. exists sn, tn.
  split; [now apply node_of_map in Hs|]. split; [now apply node_of_map in Ht|].
  reflexivity.
Qed.

Lemma routeApiEdges_ends routes colls e :
  In e (routeApiEdges routes colls) ->
  exists sn tn, In sn (routeNodes routes) /\ In tn (apiNodes (allApis colls))
    /\ e = mkEdge (node_id sn ++ "-" ++ node_id tn)%string (node_id sn) (node_id tn).
Proof.
  unfold routeApiEdges. intros He.
  apply in_flat_map in He as [r [_ He]].
  destruct (JsMap.get (file_name (item_rest r)) _) as [sn|] eqn:Hs; [|contradiction].
  apply in_flat_map in He as [m [_ He]].
  match type of He with
  | context [find ?f ?l] => destruct (find f l) as [a|]; [|contradiction]
  end.
  destruct (JsMap.get (item_id a) _) as [tn|] eqn:Ht; [|contradiction].
  destruct He as [<-|[]]. exists sn, tn.
  split; [now apply node_of_map in Hs|]. split; [now apply node_of_map in Ht|].
  reflexivity.
Qed.

Lemma kind_of_modelNodes models nd :
  In nd (modelNodes models) -> node_type nd = model.
Proof. intros H. apply in_map_iff in H as [m [<- _]]. reflexivity. Qed.

Lemma kind_of_controllerNodes controllers nd :
  In nd (controllerNodes controllers) -> node_type nd = controller.
Proof. intros H. apply in_map_iff in H as [m [<- _]]. reflexivity. Qed.

Lemma kind_of_routeNodes routes nd :
  In nd (routeNodes routes) -> node_type nd = route.
Proof. intros H. apply in_map_iff in H as [m [<- _]]. reflexivity. Qed.

Lemma kind_of_apiNodes apis nd :
  In nd (apiNodes apis) -> node_type nd = api.
Proof. intros H. apply in_map_iff in H as [m [<- _]]. reflexivity. Qed.

(** A node of the graph after the layout. *)
Lemma layout_node nodes nd :
  In nd nodes ->
  exists p, In p (layout nodes)
            /\ node_id p = node_id nd /\ node_x p = colX (node_type nd).
Proof.
  intros Hnd.
  assert (Hin : In (node_id nd, node_type nd, node_label nd)
                   (map (fun p => (node_id p, node_type p, node_label p))
                        (layout nodes))).
  { unfold layout. rewrite LayoutFacts.position_labels.
    now apply (in_map (fun p => (node_id p, node_type p, node_label p))). }
  apply in_map_iff in Hin as [p [E Hp]]. injection E as Hid Htype Hlabel.
  exists p. split; [exact Hp|]. split; [exact Hid|].
  pose proof (LayoutFacts.position_rows nodes nodes []) as Hrows.
  rewrite Forall_forall in Hrows.
  destruct (Hrows p Hp) as [i [_ [Hx _]]]. now rewrite Hx, Htype.
Qed.

End GraphShapeFacts.

(** X23. Every edge of the graph joins two nodes of the graph that stand
    in neighbouring columns, its source on the left: the ends of an edge
    are ids of nodes of the graph after the layout, the target one column
    gap to the right of the source, and the id of the edge is made of the
    ids of its ends. *)
Theorem edges_join_neighbouring_columns (models : list Model)
    (colls : list ApiCollection) (controllers : list Controller)
    (routes : list Route) (middlewares : list Middleware)
    (e : Visualizer.GraphEdge) :
  In e (Graph.allEdges models colls controllers routes) ->
  let nodes :=
    Graph.layout (Graph.allNodes models colls controllers routes middlewares) in
  exists s t,
    In s nodes /\ In t nodes
    /\ Visualizer.node_id s = Visualizer.edge_source e
    /\ Visualizer.node_id t = Visualizer.edge_target e
    /\ Visualizer.node_x t = (Visualizer.node_x s + Graph.COL_GAP)%Z
    /\ Visualizer.edge_id e
       = (Visualizer.edge_source e ++ "-" ++ Visualizer.edge_target e)%string.
Proof.
  intros He nodes. unfold Graph.allEdges in He.
  assert (Hends : exists sn tn,
            In sn (Graph.allNodes models colls controllers routes middlewares)
            /\ In tn (Graph.allNodes models colls controllers routes middlewares)
            /\ e = Visualizer.mkEdge
                     (Visualizer.node_id sn ++ "-" ++ Visualizer.node_id tn)%string
                     (Visualizer.node_id sn) (Visualizer.node_id tn)
            /\ Graph.colX (Visualizer.node_type tn)
               = (Graph.colX (Visualizer.node_type sn) + Graph.COL_GAP)%Z).
  { unfold Graph.allNodes.
    apply in_app_or in He as [He|He]; [|apply in_app_or in He as [He|He]].
    - apply GraphShapeFacts.modelControllerEdges_ends in He as [sn [tn [Hs [Ht ->]]]].
      exists sn, tn.
      rewrite (GraphShapeFacts.kind_of_modelNodes _ _ Hs),
              (GraphShapeFacts.kind_of_controllerNodes _ _ Ht).
      repeat split;
        repeat (apply in_or_app; first [left; assumption | right]).
    - apply GraphShapeFacts.controllerRouteEdges_ends in He as [sn [tn [Hs [Ht ->]]]].
      exists sn, tn.
      rewrite (GraphShapeFacts.kind_of_controllerNodes _ _ Hs),
              (GraphShapeFacts.kind_of_routeNodes _ _ Ht).
      repeat split;
        repeat (apply in_or_app; first [left; assumption | right]).
    - apply GraphShapeFacts.routeApiEdges_ends in He as [sn [tn [Hs [Ht ->]]]].
      exists sn, tn.
      rewrite (GraphShapeFacts.kind_of_routeNodes _ _ Hs),
              (GraphShapeFacts.kind_of_apiNodes _ _ Ht).
      repeat split;
        repeat (apply in_or_app; first [left; assumption | right]). }
  destruct Hends as [sn [tn [Hs [Ht [-> Hx]]]]].
  destruct (GraphShapeFacts.layout_node _ _ Hs) as [s [Hsin [Hsid Hsx]]].
  destruct (GraphShapeFacts.layout_node _ _ Ht) as [t [Htin [Htid Htx]]].
  exists s, t. cbn [Visualizer.edge_source Visualizer.edge_target Visualizer.edge_id].
  repeat split; auto. now rewrite Hsx, Htx.
Qed.

Lemma edges_join_neighbouring_columns_witness :
  exists s t,
    In s (Graph.layout (Graph.allNodes [user_schema] [] generated_controllers
                          generated_routes []))
    /\ In t (Graph.layout (Graph.allNodes [user_schema] [] generated_controllers
                             generated_routes []))
    /\ Visualizer.node_id s = "ctrl-0-0.5"
    /\ Visualizer.node_id t = "route-2-0.5"
    /\ Visualizer.node_x t = (Visualizer.node_x s + Graph.COL_GAP)%Z
    /\ "ctrl-0-0.5-route-2-0.5" = ("ctrl-0-0.5" ++ "-" ++ "route-2-0.5")%string.
Proof.
  apply (edges_join_neighbouring_columns [user_schema] [] generated_controllers
           generated_routes []
           (Visualizer.mkEdge "ctrl-0-0.5-route-2-0.5" "ctrl-0-0.5" "route-2-0.5")).
  vm_compute. right. right. now left.
Defined.

(** ** The endpoints of a route file *)

Module OwnerFacts.
Import JsString Generation.

Section Casing.
Variable toLowerCase : string -> string.

Section Owner.
Variable RegExp : string -> option (string -> bool).
Variable controllers : list Controller.
Hypothesis distinct : NoDup (map (fun c => file_name (item_rest c)) controllers).

(** The map when the endpoints [done] have been gone through. *)
Lemma set_on_names (f : Controller -> RouteData) (o : Controller) (v : RouteData)
    (cs : list Controller) :
  NoDup (map (fun c => file_name (item_rest c)) cs) -> In o cs ->
  JsMap.set (file_name (item_rest o)) v
    (map (fun c => (file_name (item_rest c), f c)) cs)
  = map (fun c => (file_name (item_rest c),
                   if String.eqb (file_name (item_rest c)) (file_name (item_rest o))
                   then v else f c)) cs.
Proof.
  induction cs as [|c cs IH]; [contradiction|].
  cbn [map]. intros Hnd Ho. inversion Hnd as [|? ? Hc Hnd']; subst.
  cbn [JsMap.set].
  destruct (String.eqb_spec (file_name (item_rest c)) (file_name (item_rest o)))
    as [E|Hne].
  - f_equal. apply map_ext_in. intros x Hx.
    destruct (String.eqb_spec (file_name (item_rest x)) (file_name (item_rest o)))
      as [E'|]; [|reflexivity].
    exfalso. apply Hc. rewrite E, <- E'.
    now apply (in_map (fun c => file_name (item_rest c))).
  - destruct Ho as [->|Ho]; [congruence|]. now rewrite IH.
Qed.

Lemma get_on_names (f : Controller -> RouteData) (o : Controller)
    (cs : list Controller) :
  NoDup (map (fun c => file_name (item_rest c)) cs) -> In o cs ->
  JsMap.get (file_name (item_rest o))
    (map (fun c => (file_name (item_rest c), f c)) cs) = Some (f o).
Proof.
  intros Hnd Ho. apply get_keys.
  - unfold JsMap.keys. now rewrite map_map.
  - apply in_map_iff. now exists o.
Qed.

Lemma routedTo_snoc (done : list Api) (a : Api) (c : Controller) :
  routedTo toLowerCase RegExp controllers (done ++ [a]) c
  = routedTo toLowerCase RegExp controllers done c
    ++ match find (exportedBy toLowerCase RegExp a) controllers with
       | Some owner =>
           if String.eqb (file_name (item_rest owner)) (file_name (item_rest c))
           then [a] else []
       | None => []
       end.
Proof.
  unfold routedTo. rewrite filter_app. cbn [filter].
  destruct (find (exportedBy toLowerCase RegExp a) controllers) as [o|]; [|reflexivity].
  now destruct (String.eqb _ _).
Qed.

(** One endpoint: the loop over the controllers. *)
Lemma assignRoute_owner (a : Api) (cs : list Controller) : forall m m',
  assignRoute RegExp a (Grouping.lowerFirst toLowerCase (api_name (item_rest a))) cs m = Some m' ->
  m' = match find (exportedBy toLowerCase RegExp a) cs with
       | Some o =>
           match JsMap.get (file_name (item_rest o)) m with
           | Some routeData =>
               JsMap.set (file_name (item_rest o))
                 (mkRouteData (routeFileName routeData) (controllerVarName routeData)
                    (controllerImportPath routeData)
                    (routeEntries routeData ++ [entry_of toLowerCase a]))
                 m
           | None => m
           end
       | None => m
       end.
Proof.
  induction cs as [|c cs IH]; intros m m'; cbn [assignRoute find].
  - now intros [= <-].
  - unfold exportedBy at 1.
    destruct (RegExp _) as [exportRegex|] eqn:Hre; [|discriminate].
    destruct (exportRegex (file_code (item_rest c))).
    + destruct (JsMap.get _ m); now intros [= <-].
    + apply IH.
Qed.

Lemma assignRoutes_owner (todo : list Api) : forall done m',
  assignRoutes toLowerCase RegExp todo controllers
    (map (fun c => (file_name (item_rest c),
                    routeData_with toLowerCase c (routedTo toLowerCase RegExp controllers done c)))
         controllers) = Some m' ->
  m' = map (fun c => (file_name (item_rest c),
                      routeData_with toLowerCase c (routedTo toLowerCase RegExp controllers (done ++ todo) c)))
           controllers.
Proof.
  induction todo as [|a todo IH]; intros done m'; cbn [assignRoutes].
  - rewrite app_nil_r. now intros [= <-].
  - destruct (assignRoute _ _ _ _ _) as [m1|] eqn:Ha; [|discriminate].
    apply assignRoute_owner in Ha. intros Hrest.
    replace (done ++ a :: todo) with ((done ++ [a]) ++ todo)
      by (now rewrite <- app_assoc).
    apply IH. rewrite <- Hrest. f_equal. rewrite Ha.
    destruct (find (exportedBy toLowerCase RegExp a) controllers) as [o|] eqn:Hfind.
    + apply find_some in Hfind as Ho. destruct Ho as [Ho _].
      rewrite (get_on_names _ o controllers distinct Ho).
      rewrite (set_on_names _ o _ controllers distinct Ho).
      apply map_ext_in. intros c Hc. f_equal.
      rewrite routedTo_snoc, Hfind. rewrite (String.eqb_sym (file_name (item_rest c))).
      destruct (String.eqb_spec (file_name (item_rest o)) (file_name (item_rest c)))
        as [E|Hne].
      * assert (c = o) as ->.
        { apply (VisualizerFacts.NoDup_map_inj (fun c => file_name (item_rest c))
                   controllers); auto. }
        unfold routeData_with. cbn [routeFileName controllerVarName
                                    controllerImportPath routeEntries].
        now rewrite map_app.
      * now rewrite app_nil_r.
    + apply map_ext_in. intros c Hc. f_equal.
      rewrite routedTo_snoc, Hfind. now rewrite app_nil_r.
Qed.

Lemma init_on_names :
  fold_left (fun m c => JsMap.set (file_name (item_rest c)) (routeData_of c) m)
            controllers JsMap.empty
  = map (fun c => (file_name (item_rest c),
                   routeData_with toLowerCase c (routedTo toLowerCase RegExp controllers [] c)))
        controllers.
Proof.
  assert (Hfold : forall (l : list Controller) (m : JsMap.t RouteData),
            fold_left (fun m c => JsMap.set (file_name (item_rest c)) (routeData_of c) m)
                      l m
            = fold_left (fun m kv => JsMap.set (fst kv) (snd kv) m)
                        (map (fun c => (file_name (item_rest c), routeData_of c)) l) m).
  { induction l as [|c l IH]; intros m; cbn [fold_left map]; [reflexivity|].
    now rewrite IH. }
  rewrite Hfold.
  change (fold_left (fun m kv => JsMap.set (fst kv) (snd kv) m)
            (map (fun c => (file_name (item_rest c), routeData_of c)) controllers)
            JsMap.empty)
    with (JsMap.of_entries
            (map (fun c => (file_name (item_rest c), routeData_of c)) controllers)).
  rewrite JsMapFacts.of_entries_NoDup by (now rewrite map_map).
  reflexivity.
Qed.

End Owner.

Lemma no_endpoint RegExp (controllers cs : list Controller) :
  map (fun c =>
         mkCodeFile (routeFileName (routeData_of c))
                    (routeCode (routeData_with toLowerCase c (routedTo toLowerCase RegExp controllers [] c))))
      (filter (fun c =>
                 negb (List.length (routedTo toLowerCase RegExp controllers [] c) =? 0)%nat) cs)
  = [].
Proof. induction cs as [|c cs IH]; [reflexivity|exact IH]. Qed.

Lemma filter_map_swap {A B} (keep : B -> bool) (f : A -> B) (xs : list A) :
  filter keep (map f xs) = map f (filter (fun x => keep (f x)) xs).
Proof.
  induction xs as [|x xs IH]; cbn [map filter]; [reflexivity|].
  destruct (keep (f x)); cbn [map]; now rewrite IH.
Qed.

Lemma assignRoute_throws RegExp (a : Api) (c : Controller) (cs : list Controller) m :
  RegExp (exportSource (Grouping.lowerFirst toLowerCase (api_name (item_rest a)))) = None ->
  assignRoute RegExp a (Grouping.lowerFirst toLowerCase (api_name (item_rest a))) (c :: cs) m = None.
Proof. intros Hre. cbn [assignRoute]. now rewrite Hre. Qed.

Lemma assignRoutes_throws RegExp (apis : list Api) (c : Controller)
    (cs : list Controller) : forall m,
  (exists a, In a apis
             /\ RegExp (exportSource (Grouping.lowerFirst toLowerCase (api_name (item_rest a))))
                = None) ->
  assignRoutes toLowerCase RegExp apis (c :: cs) m = None.
Proof.
  induction apis as [|a apis IH]; intros m [x [Hx Hre]]; [contradiction|].
  cbn [assignRoutes].
  destruct (assignRoute _ _ _ _ _) as [m1|] eqn:Ha; [|reflexivity].
  destruct Hx as [->|Hx].
  - now rewrite assignRoute_throws in Ha.
  - apply IH. now exists x.
Qed.

End Casing.

End OwnerFacts.

(** X24. When the controller files have distinct names and [generateRoutes]
    gives route files, it gives one route file for each controller file
    that is the first to export the handler of some endpoint, in the order
    of the controller files; the file registers exactly the endpoints whose
    handler that controller file is the first to export, in the order of
    the endpoints, and has an empty history. *)
Theorem generateRoutes_by_owner (toLowerCase : string -> string)
    (clock : nat -> Z) (random : nat -> string)
    (RegExp : string -> option (string -> bool))
    (controllers : list Controller) (apis : list Api) (n : nat)
    (routes : list Route) :
  NoDup (map (fun c => file_name (item_rest c)) controllers) ->
  fst (Generation.generateRoutes toLowerCase clock random RegExp controllers apis n)
  = Some routes ->
  map item_rest routes
  = map (fun c =>
           mkCodeFile
             (Generation.routeFileName (Generation.routeData_of c))
             (Generation.routeCode
                (Generation.routeData_with toLowerCase c
                   (Generation.routedTo toLowerCase RegExp controllers apis c))))
        (filter (fun c =>
                   negb (List.length (Generation.routedTo toLowerCase RegExp controllers apis c)
                         =? 0)%nat)
                controllers)
  /\ Forall (fun r => item_history r = []) routes.
Proof.
  intros Hnd. unfold Generation.generateRoutes.
  destruct ((List.length controllers =? 0)%nat || (List.length apis =? 0)%nat)
    eqn:Hempty.
  { intros [= <-]. split; [|constructor].
    apply orb_true_iff in Hempty as [E|E]; apply Nat.eqb_eq in E.
    - destruct controllers; [reflexivity|discriminate].
    - destruct apis; [|discriminate].
      now rewrite OwnerFacts.no_endpoint. }
  rewrite (OwnerFacts.init_on_names toLowerCase RegExp controllers Hnd).
  destruct (Generation.assignRoutes toLowerCase _ _ _ _) as [m'|] eqn:Ha; [|discriminate].
  apply (OwnerFacts.assignRoutes_owner toLowerCase RegExp controllers Hnd apis []) in Ha.
  cbn [app] in Ha. subst m'.
  rewrite bind_run. cbn [ret fst]. intros [= <-]. split.
  - rewrite map_map, OwnerFacts.filter_map_swap.
    rewrite (mapM_fst_map _ item_rest
               (fun d => mkCodeFile (Generation.routeFileName d)
                                    (Generation.routeCode d))).
    + rewrite map_map. cbn [snd].
      rewrite (filter_ext _
                 (fun c => negb (List.length
                                   (Generation.routedTo toLowerCase RegExp controllers apis c)
                                 =? 0)%nat)).
      * reflexivity.
      * intros c. unfold Generation.routeData_with.
        cbn [Generation.routeEntries]. now rewrite length_map.
    + intros d m _. rewrite bind_run. reflexivity.
  - apply mapM_Forall. intros d m _. rewrite bind_run. reflexivity.
Qed.

Lemma generateRoutes_by_owner_witness :
  map item_rest generated_routes
  = map (fun c =>
           mkCodeFile
             (Generation.routeFileName (Generation.routeData_of c))
             (Generation.routeCode
                (Generation.routeData_with JsString.lower_ascii c
                   (Generation.routedTo JsString.lower_ascii finds_export generated_controllers
                      [list_users] c))))
        (filter (fun c =>
                   negb (List.length
                           (Generation.routedTo JsString.lower_ascii finds_export generated_controllers
                              [list_users] c)
                         =? 0)%nat)
                generated_controllers)
  /\ Forall (fun r => item_history r = []) generated_routes.
Proof.
  apply (generateRoutes_by_owner JsString.lower_ascii tick dice finds_export generated_controllers
           [list_users] 2 generated_routes).
  - constructor; [intros []|constructor].
  - reflexivity.
Defined.

(** X25. When there is a controller file and the handler name of some
    endpoint is no source of a regular expression, [generateRoutes] gives no
    route files: the promise is rejected. *)
Theorem generateRoutes_rejects (toLowerCase : string -> string)
    (clock : nat -> Z) (random : nat -> string)
    (RegExp : string -> option (string -> bool))
    (controllers : list Controller) (apis : list Api) (n : nat) :
  controllers <> [] ->
  (exists a, In a apis
             /\ RegExp (Generation.exportSource
                          (Grouping.lowerFirst toLowerCase (api_name (item_rest a)))) = None) ->
  fst (Generation.generateRoutes toLowerCase clock random RegExp controllers apis n) = None.
Proof.
  intros Hcs Hthrow. unfold Generation.generateRoutes.
  destruct controllers as [|c cs]; [congruence|].
  destruct apis as [|a0 apis0] eqn:Hapis.
  { destruct Hthrow as [a [[] _]]. }
  rewrite <- Hapis in *. replace (List.length apis =? 0)%nat with false by now subst.
  cbn [List.length Nat.eqb orb].
  now rewrite OwnerFacts.assignRoutes_throws.
Qed.

Lemma generateRoutes_rejects_witness :
  fst (Generation.generateRoutes JsString.lower_ascii tick dice refuses_open_group generated_controllers
         [list_users; open_group_endpoint] 2) = None.
Proof.
  apply generateRoutes_rejects.
  - discriminate.
  - exists open_group_endpoint. split; [right; now left|reflexivity].
Defined.
